(** * blinkiva_gauss: joint NMF + AuxIVA blind source separation

    A shallow embedding of [src/blinkiva_gauss.py] and the properties of it
    that its specification states.

    The routine is written once, over an interface of scalar operations
    ([Scalar]) and of the library functions it calls ([Libraries]: numpy's
    random generator, [numpy.linalg.solve], [numpy.log],
    [numpy.linalg.slogdet] and pyroomacoustics' [projection_back]).  Two
    instances are used below:

    - [binary64]: IEEE 754 double precision, the arithmetic the Python code
      runs on, with its infinities and NaN; it evaluates, and the concrete
      runs of the file are made on it.  What numpy computes by a library
      routine of its own is followed up to rounding only: the quotient and
      the square root of complex numbers are the textbook formulas, sums run
      from left to right, and [numpy.linalg.solve] is Cramer's rule;
    - [exact]: the real numbers.  It has no rounding, no infinity and no NaN
      (in Rocq's reals [1 / 0] is [0] and the square root of a negative
      number is [0]), so it does not stand for float64: it is used only in
      statements that say "in exact arithmetic", for the algebra behind the
      routine.

    A statement that is to hold of the Python code is made for every
    instance of [Scalar] and [Libraries], or is a run on [binary64].

    Arrays that the Python code creates, aliases and mutates in place live in
    an explicit store ([heap]); a Python variable holding an array is a
    location of that store. *)

From Stdlib Require Import ZArith Reals Lra Lia List Bool.
From Stdlib Require Import PrimFloat.
From Stdlib Require Uint63.
From stdpp Require Import base list.
Import ListNotations.

Set Warnings "-inexact-float".
#[local] Unset Default Proof Using.

(** ** Scalars *)

(** The operations of numpy's float64 that the routine uses.  The literals
    of the source are fields: [0.1], [0.9], [1e-15] and
    [np.finfo(float).eps]. *)
Class Scalar : Type := {
  real : Type;
  of_nat : nat -> real;
  radd : real -> real -> real;
  rsub : real -> real -> real;
  rmul : real -> real -> real;
  rdiv : real -> real -> real;
  ropp : real -> real;
  rsqrt : real -> real;
  rltb : real -> real -> bool;
  reqb : real -> real -> bool;
  lit_0_1 : real;
  lit_0_9 : real;
  lit_1e_15 : real;
  finfo_eps : real
}.

Declare Scope sc_scope.
Delimit Scope sc_scope with sc.
Infix "+" := radd : sc_scope.
Infix "-" := rsub : sc_scope.
Infix "*" := rmul : sc_scope.
Infix "/" := rdiv : sc_scope.
Notation "- x" := (ropp x) : sc_scope.
Infix "<?" := rltb : sc_scope.

Section Generic.

Context {S : Scalar}.

Definition r0 : real := of_nat 0.
Definition r1 : real := of_nat 1.
Definition r2 : real := of_nat 2.

(** *** complex128 *)

Record complex : Type := Cx { re : real; im : real }.

Definition of_real (x : real) : complex := Cx x r0.
Definition c0 : complex := of_real r0.
Definition c1 : complex := of_real r1.

Definition cadd (a b : complex) : complex :=
  Cx (re a + re b)%sc (im a + im b)%sc.

Definition cmul (a b : complex) : complex :=
  Cx (re a * re b - im a * im b)%sc (re a * im b + im a * re b)%sc.

Definition conj (a : complex) : complex := Cx (re a) (- im a)%sc.

(** [(x.conj() * x).real], the squared modulus as [numpy.linalg.norm] forms
    it. *)
Definition abs2 (a : complex) : real := re (cmul (conj a) a).

(** Quotient of two complex numbers, by the textbook formula.  On float64
    numpy's quotient avoids the square of the modulus of [b] and can differ
    from this one in the last bits, and where that square overflows. *)
Definition cdiv (a b : complex) : complex :=
  let d := (re b * re b + im b * im b)%sc in
  Cx ((re a * re b + im a * im b) / d)%sc
     ((im a * re b - re a * im b) / d)%sc.

(** [np.sqrt] on a complex number: the principal square root. *)
Definition csqrt (a : complex) : complex :=
  let m := rsqrt (re a * re a + im a * im a)%sc in
  let x := rsqrt ((m + re a) / r2)%sc in
  let y := rsqrt ((m - re a) / r2)%sc in
  Cx x (if (im a <? r0)%sc then (- y)%sc else y).

(** numpy orders complex numbers lexicographically. *)
Definition cltb (a b : complex) : bool :=
  (re a <? re b)%sc || (reqb (re a) (re b) && (im a <? im b)%sc).

(** ** Arrays *)

(** An array is the nested list of its entries, outermost axis first. *)
Definition vector (A : Type) : Type := list A.
Definition matrix (A : Type) : Type := list (list A).
Definition tensor3 (A : Type) : Type := list (list (list A)).
Definition tensor4 (A : Type) : Type := list (list (list (list A))).

(** [a.shape], read off the first slices.  A nested list does not keep the
    trailing extents of an array that is empty along a leading axis: numpy's
    [(0, 1, 2)] is [[]] here, and reads [(0, 0, 0)].  The statements below
    that depend on the extents are therefore made for arrays with at least
    one frame and one frequency ([has_shape3 X n m k] with [0 < n] and
    [0 < m]), where [shape3 X = (n, m, k)]. *)
Definition shape2 {A} (a : matrix A) : nat * nat :=
  (length a, length (hd [] a)).

Definition shape3 {A} (a : tensor3 A) : nat * nat * nat :=
  (length a, length (hd [] a), length (hd [] (hd [] a))).

(** Every slice along each axis has the announced length. *)
Definition has_shape2 {A} (a : matrix A) (n m : nat) : Prop :=
  length a = n /\ Forall (fun row => length row = m) a.

Definition has_shape3 {A} (a : tensor3 A) (n m k : nat) : Prop :=
  length a = n /\ Forall (fun s => has_shape2 s m k) a.

Definition has_shape4 {A} (a : tensor4 A) (n m k l : nat) : Prop :=
  length a = n /\ Forall (fun s => has_shape3 s m k l) a.

Definition tabulate {A} (n : nat) (f : nat -> A) : list A := map f (seq 0 n).
Definition tabulate2 {A} (n m : nat) (f : nat -> nat -> A) : matrix A :=
  tabulate n (fun i => tabulate m (f i)).
Definition tabulate3 {A} (n m k : nat) (f : nat -> nat -> nat -> A) : tensor3 A :=
  tabulate n (fun i => tabulate2 m k (f i)).

(** Entry lookups; an index out of range reads the default, which the
    routine never does on arrays of the documented shapes. *)
Definition rat1 (v : vector real) (i : nat) : real := nth i v r0.
Definition rat2 (a : matrix real) (i j : nat) : real := nth j (nth i a []) r0.
Definition cat1 (v : vector complex) (i : nat) : complex := nth i v c0.
Definition cat2 (a : matrix complex) (i j : nat) : complex := nth j (nth i a []) c0.
Definition cat3 (a : tensor3 complex) (i j k : nat) : complex :=
  nth k (nth j (nth i a []) []) c0.
Definition cat4 (a : tensor4 complex) (i j k l : nat) : complex :=
  nth l (nth k (nth j (nth i a []) []) []) c0.

(** An operation in place ([a *= b], [a[...] = b]) keeps the array's shape
    and replaces each entry by a function of its index and old value. *)
Definition inplace2 {A} (f : nat -> nat -> A -> A) (a : matrix A) : matrix A :=
  imap (fun i row => imap (f i) row) a.
Definition inplace3 {A} (f : nat -> nat -> nat -> A -> A) (a : tensor3 A) : tensor3 A :=
  imap (fun i s => inplace2 (f i) s) a.

(** [np.sum] and [np.mean] over a list of entries, summed left to right. *)
Definition rsum (l : list real) : real := fold_left radd l r0.
Definition csum (l : list complex) : complex := fold_left cadd l c0.
Definition rmean (l : list real) : real := (rsum l / of_nat (length l))%sc.
Definition cmean (l : list complex) : complex :=
  cdiv (csum l) (of_real (of_nat (length l))).

(** Column [j] of a matrix, [a[:, j]]. *)
Definition column (a : matrix real) (j : nat) : vector real :=
  map (fun row => nth j row r0) a.

(** [np.dot] of two real matrices; [k] is the length of the contracted
    axis. *)
Definition dot (a b : matrix real) : matrix real :=
  let k := length b in
  let m := length (hd [] b) in
  map (fun row => tabulate m (fun j =>
         rsum (tabulate k (fun l => (nth l row r0 * rat2 b l j)%sc)))) a.

(** [a.T] *)
Definition transpose (a : matrix real) : matrix real :=
  tabulate (length (hd [] a)) (fun j => column a j).

(** [np.eye(n, n)], with the dtype of [X]. *)
Definition eye (n : nat) : matrix complex :=
  tabulate2 n n (fun i j => if Nat.eqb i j then c1 else c0).

(** ** Library functions *)

(** What the routine calls but does not define: numpy's global random
    generator ([np.random.seed], [np.random.rand]; [random_seed] answers
    [None] where numpy rejects the seed), [np.linalg.solve] ([None] where it
    raises [LinAlgError]), [np.log], [np.linalg.slogdet(...)[1]] and
    [pyroomacoustics.bss.projection_back]. *)
Class Libraries : Type := {
  random_state : Type;
  random_seed : Z -> option random_state;
  random_sample : random_state -> real * random_state;
  linalg_solve : matrix complex -> vector complex -> option (vector complex);
  np_log : real -> real;
  linalg_slogdet : matrix complex -> real;
  projection_back : tensor3 complex -> matrix complex -> matrix complex
}.

Context {L : Libraries}.

(** ** Store, exceptions and the monad of the routine *)

Definition loc : Type := nat.

(** One call of the callback: the estimate it was given and, when present,
    the [extra] list [[W, G, R, X, U]]. *)
Record callback_call : Type := CallbackCall {
  cb_Y : tensor3 complex;
  cb_extra : option (tensor3 complex * matrix real * matrix real
                     * tensor3 complex * matrix real)
}.

(** The state a call can see or change: the complex arrays ([X], [W0], [W],
    [Y]) and the real arrays ([U], [P], [R_all], [G]) by location, the
    state of [np.random], the costs printed and the callback's calls. *)
Record heap : Type := Heap {
  complex_arrays : list (tensor3 complex);
  real_arrays : list (matrix real);
  np_random : random_state;
  stdout : list real;
  callback_log : list callback_call
}.

(** The array at a location, if there is one. *)
Definition array3 (h : heap) (l : loc) : option (tensor3 complex) :=
  complex_arrays h !! l.
Definition array2 (h : heap) (l : loc) : option (matrix real) :=
  real_arrays h !! l.

Inductive exception : Type := ValueError | LinAlgError.

Inductive result (A : Type) : Type :=
| Ok (a : A)
| Raise (e : exception).
Arguments Ok {A} a.
Arguments Raise {A} e.

(** A computation runs on a store and leaves a store, also when it
    raises. *)
Definition M (A : Type) : Type := heap -> result A * heap.

Definition ret {A} (a : A) : M A := fun h => (Ok a, h).
Definition raise {A} (e : exception) : M A := fun h => (Raise e, h).
Definition bind {A B} (m : M A) (k : A -> M B) : M B :=
  fun h => match m h with
           | (Ok a, h') => k a h'
           | (Raise e, h') => (Raise e, h')
           end.

#[local] Notation "m ;;; k" := (bind m (fun _ => k))
  (at level 100, k at level 200, right associativity).

Fixpoint for_each (l : list nat) (body : nat -> M unit) : M unit :=
  match l with
  | [] => ret tt
  | i :: l' => body i ;;; for_each l' body
  end.

(** [for i in range(n): body] *)
Definition for_range (n : nat) (body : nat -> M unit) : M unit :=
  for_each (seq 0 n) body.

Definition when (b : bool) (m : M unit) : M unit := if b then m else ret tt.

Definition alloc3 (v : tensor3 complex) : M loc := fun h =>
  (Ok (length (complex_arrays h)),
   Heap (complex_arrays h ++ [v]) (real_arrays h) (np_random h)
        (stdout h) (callback_log h)).

Definition load3 (l : loc) : M (tensor3 complex) := fun h =>
  (Ok (default [] (array3 h l)), h).

Definition store3 (l : loc) (v : tensor3 complex) : M unit := fun h =>
  (Ok tt,
   Heap (<[l := v]> (complex_arrays h)) (real_arrays h) (np_random h)
        (stdout h) (callback_log h)).

Definition alloc2 (v : matrix real) : M loc := fun h =>
  (Ok (length (real_arrays h)),
   Heap (complex_arrays h) (real_arrays h ++ [v]) (np_random h)
        (stdout h) (callback_log h)).

Definition load2 (l : loc) : M (matrix real) := fun h =>
  (Ok (default [] (array2 h l)), h).

Definition store2 (l : loc) (v : matrix real) : M unit := fun h =>
  (Ok tt,
   Heap (complex_arrays h) (<[l := v]> (real_arrays h)) (np_random h)
        (stdout h) (callback_log h)).

(** [np.random.get_state()] and [np.random.set_state(g)] *)
Definition get_state : M random_state := fun h => (Ok (np_random h), h).
Definition set_state (g : random_state) : M unit := fun h =>
  (Ok tt,
   Heap (complex_arrays h) (real_arrays h) g (stdout h) (callback_log h)).

(** [np.random.seed(seed)] *)
Definition seed_random (seed : Z) : M unit :=
  match random_seed seed with
  | Some g => set_state g
  | None => raise ValueError
  end.

Fixpoint draw (n : nat) (g : random_state) : list real * random_state :=
  match n with
  | O => ([], g)
  | Datatypes.S n' =>
      let (x, g1) := random_sample g in
      let (xs, g2) := draw n' g1 in
      (x :: xs, g2)
  end.

(** [np.random.rand(rows, cols)]: [rows * cols] draws, in row-major
    order. *)
Definition rand (rows cols : nat) : M (matrix real) := fun h =>
  let (xs, g) := draw (rows * cols) (np_random h) in
  (Ok (tabulate2 rows cols (fun i j => nth (i * cols + j) xs r0)),
   Heap (complex_arrays h) (real_arrays h) g (stdout h) (callback_log h)).

Definition print (c : real) : M unit := fun h =>
  (Ok tt,
   Heap (complex_arrays h) (real_arrays h) (np_random h)
        (stdout h ++ [c]) (callback_log h)).

Definition call_callback (c : callback_call) : M unit := fun h =>
  (Ok tt,
   Heap (complex_arrays h) (real_arrays h) (np_random h)
        (stdout h) (callback_log h ++ [c])).

End Generic.

Arguments Ok {A} a.
Arguments Raise {A} e.

Notation "x <- m ;; k" := (bind m (fun x => k))
  (at level 20, m at level 99, k at level 200, only parsing).
Notation "m ;;; k" := (bind m (fun _ => k))
  (at level 100, k at level 200, right associativity, only parsing).

(** ** The routine *)

Section Routine.

Context {S : Scalar} {L : Libraries}.

Definition map2d (f : real -> real) (a : matrix real) : matrix real :=
  map (map f) a.

(** An elementwise operation on two arrays of one shape. *)
Definition ew (f : real -> real -> real) (a b : matrix real) : matrix real :=
  zip_with (zip_with f) a b.

(** [x ** 2] *)
Definition sq (x : real) : real := (x * x)%sc.

(** [R = R_all[:,:n_src]] is a view: reading it reads the first [n_src]
    columns of [R_all], and an operation in place on it writes them. *)
Definition view_R (n_src : nat) (R_all : matrix real) : matrix real :=
  map (take n_src) R_all.

Definition inplace_R (n_src : nat) (f : nat -> nat -> real -> real)
    (R_all : matrix real) : matrix real :=
  inplace2 (fun n c x => if c <? n_src then f n c x else x) R_all.

(** [U_mean = U / n_freq / 2.] *)
Definition U_mean_of (n_freq : nat) (U : matrix real) : matrix real :=
  map2d (fun u => (u / of_nat n_freq / r2)%sc) U.

(** [R[:,:] = 0.1 + 0.9 * D] for the drawn matrix [D] *)
Definition init_R (n_src : nat) (D R_all : matrix real) : matrix real :=
  inplace_R n_src (fun n c _ => (lit_0_1 + lit_0_9 * rat2 D n c)%sc) R_all.

(** [R /= np.mean(R, axis=0, keepdims=True)] *)
Definition normalise_R (n_src : nat) (R_all : matrix real) : matrix real :=
  let R := view_R n_src R_all in
  inplace_R n_src (fun n c x => (x / rmean (column R c))%sc) R_all.

(** [G = 0.1 + 0.9 * D] *)
Definition init_G (D : matrix real) : matrix real :=
  map2d (fun d => (lit_0_1 + lit_0_9 * d)%sc) D.

(** [G *= np.sum(U_mean, axis=0, keepdims=True)
          / np.sum(U_hat, axis=0, keepdims=True)] *)
Definition scale_G (U_mean U_hat G : matrix real) : matrix real :=
  inplace2 (fun s b g =>
    (g * (rsum (column U_mean b) / rsum (column U_hat b)))%sc) G.

(** *** demix *)

(** The loop [for f in range(n_freq): Y[:,f,:] = np.dot(X[:,f,:],
    np.conj(W[f,:,:]))], for [X] of shape [(n_frames, n_freq, n_chan)] and
    [W] of shape [(n_freq, n_chan, n_chan)], as the routine has them and as
    the docstring asks of [W0].  For a [W] of another shape [np.dot] or the
    assignment raises; that is not modelled (an entry out of range reads as
    zero), and the statements about the demixing assume the shapes. *)
Definition demix_entry (n_chan : nat) (X W : tensor3 complex)
    (n f c : nat) : complex :=
  csum (tabulate n_chan (fun k => cmul (cat3 X n f k) (conj (cat3 W f k c)))).

Definition demix_Y (n_freq n_chan : nat) (X W Y : tensor3 complex)
    : tensor3 complex :=
  fold_left
    (fun Y f => inplace3 (fun n f' c y =>
                  if f' =? f then demix_entry n_chan X W n f c else y) Y)
    (seq 0 n_freq) Y.

(** [np.linalg.norm(Y, axis=1)]: the square root of the sum, over the
    frequencies, of the squared moduli. *)
Definition norm_freq (n_freq : nat) (Y : tensor3 complex) (n c : nat) : real :=
  rsqrt (rsum (tabulate n_freq (fun f => abs2 (cat3 Y n f c)))).

(** [P[:,:] = np.linalg.norm(Y, axis=1) ** 2 / n_freq] *)
Definition demix_P (n_freq : nat) (Y : tensor3 complex) (P : matrix real)
    : matrix real :=
  inplace2 (fun n c _ => (sq (norm_freq n_freq Y n c) / of_nat n_freq)%sc) P.

(** [R_all[:,n_src:] = P[:,n_src:]] *)
Definition demix_R_all (n_src : nat) (P R_all : matrix real) : matrix real :=
  inplace2 (fun n c x => if c <? n_src then x else rat2 P n c) R_all.

Definition demix (n_freq n_chan n_src : nat) (lY lX lW lP lR_all : loc)
    : M unit :=
  X <- load3 lX ;; W <- load3 lW ;; Y <- load3 lY ;;
  store3 lY (demix_Y n_freq n_chan X W Y) ;;;
  Y <- load3 lY ;; P <- load2 lP ;;
  store2 lP (demix_P n_freq Y P) ;;;
  P <- load2 lP ;; R_all <- load2 lR_all ;;
  store2 lR_all (demix_R_all n_src P R_all).

(** *** The factorization updates *)

(** Lines 141-147: the multiplicative update of the activations. *)
Definition R_update (n_src : nat) (sparse_reg : real)
    (U_mean P G R_all : matrix real) : matrix real :=
  let R := view_R n_src R_all in
  let U_hat := dot R G in
  let U_hat_I := map2d (fun u => (r1 / u)%sc) U_hat in
  let R_I := map2d (fun r => (r1 / r)%sc) R in
  let num := ew radd (ew rmul (view_R n_src P) (map2d sq R_I))
                     (dot (ew rmul U_mean (map2d sq U_hat_I)) (transpose G)) in
  let den := map2d (fun x => (x + sparse_reg)%sc)
                   (ew radd R_I (dot U_hat_I (transpose G))) in
  let factor := map2d rsqrt (ew rdiv num den) in
  inplace_R n_src (fun n c x => (x * rat2 factor n c)%sc) R_all.

(** [R[R < machine_epsilon] = machine_epsilon] *)
Definition floor_R (n_src : nat) (R_all : matrix real) : matrix real :=
  inplace_R n_src (fun _ _ x => if (x <? finfo_eps)%sc then finfo_eps else x)
            R_all.

(** Lines 151-153: the multiplicative update of the gains. *)
Definition G_update (n_src : nat) (U_mean R_all G : matrix real)
    : matrix real :=
  let R := view_R n_src R_all in
  let U_hat := dot R G in
  let U_hat_I := map2d (fun u => (r1 / u)%sc) U_hat in
  let factor :=
    map2d rsqrt (ew rdiv (dot (transpose R) (ew rmul U_mean (map2d sq U_hat_I)))
                         (dot (transpose R) U_hat_I)) in
  inplace2 (fun s b g => (g * rat2 factor s b)%sc) G.

(** [G[G < machine_epsilon] = machine_epsilon] *)
Definition floor_G (G : matrix real) : matrix real :=
  inplace2 (fun _ _ g => if (g <? finfo_eps)%sc then finfo_eps else g) G.

(** *** Rescaling *)

(** [lmb = 1. / np.mean(R_all, axis=0)] *)
Definition lmb_of (R_all : matrix real) : vector real :=
  tabulate (length (hd [] R_all)) (fun c => (r1 / rmean (column R_all c))%sc).

(** [A *= lmb[None,:]] *)
Definition scale_columns (lmb : vector real) (A : matrix real) : matrix real :=
  inplace2 (fun _ c x => (x * rat1 lmb c)%sc) A.

(** [W *= np.sqrt(lmb[None,None,:])] *)
Definition scale_W (lmb : vector real) (W : tensor3 complex)
    : tensor3 complex :=
  inplace3 (fun _ _ j w => cmul w (of_real (rsqrt (rat1 lmb j)))) W.

(** [G /= lmb[:n_src,None]] *)
Definition unscale_G (n_src : nat) (lmb : vector real) (G : matrix real)
    : matrix real :=
  inplace2 (fun s _ g => (g / rat1 (take n_src lmb) s)%sc) G.

(** The five lines that end every sub-iteration (157-161) and every epoch
    (191-195). *)
Definition rescale (n_src : nat) (lW lP lR_all lG : loc) : M unit :=
  R_all <- load2 lR_all ;;
  let lmb := lmb_of R_all in
  store2 lR_all (scale_columns lmb R_all) ;;;
  P <- load2 lP ;; store2 lP (scale_columns lmb P) ;;;
  W <- load3 lW ;; store3 lW (scale_W lmb W) ;;;
  G <- load2 lG ;; store2 lG (unscale_G n_src lmb G).

(** One pass of the loop over [sub_epoch]. *)
Definition sub_iteration (n_src : nat) (sparse_reg : real)
    (U_mean : matrix real) (lW lP lR_all lG : loc) : M unit :=
  R_all <- load2 lR_all ;; P <- load2 lP ;; G <- load2 lG ;;
  store2 lR_all (R_update n_src sparse_reg U_mean P G R_all) ;;;
  R_all <- load2 lR_all ;;
  store2 lR_all (floor_R n_src R_all) ;;;
  R_all <- load2 lR_all ;; G <- load2 lG ;;
  store2 lG (G_update n_src U_mean R_all G) ;;;
  G <- load2 lG ;;
  store2 lG (floor_G G) ;;;
  rescale n_src lW lP lR_all lG.

(** *** The auxiliary covariance *)

(** Lines 165-170: [V[f,s,i,j]] is the mean over the frames [n] of
    [X[n,f,i] / (1e-15 + 2 * R_all[n,s]) * conj(X[n,f,j])]. *)
Definition auxiliary (n_frames n_freq n_chan : nat) (X : tensor3 complex)
    (R_all : matrix real) : tensor4 complex :=
  let denom := map2d (fun r => (r2 * r)%sc) R_all in
  tabulate n_freq (fun f => tabulate n_chan (fun s =>
    tabulate2 n_chan n_chan (fun i j =>
      cmean (tabulate n_frames (fun n =>
        cmul (cdiv (cat3 X n f i) (of_real (lit_1e_15 + rat2 denom n s)%sc))
             (conj (cat3 X n f j))))))).

(** *** The demixing-matrix update *)

(** [np.max] of complex entries: the greatest in the lexicographic order,
    and a NaN when there is one. *)
Definition cnan (a : complex) : bool :=
  negb (reqb (re a) (re a)) || negb (reqb (im a) (im a)).

Definition cmax (l : list complex) : complex :=
  match l with
  | [] => c0
  | x :: l' => fold_left (fun m y => if cltb m y || cnan y then y else m) l' x
  end.

(** [I_up[f]]: [np.max(V[f,s,:,:]) > 1e-15] *)
Definition active (V : tensor4 complex) (s f : nat) : bool :=
  cltb (of_real lit_1e_15) (cmax (concat (nth s (nth f V []) []))).

(** [np.conj(np.swapaxes(W, 1, 2))[f]] *)
Definition hermitian (n_chan : nat) (Wf : matrix complex) : matrix complex :=
  tabulate2 n_chan n_chan (fun i j => conj (cat2 Wf j i)).

(** [np.matmul] of two square matrices of order [n_chan] *)
Definition matmul (n_chan : nat) (a b : matrix complex) : matrix complex :=
  tabulate2 n_chan n_chan (fun i j =>
    csum (tabulate n_chan (fun k => cmul (cat2 a i k) (cat2 b k j)))).

(** [I[:,s]], a row of [rhs] *)
Definition basis (n_chan s : nat) : vector complex :=
  tabulate n_chan (fun i => if i =? s then c1 else c0).

(** [WV[f]] for an active frequency [f] *)
Definition WV_of (n_chan : nat) (V : tensor4 complex) (W : tensor3 complex)
    (s f : nat) : matrix complex :=
  matmul n_chan (hermitian n_chan (nth f W [])) (nth s (nth f V []) []).

(** [np.linalg.solve(WV, rhs)] over the stack of the active frequencies:
    the answer holds, for every frequency, the solution when the frequency
    is active; it is [None] when one of the systems is singular. *)
Fixpoint solve_each (n_chan : nat) (V : tensor4 complex) (W : tensor3 complex)
    (s : nat) (fs : list nat) : option (list (option (vector complex))) :=
  match fs with
  | [] => Some []
  | f :: fs' =>
      if active V s f then
        match linalg_solve (WV_of n_chan V W s f) (basis n_chan s) with
        | Some w =>
            match solve_each n_chan V W s fs' with
            | Some r => Some (Some w :: r)
            | None => None
            end
        | None => None
        end
      else
        match solve_each n_chan V W s fs' with
        | Some r => Some (None :: r)
        | None => None
        end
  end.

(** [W[I_up,:,s] = ...] *)
Definition assign_column (s : nat) (sols : list (option (vector complex)))
    (W : tensor3 complex) : tensor3 complex :=
  inplace3 (fun f i j w =>
    if j =? s then
      match nth f sols None with
      | Some v => cat1 v i
      | None => w
      end
    else w) W.

(** [np.sum(P1 * P2, axis=1)[f]] with [P1 = np.conj(W[f,:,s])] and
    [P2 = np.sum(V[f,s,:,:] * W[f,None,:,s], axis=-1)] *)
Definition quadratic_form (n_chan : nat) (Vfs : matrix complex)
    (w : nat -> complex) : complex :=
  csum (tabulate n_chan (fun i =>
    cmul (conj (w i))
         (csum (tabulate n_chan (fun j => cmul (cat2 Vfs i j) (w j)))))).

(** [W[I_up,:,s] /= np.sqrt(np.sum(P1 * P2, axis=1))[:,None]] *)
Definition normalise_column (n_chan : nat) (V : tensor4 complex) (s : nat)
    (W : tensor3 complex) : tensor3 complex :=
  inplace3 (fun f i j w =>
    if (j =? s) && active V s f then
      cdiv w (csqrt (quadratic_form n_chan (nth s (nth f V []) [])
                                    (fun k => cat3 W f k s)))
    else w) W.

(** The body of the loop over [s] (lines 177-186). *)
Definition update_column (n_freq n_chan : nat) (V : tensor4 complex)
    (lW : loc) (s : nat) : M unit :=
  W <- load3 lW ;;
  match solve_each n_chan V W s (seq 0 n_freq) with
  | None => raise LinAlgError
  | Some sols =>
      store3 lW (assign_column s sols W) ;;;
      W <- load3 lW ;;
      store3 lW (normalise_column n_chan V s W)
  end.

Definition update_W (n_freq n_chan : nat) (V : tensor4 complex) (lW : loc)
    : M unit :=
  for_range n_chan (update_column n_freq n_chan V lW).

(** *** Cost *)

Definition cost_nmf (U G R : matrix real) : real :=
  let U_hat := dot R G in
  rsum (concat (ew radd (map2d np_log U_hat)
                        (map2d (fun x => (x / r2)%sc) (ew rdiv U U_hat)))).

Definition cost_iva (n_frames n_freq n_chan : nat) (Y W : tensor3 complex)
    (R : matrix real) : real :=
  let pwr := tabulate2 n_frames n_chan (fun n c => sq (norm_freq n_freq Y n c)) in
  let cf := (- of_nat (2 * n_frames) * rsum (map linalg_slogdet W))%sc in
  (cf + rsum (concat (ew radd (map2d (fun r => (of_nat n_freq * np_log r)%sc) R)
                              (ew rdiv pwr R))))%sc.

(** *** Projection back *)

(** [X[:,:,0]] *)
Definition reference (X : tensor3 complex) : matrix complex :=
  map (map (fun x => nth 0 x c0)) X.

(** [Y * np.conj(z[None,:,:])] *)
Definition apply_scale (z : matrix complex) (Y : tensor3 complex)
    : tensor3 complex :=
  inplace3 (fun _ f c y => cmul y (conj (cat2 z f c))) Y.

(** *** One epoch *)

Definition report_callback (n_src : nat) (proj_back : bool)
    (lX lU lW lY lR_all lG : loc) : M unit :=
  Y <- load3 lY ;; X <- load3 lX ;;
  if proj_back then
    let z := projection_back Y (reference X) in
    call_callback (CallbackCall (apply_scale z Y) None)
  else
    W <- load3 lW ;; G <- load2 lG ;; R_all <- load2 lR_all ;;
    U <- load2 lU ;;
    call_callback (CallbackCall Y (Some (W, G, view_R n_src R_all, X, U))).

Definition report_cost (n_frames n_freq n_chan n_src : nat)
    (lU lW lY lR_all lG : loc) : M unit :=
  U <- load2 lU ;; G <- load2 lG ;; R_all <- load2 lR_all ;;
  Y <- load3 lY ;; W <- load3 lW ;;
  print (cost_nmf U G (view_R n_src R_all)
         + cost_iva n_frames n_freq n_chan Y W R_all)%sc.

Definition epoch_body (n_frames n_freq n_chan n_src : nat) (sparse_reg : real)
    (n_nmf_sub_iter : nat) (proj_back print_cost callback : bool)
    (U_mean : matrix real) (lX lU lW lY lP lR_all lG : loc) (epoch : nat)
    : M unit :=
  when (callback && (epoch mod 10 =? 0))
       (report_callback n_src proj_back lX lU lW lY lR_all lG) ;;;
  when (print_cost && (epoch mod 10 =? 0))
       (report_cost n_frames n_freq n_chan n_src lU lW lY lR_all lG) ;;;
  for_range n_nmf_sub_iter (fun _ =>
    sub_iteration n_src sparse_reg U_mean lW lP lR_all lG) ;;;
  X <- load3 lX ;; R_all <- load2 lR_all ;;
  let V := auxiliary n_frames n_freq n_chan X R_all in
  update_W n_freq n_chan V lW ;;;
  demix n_freq n_chan n_src lY lX lW lP lR_all ;;;
  rescale n_src lW lP lR_all lG.

(** *** blinkiva_gauss *)

(** The arguments of a call; an array argument is the location of the
    caller's array.  [n_src] is [None] or a natural number: Python also
    accepts a negative [n_src], for which [np.random.rand] raises
    [ValueError] at line 87; such calls are not modelled, and the statements
    about [n_src] are about numbers of sources that are not negative. *)
Record arguments : Type := Args {
  arg_X : loc;
  arg_U : loc;
  arg_n_src : option nat;
  arg_sparse_reg : real;
  arg_n_iter : nat;
  arg_n_nmf_sub_iter : nat;
  arg_proj_back : bool;
  arg_W0 : option loc;
  arg_seed : option Z;
  arg_print_cost : bool;
  arg_return_filters : bool;
  arg_callback : bool
}.

(** What a call returns: [Y], or [Y, W, G, R_all]. *)
Inductive returned : Type :=
| ReturnY (Y : loc)
| ReturnFilters (Y W G R_all : loc).

(** Lines 83-94: the random initialisation of [R] and [G].  The assignment
    [R[:,:] = ...] raises [ValueError] when the drawn matrix has more
    columns than the view, that is when [n_src] exceeds [n_chan]. *)
Definition initialise (n_frames n_chan n_src n_blink : nat)
    (seed : option Z) (U_mean : matrix real) (lR_all : loc) : M loc :=
  rng_state <- match seed with
               | Some s => g <- get_state ;; seed_random s ;;; ret (Some g)
               | None => ret None
               end ;;
  D <- rand n_frames n_src ;;
  (if n_chan <? n_src then raise ValueError else ret tt) ;;;
  R_all <- load2 lR_all ;;
  store2 lR_all (init_R n_src D R_all) ;;;
  R_all <- load2 lR_all ;;
  store2 lR_all (normalise_R n_src R_all) ;;;
  D <- rand n_src n_blink ;;
  lG <- alloc2 (init_G D) ;;
  R_all <- load2 lR_all ;; G <- load2 lG ;;
  let U_hat := dot (view_R n_src R_all) G in
  store2 lG (scale_G U_mean U_hat G) ;;;
  match rng_state with Some g => set_state g | None => ret tt end ;;;
  ret lG.

(** The sizes and the arrays of one call. *)
Record workspace : Type := Workspace {
  n_frames : nat;
  n_freq : nat;
  n_chan : nat;
  n_src : nat;
  U_mean : matrix real;
  var_W : loc;
  var_Y : loc;
  var_P : loc;
  var_R_all : loc;
  var_G : loc
}.

(** Lines 48-120: validation, allocation, initialisation and the initial
    demixing.  ([V = np.zeros(...)] of line 72 is rebound before it is read
    and is left out.) *)
Definition setup (a : arguments) : M workspace :=
  X <- load3 (arg_X a) ;;
  let '(n_frames, n_freq, n_chan) := shape3 X in
  U <- load2 (arg_U a) ;;
  let '(u_frames, n_blink) := shape2 U in
  if negb (u_frames =? n_frames) then raise ValueError else
  let n_src := default n_chan (arg_n_src a) in
  lW <- match arg_W0 a with
        | None => alloc3 (repeat (eye n_chan) n_freq)
        | Some lW0 => W0 <- load3 lW0 ;; alloc3 W0
        end ;;
  let U_mean := U_mean_of n_freq U in
  lY <- alloc3 (repeat (repeat (repeat c0 n_chan) n_freq) n_frames) ;;
  lP <- alloc2 (repeat (repeat r0 n_chan) n_frames) ;;
  lR_all <- alloc2 (repeat (repeat r1 n_chan) n_frames) ;;
  lG <- initialise n_frames n_chan n_src n_blink (arg_seed a) U_mean lR_all ;;
  demix n_freq n_chan n_src lY (arg_X a) lW lP lR_all ;;;
  ret (Workspace n_frames n_freq n_chan n_src U_mean lW lY lP lR_all lG).

(** One pass of the loop over [epoch] (lines 127-195). *)
Definition epoch (a : arguments) (w : workspace) (e : nat) : M unit :=
  epoch_body (n_frames w) (n_freq w) (n_chan w) (n_src w) (arg_sparse_reg a)
    (arg_n_nmf_sub_iter a) (arg_proj_back a) (arg_print_cost a)
    (arg_callback a) (U_mean w) (arg_X a) (arg_U a)
    (var_W w) (var_Y w) (var_P w) (var_R_all w) (var_G w) e.

(** Lines 197-204. *)
Definition finish (a : arguments) (w : workspace) : M returned :=
  when (arg_proj_back a)
       (Y <- load3 (var_Y w) ;; X <- load3 (arg_X a) ;;
        store3 (var_Y w) (apply_scale (projection_back Y (reference X)) Y)) ;;;
  ret (if arg_return_filters a
       then ReturnFilters (var_Y w) (var_W w) (var_G w) (var_R_all w)
       else ReturnY (var_Y w)).

Definition blinkiva_gauss (a : arguments) : M returned :=
  w <- setup a ;;
  for_range (arg_n_iter a) (epoch a w) ;;;
  finish a w.

End Routine.

(** ** The two instances *)

(** *** Exact arithmetic *)

(** The real numbers, for statements "in exact arithmetic" only.  Division
    by zero gives [0] and the square root of a negative number is [0], where
    float64 gives an infinity or NaN; a statement on [exact] says nothing
    about such cases of the Python code. *)
Definition exact : Scalar := {|
  real := R;
  of_nat := INR;
  radd := Rplus;
  rsub := Rminus;
  rmul := Rmult;
  rdiv := Rdiv;
  ropp := Ropp;
  rsqrt := R_sqrt.sqrt;
  rltb := fun x y => if Rlt_dec x y then true else false;
  reqb := fun x y => if Req_dec_T x y then true else false;
  lit_0_1 := (1 / 10)%R;
  lit_0_9 := (9 / 10)%R;
  lit_1e_15 := (1 / 10 ^ 15)%R;
  finfo_eps := (1 / 2 ^ 52)%R
|}.

(** *** IEEE 754 binary64 *)

Definition float_of_nat (n : nat) : float :=
  PrimFloat.of_uint63 (Uint63.of_Z (Z.of_nat n)).

Definition binary64 : Scalar := {|
  real := float;
  of_nat := float_of_nat;
  radd := PrimFloat.add;
  rsub := PrimFloat.sub;
  rmul := PrimFloat.mul;
  rdiv := PrimFloat.div;
  ropp := PrimFloat.opp;
  rsqrt := PrimFloat.sqrt;
  rltb := PrimFloat.ltb;
  reqb := PrimFloat.eqb;
  lit_0_1 := 0.1%float;
  lit_0_9 := 0.9%float;
  lit_1e_15 := 1e-15%float;
  finfo_eps := 0x1p-52%float
|}.

(** ** A small library instance *)

(** An instance of [Libraries] that evaluates, for the runs on concrete
    inputs: a 12-bit linear congruential generator in the place of numpy's
    Mersenne twister, Cramer's rule for the systems of order one and two,
    and the scale factors of [projection_back] as pyroomacoustics computes
    them.  The logarithm is a parameter.

    Cramer's rule answers [None] (numpy: [LinAlgError]) exactly when the
    determinant it computes is zero, and for every system of order above
    two; LAPACK, which numpy calls, pivots, rounds otherwise, and returns an
    answer for systems that are singular only numerically.  No general
    statement below depends on this instance: they are made for every
    [linalg_solve]. *)
Section SmallLibraries.

Context {S : Scalar}.

Definition lcg_next (g : Z) : Z := ((1229 * g + 1) mod 4096)%Z.

Definition lcg_seed (seed : Z) : option Z :=
  if ((0 <=? seed) && (seed <? 2 ^ 32))%Z then Some (seed mod 4096)%Z
  else None.

Definition lcg_sample (g : Z) : real * Z :=
  let g' := lcg_next g in
  ((of_nat (Z.to_nat g') / of_nat 4096)%sc, g').

Definition csub (a b : complex) : complex :=
  Cx (re a - re b)%sc (im a - im b)%sc.

Definition is_zero (a : complex) : bool :=
  reqb (re a) r0 && reqb (im a) r0.

Definition det_small (A : matrix complex) : complex :=
  match A with
  | [[a]] => a
  | [[a11; a12]; [a21; a22]] => csub (cmul a11 a22) (cmul a12 a21)
  | _ => c0
  end.

Definition cramer_solve (A : matrix complex) (b : vector complex)
    : option (vector complex) :=
  match A, b with
  | [[a]], [b1] => if is_zero a then None else Some [cdiv b1 a]
  | [[a11; a12]; [a21; a22]], [b1; b2] =>
      let d := det_small A in
      if is_zero d then None
      else Some [cdiv (csub (cmul b1 a22) (cmul a12 b2)) d;
                 cdiv (csub (cmul a11 b2) (cmul b1 a21)) d]
  | _, _ => None
  end.

Definition projection_scale (Y : tensor3 complex) (ref : matrix complex)
    : matrix complex :=
  let n_frames := length Y in
  let n_freq := length (hd [] Y) in
  let n_chan := length (hd [] (hd [] Y)) in
  tabulate2 n_freq n_chan (fun f c =>
    let num := csum (tabulate n_frames (fun n =>
                 cmul (conj (cat2 ref n f)) (cat3 Y n f c))) in
    let denom := rsum (tabulate n_frames (fun n =>
                   let m := rsqrt (abs2 (cat3 Y n f c)) in (m * m)%sc)) in
    if (r0 <? denom)%sc then cdiv num (of_real denom) else c1).

Definition small_libraries (log : real -> real) : Libraries := {|
  random_state := Z;
  random_seed := lcg_seed;
  random_sample := lcg_sample;
  linalg_solve := cramer_solve;
  np_log := log;
  linalg_slogdet := fun A =>
    log (rsqrt (abs2 (det_small A)));
  projection_back := projection_scale
|}.

End SmallLibraries.

(** The library on binary64.  The logarithm is left undefined (NaN): the
    one run below that prints the cost only counts what is printed. *)
Definition float_libraries : @Libraries binary64 :=
  @small_libraries binary64 (fun _ => PrimFloat.nan).

(** The library on the real numbers. *)
Definition real_libraries : @Libraries exact :=
  @small_libraries exact ln.

(** * Vocabulary of the statements *)

Section Vocabulary.

Context {S : Scalar} {L : Libraries}.

(** [hoare P m Q E]: started in a store satisfying [P], the computation
    [m] either returns [a] in a store satisfying [Q a], or raises in a store
    satisfying [E]. *)
Definition hoare {A} (P : heap -> Prop) (m : M A) (Q : A -> heap -> Prop)
    (E : heap -> Prop) : Prop :=
  forall h, P h ->
    match m h with
    | (Ok a, h') => Q a h'
    | (Raise _, h') => E h'
    end.

(** [frame h0 h]: the store [h] holds every array of [h0], unchanged, at
    its location. *)
Definition frame (h0 h : heap) : Prop :=
  length (complex_arrays h0) <= length (complex_arrays h) /\
  length (real_arrays h0) <= length (real_arrays h) /\
  (forall l, l < length (complex_arrays h0) -> array3 h l = array3 h0 l) /\
  (forall l, l < length (real_arrays h0) -> array2 h l = array2 h0 l).

(** A location allocated after [h0]. *)
Definition fresh3 (h0 : heap) (l : loc) : Prop :=
  length (complex_arrays h0) <= l.
Definition fresh2 (h0 : heap) (l : loc) : Prop :=
  length (real_arrays h0) <= l.

(** [keeps h0 m]: [m] leaves the arrays of [h0] alone, whether it returns
    or raises. *)
Definition keeps {A} (h0 : heap) (m : M A) : Prop :=
  hoare (frame h0) m (fun _ => frame h0) (frame h0).

(** The arrays of the workspace are allocated by the call. *)
Definition workspace_fresh (h0 : heap) (w : workspace) : Prop :=
  fresh3 h0 (var_W w) /\ fresh3 h0 (var_Y w) /\
  fresh2 h0 (var_P w) /\ fresh2 h0 (var_R_all w) /\ fresh2 h0 (var_G w).

(** [quiet m]: [m] leaves the state of [np.random] as it finds it, whether
    it returns or raises. *)
Definition rng_is (g : random_state) (h : heap) : Prop := np_random h = g.

Definition quiet {A} (m : M A) : Prop :=
  forall g, hoare (rng_is g) m (fun _ => rng_is g) (rng_is g).

(** The number of channels of the array at [l], [X.shape[2]]. *)
Definition channels_at (h : heap) (l : loc) : nat :=
  snd (shape3 (default [] (array3 h l))).

(** The routine up to the end of the first pass of the loop over
    [sub_epoch] in the first epoch (for a call without callback and without
    cost report, which come before it). *)
Definition first_sub_iteration (a : arguments) : M workspace :=
  w <- setup a ;;
  sub_iteration (n_src w) (arg_sparse_reg a) (U_mean w)
    (var_W w) (var_P w) (var_R_all w) (var_G w) ;;;
  ret w.

(** The product of a square matrix of order [n] and a vector. *)
Definition mat_vec (n : nat) (A : matrix complex) (w : vector complex)
    : vector complex :=
  tabulate n (fun i =>
    csum (tabulate n (fun k => cmul (cat2 A i k) (cat1 w k)))).

(** [W[f]^H V[f,s]], the matrix of the system that the update of column
    [s] solves at frequency [f]; the unit vector [e_s]; and the quadratic
    form [w^H v w]. *)
Definition system_matrix (n : nat) (W : tensor3 complex) (V : tensor4 complex)
    (f s : nat) : matrix complex :=
  tabulate2 n n (fun i j =>
    csum (tabulate n (fun k => cmul (conj (cat3 W f k i)) (cat4 V f s k j)))).

Definition unit_vector (n s : nat) : vector complex :=
  tabulate n (fun i => if i =? s then c1 else c0).

Definition hermitian_form (n : nat) (v : nat -> nat -> complex)
    (w : nat -> complex) : complex :=
  csum (tabulate n (fun i =>
    cmul (conj (w i)) (csum (tabulate n (fun j => cmul (v i j) (w j)))))).

(** The answer of [np.linalg.solve] for frequency [f] in the update of
    column [s]: the solution of [WV[f] w = I[:,s]] when [f] is active. *)
Definition solution (n_chan : nat) (V : tensor4 complex) (W : tensor3 complex)
    (s f : nat) : option (vector complex) :=
  if active V s f
  then linalg_solve (WV_of n_chan V W s f) (basis n_chan s)
  else None.

(** The mean over [N] frames of [x n i * t n * conj (x n j)]: an entry of
    the auxiliary covariance, for the weights [t n]. *)
Definition covariance_entry (N : nat) (x : nat -> nat -> complex)
    (t : nat -> real) (i j : nat) : complex :=
  cmul (csum (tabulate N (fun n =>
          cmul (cmul (x n i) (of_real (t n))) (conj (x n j)))))
       (of_real (r1 / of_nat N)%sc).

(** [x[n]^H w], the correlation of frame [n] with the vector [w]. *)
Definition correlation (n_chan : nat) (x : nat -> nat -> complex)
    (w : nat -> complex) (n : nat) : complex :=
  csum (tabulate n_chan (fun j => cmul (conj (x n j)) (w j))).

(** [same_shapes h h']: every array of [h] is in [h'], at its location and
    with its shape, whatever its entries. *)
Definition same_shapes (h h' : heap) : Prop :=
  (forall l v n m k, array3 h l = Some v -> has_shape3 v n m k ->
     exists v', array3 h' l = Some v' /\ has_shape3 v' n m k) /\
  (forall l v n m, array2 h l = Some v -> has_shape2 v n m ->
     exists v', array2 h' l = Some v' /\ has_shape2 v' n m).

(** [shaping m]: [m] keeps the shape of every array of the store, whether
    it returns or raises. *)
Definition shaping {A} (m : M A) : Prop :=
  forall h, same_shapes h (snd (m h)).


(** [same_output h h']: nothing was printed and the callback was not called
    between [h] and [h']. *)
Definition same_output (h h' : heap) : Prop :=
  stdout h' = stdout h /\ callback_log h' = callback_log h.

(** [silent m]: [m] neither prints nor calls the callback. *)
Definition silent {A} (m : M A) : Prop :=
  forall h, same_output h (snd (m h)).

End Vocabulary.

(** * Concrete calls *)

(** The inputs of the runs below, on binary64 with [float_libraries].  The
    caller's store holds [X] at location 0 of the complex arrays and [U] at
    location 0 of the real arrays; the state of [np.random] is 12345. *)

Definition fheap : Type := @heap binary64 float_libraries.
Definition fargs : Type := @arguments binary64.
Definition fcomplex : Type := @complex binary64.

Definition fc (x y : float) : fcomplex := @Cx binary64 x y.

(** The defaults of the signature, for [X] and [U] at location 0. *)
Definition default_args : fargs :=
  @Args binary64 0 0 None 0%float 20 4 true None None false false false.

Definition with_n_src (n : nat) (a : fargs) : fargs :=
  @Args binary64 (arg_X a) (arg_U a) (Some n) (arg_sparse_reg a)
    (arg_n_iter a) (arg_n_nmf_sub_iter a) (arg_proj_back a) (arg_W0 a)
    (arg_seed a) (arg_print_cost a) (arg_return_filters a) (arg_callback a).

Definition with_seed (s : Z) (a : fargs) : fargs :=
  @Args binary64 (arg_X a) (arg_U a) (arg_n_src a) (arg_sparse_reg a)
    (arg_n_iter a) (arg_n_nmf_sub_iter a) (arg_proj_back a) (arg_W0 a)
    (Some s) (arg_print_cost a) (arg_return_filters a) (arg_callback a).

Definition with_W0 (l : loc) (a : fargs) : fargs :=
  @Args binary64 (arg_X a) (arg_U a) (arg_n_src a) (arg_sparse_reg a)
    (arg_n_iter a) (arg_n_nmf_sub_iter a) (arg_proj_back a) (Some l)
    (arg_seed a) (arg_print_cost a) (arg_return_filters a) (arg_callback a).

Definition with_filters (a : fargs) : fargs :=
  @Args binary64 (arg_X a) (arg_U a) (arg_n_src a) (arg_sparse_reg a)
    (arg_n_iter a) (arg_n_nmf_sub_iter a) (arg_proj_back a) (arg_W0 a)
    (arg_seed a) (arg_print_cost a) true (arg_callback a).

(** Two frames, one frequency, two channels; one sensor. *)
Definition X_2_1_2 : tensor3 fcomplex :=
  [ [ [fc 1 0; fc 0.5 0.25] ];
    [ [fc 0.25 (-0.5); fc 1 1] ] ]%float.

Definition U_2_1 : matrix float := [ [1]; [2] ]%float.
Definition U_3_1 : matrix float := [ [1]; [2]; [3] ]%float.

(** A caller-supplied demixing matrix, of shape (1, 2, 2). *)
Definition W0_1_2_2 : tensor3 fcomplex :=
  [ [ [fc 1 0; fc 0 0.5]; [fc 0 0; fc 2 0] ] ]%float.

Definition heap_2_1_2 : fheap :=
  @Heap binary64 float_libraries [X_2_1_2; W0_1_2_2] [U_2_1] 12345%Z [] [].

(** The same signal with a sensor matrix of three frames. *)
Definition heap_mismatch : fheap :=
  @Heap binary64 float_libraries [X_2_1_2; W0_1_2_2] [U_3_1] 12345%Z [] [].

(** More sources asked for than the signal has channels, with a seed. *)
Definition args_three_sources : fargs :=
  with_seed 0 (with_n_src 3 default_args).

(** A store as the routine has it when it calls the demixer: [X] and [W]
    (here the caller's [W0_1_2_2]) at locations 0 and 1, [Y] at location 2
    of the complex arrays; [U], [P] and [R_all] at locations 0, 1 and 2 of the
    real arrays. *)
Definition Y_zeros_2_1_2 : tensor3 fcomplex :=
  repeat (repeat (repeat (@c0 binary64) 2) 1) 2.

Definition heap_demix : fheap :=
  @Heap binary64 float_libraries
    [X_2_1_2; W0_1_2_2; Y_zeros_2_1_2]
    [U_2_1; [ [0; 0]; [0; 0] ]%float; [ [1; 1]; [1; 1] ]%float]
    12345%Z [] [].

(** A signal whose second channel is silent in every frame, to be separated
    into one source. *)
Definition X_silent_channel : tensor3 fcomplex :=
  [ [ [fc 1 0; fc 0 0] ];
    [ [fc 0.5 0.25; fc 0 0] ] ]%float.

Definition heap_silent_channel : fheap :=
  @Heap binary64 float_libraries [X_silent_channel] [U_2_1] 12345%Z [] [].

Definition args_one_source : fargs :=
  with_filters (with_seed 0 (with_n_src 1 default_args)).

(** A store on the real numbers as the routine has it when it rescales:
    [W] at location 0 of the complex arrays; [P], [R_all] and [G] at
    locations 0, 1 and 2 of the real arrays. *)
Definition rheap : Type := @heap exact real_libraries.

Definition W_real_1_2_2 : tensor3 (@complex exact) :=
  [ [ [@Cx exact 1 0; @Cx exact 0 0]; [@Cx exact 0 0; @Cx exact 1 0] ] ]%R.

Definition P_real_2_2 : matrix R := [ [1; 2]; [3; 4] ]%R.
Definition R_all_real_2_2 : matrix R := [ [1; 3]; [3; 1] ]%R.
Definition G_real_2_1 : matrix R := [ [1]; [2] ]%R.

Definition heap_rescale : rheap :=
  @Heap exact real_libraries [W_real_1_2_2]
    [P_real_2_2; R_all_real_2_2; G_real_2_1] 0%Z [] [].

Definition U_mean_real_2_1 : matrix R := [ [1]; [2] ]%R.

(** A store on binary64 as the routine has it when it updates the demixing
    matrix of a one-channel signal: [W = [[[i]]]] at location 0. *)
Definition W_float_i : tensor3 fcomplex := [ [ [fc 0 1] ] ]%float.
Definition V_float_one : tensor4 fcomplex := [ [ [ [fc 1 0] ] ] ]%float.

Definition heap_solver_float : fheap :=
  @Heap binary64 float_libraries [W_float_i] [] 12345%Z [] [].

(** A signal on the real numbers: two frames, one frequency, two channels;
    and a call on it that makes no iteration and does not project back. *)
Definition X_real_2_1_2 : tensor3 (@complex exact) :=
  [ [ [@Cx exact 1 0; @Cx exact 0 1] ];
    [ [@Cx exact 2 1; @Cx exact 1 (-1)] ] ]%R.

Definition U_real_2_1 : matrix R := [ [1]; [2] ]%R.

Definition heap_real_2_1_2 : rheap :=
  @Heap exact real_libraries [X_real_2_1_2] [U_real_2_1] 0%Z [] [].

Definition args_no_iteration : @arguments exact :=
  @Args exact 0 0 None 0%R 0 4 false None None false false false.

(** The location of the separated signal in what a call returns. *)
Definition separated (r : returned) : loc :=
  match r with
  | ReturnY Y => Y
  | ReturnFilters Y _ _ _ => Y
  end.

(** A call on binary64 with the initial matrix at location 1, no iteration
    and no projection back. *)
Definition args_W0_no_iteration : fargs :=
  @Args binary64 0 0 None 0%float 0 4 false (Some 1) None false false false.

(** A call of 21 epochs that prints the cost and has a callback. *)
Definition args_reporting : fargs :=
  @Args binary64 0 0 None 0%float 21 4 true None (Some 0%Z) true false true.

(** The workspace of a call on [heap_demix]: [W] and [Y] at locations 1 and
    2, [P], [R_all] and [G] at locations 1, 2 and 0. *)
Definition workspace_demix : @workspace binary64 :=
  @Workspace binary64 2 1 2 2 [ [0.5]; [1] ]%float 1 2 1 2 0.

(** A sensor matrix whose second sensor reads zero in every frame, and a
    call with seed 0 that returns the filters. *)
Definition U_dead_sensor : matrix float := [ [1; 0]; [2; 0] ]%float.

Definition heap_dead_sensor : fheap :=
  @Heap binary64 float_libraries [X_2_1_2; W0_1_2_2] [U_dead_sensor]
    12345%Z [] [].

Definition args_all_sources : fargs := with_filters (with_seed 0 default_args).






(** An auxiliary variable for one frequency and two sources. *)
Definition V_float_1_2_2_2 : tensor4 fcomplex :=
  [ [ [ [fc 2 0; fc 0 1]; [fc 0 (-1); fc 1 0] ];
      [ [fc 1 0; fc 0 0]; [fc 0 0; fc 3 0] ] ] ]%float.

(** The identity as demixing matrix, on the real numbers. *)
Definition heap_identity_real : rheap :=
  @Heap exact real_libraries [W_real_1_2_2] [] 0%Z [] [].

(** A store as [heap_demix], with a separated signal that is not zero. *)
Definition Y_2_1_2 : tensor3 fcomplex :=
  [ [ [fc 1 1; fc 2 0] ];
    [ [fc 0 (-1); fc 0.5 0.5] ] ]%float.

Definition heap_finish : fheap :=
  @Heap binary64 float_libraries
    [X_2_1_2; W0_1_2_2; Y_2_1_2]
    [U_2_1; [ [0; 0]; [0; 0] ]%float; [ [1; 1]; [1; 1] ]%float]
    12345%Z [] [].

(** A store on binary64 as the routine has it when it rescales: [W] at
    location 1 of the complex arrays; [G], [P] and [R_all] at locations 0,
    1 and 2 of the real arrays. *)
Definition P_2_2 : matrix float := [ [1; 2]; [3; 4] ]%float.
Definition R_all_2_2 : matrix float := [ [1; 3]; [3; 1] ]%float.
Definition heap_rescale_float : fheap :=
  @Heap binary64 float_libraries [X_2_1_2; W0_1_2_2]
    [U_2_1; P_2_2; R_all_2_2] 12345%Z [] [].

(** * Properties *)

(** ** Reasoning about computations *)

Section Hoare.

Context {S : Scalar} {L : Libraries}.

Lemma hoare_ret {A} (P : heap -> Prop) (a : A) (Q : A -> heap -> Prop) E :
  (forall h, P h -> Q a h) -> hoare P (ret a) Q E.
Proof. intros H h Hh. simpl. auto. Qed.

Lemma hoare_raise {A} (P : heap -> Prop) e (Q : A -> heap -> Prop)
    (E : heap -> Prop) :
  (forall h, P h -> E h) -> hoare P (raise e) Q E.
Proof. intros H h Hh. simpl. auto. Qed.

Lemma hoare_bind {A B} (P : heap -> Prop) (m : M A) (k : A -> M B)
    (Q' : A -> heap -> Prop) (Q : B -> heap -> Prop) (E : heap -> Prop) :
  hoare P m Q' E ->
  (forall a, hoare (Q' a) (k a) Q E) ->
  hoare P (bind m k) Q E.
Proof.
  intros Hm Hk h Hh. unfold bind. specialize (Hm h Hh).
  destruct (m h) as [[a | e] h']; [ apply Hk, Hm | exact Hm ].
Qed.

Lemma hoare_weaken {A} (P P' : heap -> Prop) (m : M A)
    (Q Q' : A -> heap -> Prop) (E E' : heap -> Prop) :
  hoare P' m Q' E' ->
  (forall h, P h -> P' h) ->
  (forall a h, Q' a h -> Q a h) ->
  (forall h, E' h -> E h) ->
  hoare P m Q E.
Proof.
  intros Hm HP HQ HE h Hh. specialize (Hm h (HP h Hh)).
  destruct (m h) as [[a | e] h']; auto.
Qed.

Lemma hoare_for_each (I : heap -> Prop) (E : heap -> Prop) (l : list nat)
    (body : nat -> M unit) :
  (forall i, In i l -> hoare I (body i) (fun _ => I) E) ->
  hoare I (for_each l body) (fun _ => I) E.
Proof.
  induction l as [| i l IH]; intros Hb.
  - apply hoare_ret. auto.
  - simpl. eapply hoare_bind.
    + apply Hb. now left.
    + intros u. apply IH. intros j Hj. apply Hb. now right.
Qed.

Lemma hoare_for_range (I : heap -> Prop) (E : heap -> Prop) (n : nat)
    (body : nat -> M unit) :
  (forall i, i < n -> hoare I (body i) (fun _ => I) E) ->
  hoare I (for_range n body) (fun _ => I) E.
Proof.
  intros Hb. apply hoare_for_each. intros i Hi. apply Hb.
  apply in_seq in Hi. lia.
Qed.

Lemma hoare_when (I : heap -> Prop) (E : heap -> Prop) (b : bool)
    (m : M unit) :
  hoare I m (fun _ => I) E -> hoare I (when b m) (fun _ => I) E.
Proof. intros Hm. destruct b; [ exact Hm | apply hoare_ret; auto ]. Qed.

Lemma frame_refl h0 : frame h0 h0.
Proof. unfold frame. auto. Qed.

Lemma keeps_ret {A} h0 (a : A) : keeps h0 (ret a).
Proof. apply hoare_ret. auto. Qed.

Lemma keeps_raise {A} h0 e : keeps h0 (raise e : M A).
Proof. apply hoare_raise. auto. Qed.

Lemma keeps_bind {A B} h0 (m : M A) (k : A -> M B) :
  keeps h0 m -> (forall a, keeps h0 (k a)) -> keeps h0 (bind m k).
Proof. intros Hm Hk. eapply hoare_bind; [ exact Hm | exact Hk ]. Qed.

Lemma keeps_load3 h0 l : keeps h0 (load3 l).
Proof. intros h Hh. exact Hh. Qed.

Lemma keeps_load2 h0 l : keeps h0 (load2 l).
Proof. intros h Hh. exact Hh. Qed.

Lemma keeps_store3 h0 l v : fresh3 h0 l -> keeps h0 (store3 l v).
Proof.
  intros Hl h (H1 & H2 & H3 & H4). unfold fresh3 in Hl. simpl.
  repeat split; simpl; auto.
  - rewrite length_insert. exact H1.
  - intros l' Hl'. unfold array3, array2 in *. simpl.
    rewrite list_lookup_insert_ne by lia. auto.
Qed.

Lemma keeps_store2 h0 l v : fresh2 h0 l -> keeps h0 (store2 l v).
Proof.
  intros Hl h (H1 & H2 & H3 & H4). unfold fresh2 in Hl. simpl.
  repeat split; simpl; auto.
  - rewrite length_insert. exact H2.
  - intros l' Hl'. unfold array3, array2 in *. simpl.
    rewrite list_lookup_insert_ne by lia. auto.
Qed.

Lemma alloc3_fresh h0 v :
  hoare (frame h0) (alloc3 v) (fun l h => frame h0 h /\ fresh3 h0 l)
        (frame h0).
Proof.
  intros h (H1 & H2 & H3 & H4). simpl. unfold fresh3.
  repeat split; simpl; auto.
  - rewrite length_app. lia.
  - intros l Hl. unfold array3, array2 in *. simpl.
    rewrite lookup_app_l by lia. auto.
Qed.

Lemma alloc2_fresh h0 v :
  hoare (frame h0) (alloc2 v) (fun l h => frame h0 h /\ fresh2 h0 l)
        (frame h0).
Proof.
  intros h (H1 & H2 & H3 & H4). simpl. unfold fresh2.
  repeat split; simpl; auto.
  - rewrite length_app. lia.
  - intros l Hl. unfold array3, array2 in *. simpl.
    rewrite lookup_app_l by lia. auto.
Qed.

Lemma keeps_get_state h0 : keeps h0 get_state.
Proof. intros h Hh. exact Hh. Qed.

Lemma keeps_set_state h0 g : keeps h0 (set_state g).
Proof. intros h Hh. exact Hh. Qed.

Lemma keeps_seed_random h0 s : keeps h0 (seed_random s).
Proof.
  unfold seed_random. destruct (random_seed s).
  - apply keeps_set_state.
  - apply keeps_raise.
Qed.

Lemma keeps_rand h0 rows cols : keeps h0 (rand rows cols).
Proof.
  intros h Hh. unfold rand. destruct (draw _ _). exact Hh.
Qed.

Lemma keeps_print h0 c : keeps h0 (print c).
Proof. intros h Hh. exact Hh. Qed.

Lemma keeps_call_callback h0 c : keeps h0 (call_callback c).
Proof. intros h Hh. exact Hh. Qed.

Lemma keeps_for_range h0 n body :
  (forall i, keeps h0 (body i)) -> keeps h0 (for_range n body).
Proof. intros Hb. apply hoare_for_range. intros i _. apply Hb. Qed.

Lemma keeps_when h0 b m : keeps h0 m -> keeps h0 (when b m).
Proof. apply hoare_when. Qed.

End Hoare.

(** ** The routine writes only to arrays of its own *)

Section Frame.

Context {S : Scalar} {L : Libraries}.

Ltac keeps_step :=
  lazymatch goal with
  | |- keeps _ (ret _) => apply keeps_ret
  | |- keeps _ (raise _) => apply keeps_raise
  | |- keeps _ (load3 _) => apply keeps_load3
  | |- keeps _ (load2 _) => apply keeps_load2
  | |- keeps _ get_state => apply keeps_get_state
  | |- keeps _ (set_state _) => apply keeps_set_state
  | |- keeps _ (seed_random _) => apply keeps_seed_random
  | |- keeps _ (rand _ _) => apply keeps_rand
  | |- keeps _ (print _) => apply keeps_print
  | |- keeps _ (call_callback _) => apply keeps_call_callback
  | |- keeps _ (store3 _ _) => apply keeps_store3; assumption
  | |- keeps _ (store2 _ _) => apply keeps_store2; assumption
  | |- keeps _ (when _ _) => apply keeps_when
  | |- keeps _ (for_range _ _) => apply keeps_for_range; intros ?
  | |- keeps _ (bind _ _) => apply keeps_bind; [ | intros ? ]
  | |- hoare (frame ?h) ?m (fun _ => frame ?h) (frame ?h) =>
      change (keeps h m)
  end.

Ltac keeps_tac := repeat keeps_step.

Lemma keeps_demix h0 n_freq n_chan n_src lY lX lW lP lR_all :
  fresh3 h0 lY -> fresh2 h0 lP -> fresh2 h0 lR_all ->
  keeps h0 (demix n_freq n_chan n_src lY lX lW lP lR_all).
Proof. intros HY HP HR. unfold demix. keeps_tac. Qed.

Lemma keeps_rescale h0 n_src lW lP lR_all lG :
  fresh3 h0 lW -> fresh2 h0 lP -> fresh2 h0 lR_all -> fresh2 h0 lG ->
  keeps h0 (rescale n_src lW lP lR_all lG).
Proof. intros HW HP HR HG. unfold rescale. keeps_tac. Qed.

Lemma keeps_sub_iteration h0 n_src sparse_reg U_mean lW lP lR_all lG :
  fresh3 h0 lW -> fresh2 h0 lP -> fresh2 h0 lR_all -> fresh2 h0 lG ->
  keeps h0 (sub_iteration n_src sparse_reg U_mean lW lP lR_all lG).
Proof.
  intros HW HP HR HG. unfold sub_iteration. keeps_tac.
  now apply keeps_rescale.
Qed.

Lemma keeps_update_column h0 n_freq n_chan V lW s :
  fresh3 h0 lW -> keeps h0 (update_column n_freq n_chan V lW s).
Proof.
  intros HW. unfold update_column. keeps_tac.
  destruct (solve_each _ _ _ _ _); keeps_tac.
Qed.

Lemma keeps_update_W h0 n_freq n_chan V lW :
  fresh3 h0 lW -> keeps h0 (update_W n_freq n_chan V lW).
Proof.
  intros HW. unfold update_W. apply keeps_for_range. intros s.
  now apply keeps_update_column.
Qed.

Lemma keeps_report_callback h0 n_src proj_back lX lU lW lY lR_all lG :
  keeps h0 (report_callback n_src proj_back lX lU lW lY lR_all lG).
Proof. unfold report_callback. keeps_tac. destruct proj_back; keeps_tac. Qed.

Lemma keeps_report_cost h0 n_frames n_freq n_chan n_src lU lW lY lR_all lG :
  keeps h0 (report_cost n_frames n_freq n_chan n_src lU lW lY lR_all lG).
Proof. unfold report_cost. keeps_tac. Qed.

Lemma keeps_epoch_body h0 n_frames n_freq n_chan n_src sparse_reg
    n_nmf_sub_iter proj_back print_cost callback U_mean
    lX lU lW lY lP lR_all lG e :
  fresh3 h0 lW -> fresh3 h0 lY ->
  fresh2 h0 lP -> fresh2 h0 lR_all -> fresh2 h0 lG ->
  keeps h0 (epoch_body n_frames n_freq n_chan n_src sparse_reg n_nmf_sub_iter
              proj_back print_cost callback U_mean
              lX lU lW lY lP lR_all lG e).
Proof.
  intros HW HY HP HR HG. unfold epoch_body.
  apply keeps_bind; [ apply keeps_when, keeps_report_callback | intros ? ].
  apply keeps_bind; [ apply keeps_when, keeps_report_cost | intros ? ].
  apply keeps_bind;
    [ apply keeps_for_range; intros ?; now apply keeps_sub_iteration
    | intros ? ].
  apply keeps_bind; [ apply keeps_load3 | intros X ].
  apply keeps_bind; [ apply keeps_load2 | intros R_all ].
  cbv zeta.
  apply keeps_bind; [ now apply keeps_update_W | intros ? ].
  apply keeps_bind; [ now apply keeps_demix | intros ? ].
  now apply keeps_rescale.
Qed.

(** The initialiser allocates [G]. *)
Lemma initialise_fresh h0 n_frames n_chan n_src n_blink seed U_mean lR_all :
  fresh2 h0 lR_all ->
  hoare (frame h0)
        (initialise n_frames n_chan n_src n_blink seed U_mean lR_all)
        (fun lG h => frame h0 h /\ fresh2 h0 lG) (frame h0).
Proof.
  intros HR. unfold initialise.
  eapply hoare_bind with (Q' := fun _ => frame h0).
  { destruct seed; keeps_tac. }
  intros rng_state.
  eapply hoare_bind; [ apply keeps_rand | intros D ].
  eapply hoare_bind with (Q' := fun _ => frame h0).
  { destruct (n_chan <? n_src); keeps_tac. }
  intros _u.
  eapply hoare_bind; [ apply keeps_load2 | intros R1 ].
  eapply hoare_bind; [ now apply keeps_store2 | intros _u1 ].
  eapply hoare_bind; [ apply keeps_load2 | intros R2 ].
  eapply hoare_bind; [ now apply keeps_store2 | intros _u2 ].
  eapply hoare_bind; [ apply keeps_rand | intros D2 ].
  eapply hoare_bind; [ apply alloc2_fresh | intros lG ].
  eapply hoare_bind with (Q' := fun _ h => frame h0 h /\ fresh2 h0 lG).
  { intros h [Hh HG]. simpl. auto. }
  intros R3.
  eapply hoare_bind with (Q' := fun _ h => frame h0 h /\ fresh2 h0 lG).
  { intros h [Hh HG]. simpl. auto. }
  intros G. cbv zeta.
  eapply hoare_bind with (Q' := fun _ h => frame h0 h /\ fresh2 h0 lG).
  { intros h [Hh HG]. split; [ | exact HG ].
    exact (keeps_store2 h0 lG _ HG h Hh). }
  intros _u3.
  eapply hoare_bind with (Q' := fun _ h => frame h0 h /\ fresh2 h0 lG).
  { intros h [Hh HG]. destruct rng_state; simpl; auto. }
  intros _u4. apply hoare_ret. auto.
Qed.

Lemma setup_fresh h0 a :
  hoare (frame h0) (setup a)
        (fun w h => frame h0 h /\ workspace_fresh h0 w) (frame h0).
Proof.
  unfold setup.
  eapply hoare_bind; [ apply keeps_load3 | intros X ].
  unfold shape3. cbv beta iota.
  eapply hoare_bind; [ apply keeps_load2 | intros U ].
  unfold shape2. cbv beta iota.
  destruct (negb _); [ apply hoare_raise; auto | ].
  eapply hoare_bind with (Q' := fun lW h => frame h0 h /\ fresh3 h0 lW).
  { destruct (arg_W0 a) as [lW0 |]; [ | apply alloc3_fresh ].
    eapply hoare_bind; [ apply keeps_load3 | intros W0 ].
    apply alloc3_fresh. }
  intros lW. cbv zeta.
  eapply hoare_bind
    with (Q' := fun lY h => frame h0 h /\ fresh3 h0 lW /\ fresh3 h0 lY).
  { intros h [Hh HW]. pose proof (alloc3_fresh h0
      (repeat (repeat (repeat c0 (length (hd [] (hd [] X))))
                      (length (hd [] X))) (length X)) h Hh) as H.
    destruct (alloc3 _ h) as [[lY | e] h']; intuition. }
  intros lY.
  eapply hoare_bind
    with (Q' := fun lP h => frame h0 h /\ fresh3 h0 lW /\ fresh3 h0 lY
                            /\ fresh2 h0 lP).
  { intros h (Hh & HW & HY). pose proof (alloc2_fresh h0
      (repeat (repeat r0 (length (hd [] (hd [] X)))) (length X)) h Hh) as H.
    destruct (alloc2 _ h) as [[lP | e] h']; intuition. }
  intros lP.
  eapply hoare_bind
    with (Q' := fun lR h => frame h0 h /\ fresh3 h0 lW /\ fresh3 h0 lY
                            /\ fresh2 h0 lP /\ fresh2 h0 lR).
  { intros h (Hh & HW & HY & HP). pose proof (alloc2_fresh h0
      (repeat (repeat r1 (length (hd [] (hd [] X)))) (length X)) h Hh) as H.
    destruct (alloc2 _ h) as [[lR | e] h']; intuition. }
  intros lR.
  eapply hoare_bind
    with (Q' := fun lG h => frame h0 h /\ fresh3 h0 lW /\ fresh3 h0 lY
                            /\ fresh2 h0 lP /\ fresh2 h0 lR /\ fresh2 h0 lG).
  { intros h (Hh & HW & HY & HP & HR).
    pose proof (initialise_fresh h0 (length X) (length (hd [] (hd [] X)))
      (default (length (hd [] (hd [] X))) (arg_n_src a))
      (length (hd [] U)) (arg_seed a)
      (U_mean_of (length (hd [] X)) U) lR HR h Hh) as H.
    destruct (initialise _ _ _ _ _ _ _ h) as [[lG | e] h']; intuition. }
  intros lG.
  eapply hoare_bind
    with (Q' := fun _ h => frame h0 h /\ fresh3 h0 lW /\ fresh3 h0 lY
                           /\ fresh2 h0 lP /\ fresh2 h0 lR /\ fresh2 h0 lG).
  { intros h (Hh & HW & HY & HP & HR & HG).
    pose proof (keeps_demix h0 (length (hd [] X)) (length (hd [] (hd [] X)))
      (default (length (hd [] (hd [] X))) (arg_n_src a))
      lY (arg_X a) lW lP lR HY HP HR h Hh) as H.
    destruct (demix _ _ _ _ _ _ _ _ h) as [[u | e] h']; intuition. }
  intros _u. apply hoare_ret. unfold workspace_fresh. simpl. intuition.
Qed.

Lemma keeps_epoch h0 a w e :
  workspace_fresh h0 w -> keeps h0 (epoch a w e).
Proof.
  intros (HW & HY & HP & HR & HG). unfold epoch.
  now apply keeps_epoch_body.
Qed.

Lemma keeps_finish h0 a w :
  workspace_fresh h0 w -> keeps h0 (finish a w).
Proof.
  intros (HW & HY & HP & HR & HG). unfold finish. keeps_tac.
Qed.

(** Whatever the call does, and whether it returns or raises, the arrays
    that existed before it are unchanged; the arrays it returns are arrays
    it allocated. *)
Lemma blinkiva_gauss_frame h0 a :
  hoare (frame h0) (blinkiva_gauss a)
        (fun r h => frame h0 h /\
           match r with
           | ReturnY lY => fresh3 h0 lY
           | ReturnFilters lY lW lG lR =>
               fresh3 h0 lY /\ fresh3 h0 lW /\ fresh2 h0 lG /\ fresh2 h0 lR
           end)
        (frame h0).
Proof.
  unfold blinkiva_gauss.
  eapply hoare_bind; [ apply setup_fresh | intros w ].
  eapply hoare_bind
    with (Q' := fun _ h => frame h0 h /\ workspace_fresh h0 w).
  { intros h [Hh Hw].
    pose proof (keeps_for_range h0 (arg_n_iter a) (epoch a w)
                  (fun e => keeps_epoch h0 a w e Hw) h Hh) as H.
    destruct (for_range _ _ h) as [[u | e] h']; auto. }
  intros _u. intros h [Hh Hw].
  pose proof (keeps_finish h0 a w Hw h Hh) as H.
  unfold finish in *. unfold bind in *.
  destruct (when _ _ h) as [[u | e] h']; [ | exact H ].
  simpl in *. split; [ exact H | ].
  destruct Hw as (HW & HY & HP & HR & HG).
  destruct (arg_return_filters a); auto.
Qed.

End Frame.

(** ** Validation, and the caller's arrays *)

Section Caller.

Context {S : Scalar} {L : Libraries}.

(** C2.  When [U] and [X] differ in their number of frames the call raises
    [ValueError] at once: the store it leaves is the store it was given, so
    that no array ([X], [U], [W0] or any other) is changed, nothing is
    allocated and the random generator is untouched. *)
Theorem frames_mismatch_rejected (a : arguments) (h : heap)
    (X : tensor3 complex) (U : matrix real) :
  array3 h (arg_X a) = Some X ->
  array2 h (arg_U a) = Some U ->
  fst (shape2 U) <> fst (fst (shape3 X)) ->
  blinkiva_gauss a h = (Raise ValueError, h).
Proof.
  intros HX HU Hne. unfold blinkiva_gauss, setup, bind, load3, load2.
  rewrite HX. cbv beta iota delta [default from_option shape3 Datatypes.id].
  rewrite HU. cbv beta iota delta [default from_option shape2 Datatypes.id].
  simpl in Hne.
  destruct (Nat.eqb_spec (length U) (length X)) as [He | _];
    [ contradiction | ].
  reflexivity.
Qed.

(** C10.  A call that is given an initial demixing matrix leaves the
    caller's array [W0] as it was, whether the call returns or raises, and
    the demixing matrix it returns is another array than [W0]: the routine
    works on a copy. *)
Theorem W0_left_unchanged (a : arguments) (h : heap) (l0 : loc)
    (W0 : tensor3 complex) :
  arg_W0 a = Some l0 ->
  array3 h l0 = Some W0 ->
  array3 (snd (blinkiva_gauss a h)) l0 = Some W0 /\
  (forall lY lW lG lR,
     fst (blinkiva_gauss a h) = Ok (ReturnFilters lY lW lG lR) -> lW <> l0).
Proof.
  intros _ HW0.
  pose proof (blinkiva_gauss_frame h a h (frame_refl h)) as H.
  assert (Hl0 : l0 < length (complex_arrays h))
    by (eapply lookup_lt_Some; exact HW0).
  destruct (blinkiva_gauss a h) as [[r | e] h']; simpl.
  - destruct H as [(_ & _ & H3 & _) Hr]. split.
    + rewrite H3 by exact Hl0. exact HW0.
    + intros lY lW lG lR Heq. inversion Heq; subst r.
      destruct Hr as (_ & HfW & _). unfold fresh3 in HfW. lia.
  - destruct H as (_ & _ & H3 & _). split.
    + rewrite H3 by exact Hl0. exact HW0.
    + intros lY lW lG lR Heq. discriminate Heq.
Qed.

End Caller.

Lemma frames_mismatch_rejected_witness :
  blinkiva_gauss (L := float_libraries) default_args heap_mismatch
  = (Raise ValueError, heap_mismatch).
Proof.
  apply (frames_mismatch_rejected (L := float_libraries) default_args
           heap_mismatch X_2_1_2 U_3_1).
  - reflexivity.
  - reflexivity.
  - simpl. lia.
Defined.

Lemma W0_left_unchanged_witness :
  array3
    (snd (blinkiva_gauss (L := float_libraries) (with_W0 1 default_args)
            heap_2_1_2)) 1
  = Some W0_1_2_2 /\
  (forall lY lW lG lR,
     fst (blinkiva_gauss (L := float_libraries) (with_W0 1 default_args)
            heap_2_1_2)
     = Ok (ReturnFilters lY lW lG lR) -> lW <> 1).
Proof.
  apply (W0_left_unchanged (L := float_libraries) (with_W0 1 default_args)
           heap_2_1_2 1 W0_1_2_2).
  - reflexivity.
  - reflexivity.
Defined.

(** ** The state of the random generator *)

Section Random.

Context {S : Scalar} {L : Libraries}.

Lemma quiet_ret {A} (a : A) : quiet (ret a).
Proof. intros g. apply hoare_ret. auto. Qed.

Lemma quiet_raise {A} e : quiet (raise e : M A).
Proof. intros g. apply hoare_raise. auto. Qed.

Lemma quiet_bind {A B} (m : M A) (k : A -> M B) :
  quiet m -> (forall a, quiet (k a)) -> quiet (bind m k).
Proof.
  intros Hm Hk g. eapply hoare_bind; [ apply Hm | intros a; apply Hk ].
Qed.

Lemma quiet_load3 l : quiet (load3 l).
Proof. intros g h Hh. exact Hh. Qed.

Lemma quiet_load2 l : quiet (load2 l).
Proof. intros g h Hh. exact Hh. Qed.

Lemma quiet_store3 l v : quiet (store3 l v).
Proof. intros g h Hh. exact Hh. Qed.

Lemma quiet_store2 l v : quiet (store2 l v).
Proof. intros g h Hh. exact Hh. Qed.

Lemma quiet_print c : quiet (print c).
Proof. intros g h Hh. exact Hh. Qed.

Lemma quiet_call_callback c : quiet (call_callback c).
Proof. intros g h Hh. exact Hh. Qed.

Lemma quiet_for_range n body :
  (forall i, quiet (body i)) -> quiet (for_range n body).
Proof.
  intros Hb g. apply hoare_for_range. intros i _. apply Hb.
Qed.

Lemma quiet_when b m : quiet m -> quiet (when b m).
Proof. intros Hm g. apply hoare_when, Hm. Qed.

Ltac quiet_step :=
  lazymatch goal with
  | |- quiet (ret _) => apply quiet_ret
  | |- quiet (raise _) => apply quiet_raise
  | |- quiet (load3 _) => apply quiet_load3
  | |- quiet (load2 _) => apply quiet_load2
  | |- quiet (store3 _ _) => apply quiet_store3
  | |- quiet (store2 _ _) => apply quiet_store2
  | |- quiet (print _) => apply quiet_print
  | |- quiet (call_callback _) => apply quiet_call_callback
  | |- quiet (when _ _) => apply quiet_when
  | |- quiet (for_range _ _) => apply quiet_for_range; intros ?
  | |- quiet (bind _ _) => apply quiet_bind; [ | intros ? ]
  | |- quiet (if ?b then _ else _) => destruct b
  | |- quiet (match ?x with Some _ => _ | None => _ end) => destruct x
  end.

Ltac quiet_tac := repeat quiet_step.

Lemma quiet_demix n_freq n_chan n_src lY lX lW lP lR_all :
  quiet (demix n_freq n_chan n_src lY lX lW lP lR_all).
Proof. unfold demix. quiet_tac. Qed.

Lemma quiet_rescale n_src lW lP lR_all lG :
  quiet (rescale n_src lW lP lR_all lG).
Proof. unfold rescale. quiet_tac. Qed.

Lemma quiet_sub_iteration n_src sparse_reg U_mean lW lP lR_all lG :
  quiet (sub_iteration n_src sparse_reg U_mean lW lP lR_all lG).
Proof. unfold sub_iteration. quiet_tac. apply quiet_rescale. Qed.

Lemma quiet_update_W n_freq n_chan V lW : quiet (update_W n_freq n_chan V lW).
Proof. unfold update_W, update_column. quiet_tac. Qed.

Lemma quiet_epoch a w e : quiet (epoch a w e).
Proof.
  unfold epoch, epoch_body, report_callback, report_cost. quiet_tac;
    lazymatch goal with
    | |- quiet (sub_iteration _ _ _ _ _ _ _) => apply quiet_sub_iteration
    | |- quiet (update_W _ _ _ _) => apply quiet_update_W
    | |- quiet (demix _ _ _ _ _ _ _ _) => apply quiet_demix
    | |- quiet (rescale _ _ _ _ _) => apply quiet_rescale
    end.
Qed.

Lemma quiet_finish a w : quiet (finish a w).
Proof. unfold finish. quiet_tac. Qed.

(** With a seed, and no more sources than channels, the initialiser puts
    the state of the generator back. *)
Lemma initialise_restores n_frames n_chan n_src n_blink s U_mean lR_all g :
  n_src <= n_chan ->
  hoare (rng_is g)
        (initialise n_frames n_chan n_src n_blink (Some s) U_mean lR_all)
        (fun _ => rng_is g) (rng_is g).
Proof.
  intros Hle h Hh. unfold rng_is in *.
  unfold initialise, bind, get_state, seed_random.
  destruct (random_seed s) as [g1 |]; [ | simpl; exact Hh ].
  cbv beta iota delta [set_state ret].
  unfold rand at 1. cbn [np_random].
  destruct (draw (n_frames * n_src) g1) as [xs g2].
  destruct (Nat.ltb_spec n_chan n_src) as [Hlt | _]; [ lia | ].
  cbv beta iota delta [ret load2 store2].
  unfold rand at 1. cbn [np_random].
  destruct (draw (n_src * n_blink) g2) as [ys g3].
  cbv beta iota delta [alloc2 load2 store2 set_state ret].
  cbn [np_random]. exact Hh.
Qed.

Lemma hoare_snd {A} (m : M A) (P : heap -> Prop) (h : heap) :
  hoare (fun h' => h' = h) m (fun _ => P) P -> P (snd (m h)).
Proof.
  intros H. specialize (H h eq_refl). destruct (m h) as [[a | e] h']; exact H.
Qed.

Lemma quiet_snd {A} (m : M A) (h : heap) :
  quiet m -> np_random (snd (m h)) = np_random h.
Proof.
  intros H. specialize (H (np_random h) h eq_refl).
  destruct (m h) as [[a | e] h']; exact H.
Qed.

Lemma setup_restores a s h :
  arg_seed a = Some s ->
  default (channels_at h (arg_X a)) (arg_n_src a) <= channels_at h (arg_X a) ->
  np_random (snd (setup a h)) = np_random h.
Proof.
  intros Hs Hle.
  unfold channels_at, shape3 in Hle. cbn [snd] in Hle.
  unfold setup. unfold bind at 1. unfold load3 at 1.
  cbv beta iota delta [shape3].
  unfold bind at 1. unfold load2 at 1.
  cbv beta iota delta [shape2].
  destruct (negb _); [ reflexivity | ].
  set (X := default [] (array3 h (arg_X a))) in *.
  set (U := default [] (array2 h (arg_U a))) in *.
  remember (default (length (hd [] (hd [] X))) (arg_n_src a)) as n_src.
  set (g := np_random h).
  assert (HW : hoare (rng_is g)
            (match arg_W0 a with
             | Some lW0 => W0 <- load3 lW0 ;; alloc3 W0
             | None => alloc3 (repeat (eye (length (hd [] (hd [] X))))
                                      (length (hd [] X)))
             end) (fun _ => rng_is g) (rng_is g)).
  { destruct (arg_W0 a); intros h1 Hh1; exact Hh1. }
  assert (Hrest : forall lW, hoare (rng_is g)
    (lY <- alloc3 (repeat (repeat (repeat c0 (length (hd [] (hd [] X))))
                     (length (hd [] X))) (length X)) ;;
     lP <- alloc2 (repeat (repeat r0 (length (hd [] (hd [] X)))) (length X)) ;;
     lR_all <- alloc2 (repeat (repeat r1 (length (hd [] (hd [] X))))
                              (length X)) ;;
     lG <- initialise (length X) (length (hd [] (hd [] X))) n_src
             (length (hd [] U)) (arg_seed a)
             (U_mean_of (length (hd [] X)) U) lR_all ;;
     demix (length (hd [] X)) (length (hd [] (hd [] X))) n_src lY
           (arg_X a) lW lP lR_all ;;;
     ret (Workspace (length X) (length (hd [] X)) (length (hd [] (hd [] X)))
            n_src (U_mean_of (length (hd [] X)) U) lW lY lP lR_all lG))
    (fun _ => rng_is g) (rng_is g)).
  { intros lW.
    eapply hoare_bind with (Q' := fun _ => rng_is g);
      [ intros h1 Hh1; exact Hh1 | intros lY ].
    eapply hoare_bind with (Q' := fun _ => rng_is g);
      [ intros h1 Hh1; exact Hh1 | intros lP ].
    eapply hoare_bind with (Q' := fun _ => rng_is g);
      [ intros h1 Hh1; exact Hh1 | intros lR_all ].
    eapply hoare_bind with (Q' := fun _ => rng_is g);
      [ rewrite Hs; apply initialise_restores; exact Hle | intros lG ].
    eapply hoare_bind with (Q' := fun _ => rng_is g);
      [ apply quiet_demix | intros u ].
    apply hoare_ret. auto. }
  pose proof (hoare_bind _ _ _ _ _ _ HW Hrest h eq_refl) as H.
  match goal with
  | H : match ?m h with _ => _ end |- np_random (snd (?m' h)) = _ =>
      change m' with m; destruct (m h) as [[w | e] h']; exact H
  end.
Qed.

Lemma call_restores a s h :
  arg_seed a = Some s ->
  default (channels_at h (arg_X a)) (arg_n_src a) <= channels_at h (arg_X a) ->
  np_random (snd (blinkiva_gauss a h)) = np_random h.
Proof.
  intros Hs Hle. pose proof (setup_restores a s h Hs Hle) as H0.
  unfold blinkiva_gauss. unfold bind at 1.
  destruct (setup a h) as [[w | e] h1]; [ | exact H0 ].
  simpl in H0. rewrite <- H0.
  apply (quiet_snd (for_range (arg_n_iter a) (epoch a w) ;;; finish a w)).
  apply quiet_bind.
  - apply quiet_for_range. intros e. apply quiet_epoch.
  - intros u. apply quiet_finish.
Qed.

End Random.

(** C9, at a call that asks for three sources from two channels with seed 0:
    the assignment to [R] raises [ValueError] after the generator was seeded
    and drawn from, and before its state is put back; the call leaves
    [np.random] in another state than the one it found. *)
Theorem seeded_draw_not_restored_on_error :
  fst (blinkiva_gauss (L := float_libraries) args_three_sources heap_2_1_2)
  = Raise ValueError /\
  np_random (snd (blinkiva_gauss (L := float_libraries) args_three_sources
                    heap_2_1_2))
  <> np_random heap_2_1_2.
Proof.
  split.
  - vm_compute. reflexivity.
  - vm_compute. discriminate.
Qed.

(** ** Arrays: lookups and shapes *)

Section ArrayFacts.

Context {S : Scalar}.

Lemma length_tabulate {A} n (f : nat -> A) : length (tabulate n f) = n.
Proof. unfold tabulate. now rewrite length_map, length_seq. Qed.

Lemma nth_tabulate {A} n (f : nat -> A) i d :
  i < n -> nth i (tabulate n f) d = f i.
Proof.
  intros Hi. unfold tabulate.
  rewrite (nth_indep _ d (f 0)) by (now rewrite length_map, length_seq).
  rewrite (map_nth f (seq 0 n) 0 i), seq_nth by exact Hi. reflexivity.
Qed.

Lemma nth_imap {A B} (f : nat -> A -> B) (l : list A) i d d' :
  i < length l -> nth i (imap f l) d = f i (nth i l d').
Proof.
  intros Hi. rewrite !nth_lookup, list_lookup_imap.
  destruct (lookup_lt_is_Some_2 l i Hi) as [x Hx]. rewrite Hx. reflexivity.
Qed.

Lemma nth_imap_outside {A} (f : nat -> A -> A) (l : list A) i d :
  length l <= i -> nth i (imap f l) d = nth i l d.
Proof.
  intros Hi. rewrite !nth_overflow; [ reflexivity | lia | ].
  rewrite length_imap. lia.
Qed.

Lemma length_inplace2 {A} (f : nat -> nat -> A -> A) a :
  length (inplace2 f a) = length a.
Proof. apply length_imap. Qed.

Lemma row_inplace2 {A} (f : nat -> nat -> A -> A) a i :
  i < length a -> nth i (inplace2 f a) [] = imap (f i) (nth i a []).
Proof.
  intros Hi. unfold inplace2.
  exact (nth_imap (fun i row => imap (f i) row) a i [] [] Hi).
Qed.

Lemma length_row_inplace2 {A} (f : nat -> nat -> A -> A) a i :
  length (nth i (inplace2 f a) []) = length (nth i a []).
Proof.
  destruct (Nat.lt_ge_cases i (length a)) as [Hi | Hi].
  - rewrite row_inplace2 by exact Hi. apply length_imap.
  - rewrite !nth_overflow; [ reflexivity | lia | ].
    rewrite length_inplace2. lia.
Qed.

Lemma nth_inplace2 {A} (f : nat -> nat -> A -> A) a i j d :
  i < length a -> j < length (nth i a []) ->
  nth j (nth i (inplace2 f a) []) d = f i j (nth j (nth i a []) d).
Proof.
  intros Hi Hj. rewrite row_inplace2 by exact Hi.
  exact (nth_imap (f i) (nth i a []) j d d Hj).
Qed.

Lemma rat2_inplace2 (f : nat -> nat -> real -> real) a i j :
  i < length a -> j < length (nth i a []) ->
  rat2 (inplace2 f a) i j = f i j (rat2 a i j).
Proof. apply nth_inplace2. Qed.

Lemma length_inplace3 {A} (f : nat -> nat -> nat -> A -> A) a :
  length (inplace3 f a) = length a.
Proof. apply length_imap. Qed.

Lemma slice_inplace3 {A} (f : nat -> nat -> nat -> A -> A) a i :
  i < length a -> nth i (inplace3 f a) [] = inplace2 (f i) (nth i a []).
Proof.
  intros Hi. unfold inplace3.
  exact (nth_imap (fun i s => inplace2 (f i) s) a i [] [] Hi).
Qed.

Lemma cat3_inplace3 (f : nat -> nat -> nat -> complex -> complex) a i j k :
  i < length a -> j < length (nth i a []) ->
  k < length (nth j (nth i a []) []) ->
  cat3 (inplace3 f a) i j k = f i j k (cat3 a i j k).
Proof.
  intros Hi Hj Hk. unfold cat3. rewrite slice_inplace3 by exact Hi.
  now apply nth_inplace2.
Qed.

(** *** Shapes *)

Lemma has_shape2_nth {A} (a : matrix A) n m i :
  has_shape2 a n m -> i < n -> length (nth i a []) = m.
Proof.
  intros [Hn Hall] Hi. rewrite List.Forall_forall in Hall. apply Hall.
  apply nth_In. lia.
Qed.

Lemma has_shape3_nth {A} (a : tensor3 A) n m k i :
  has_shape3 a n m k -> i < n -> has_shape2 (nth i a []) m k.
Proof.
  intros [Hn Hall] Hi. rewrite List.Forall_forall in Hall. apply Hall.
  apply nth_In. lia.
Qed.

Lemma Forall_imap {A B} (P : A -> Prop) (Q : B -> Prop)
    (f : nat -> A -> B) (l : list A) :
  (forall i x, P x -> Q (f i x)) -> Forall P l -> Forall Q (imap f l).
Proof.
  intros Hf Hl. revert f Hf. induction Hl as [| x l Hx Hl IH]; intros f Hf.
  - constructor.
  - simpl. constructor; [ now apply Hf | ].
    apply IH. intros i y Hy. now apply Hf.
Qed.

Lemma has_shape2_inplace2 {A} (f : nat -> nat -> A -> A) a n m :
  has_shape2 a n m -> has_shape2 (inplace2 f a) n m.
Proof.
  intros [Hn Hall]. split.
  - now rewrite length_inplace2.
  - unfold inplace2. eapply Forall_imap; [ | exact Hall ].
    intros i row Hrow. simpl. now rewrite length_imap.
Qed.

Lemma has_shape3_inplace3 {A} (f : nat -> nat -> nat -> A -> A) a n m k :
  has_shape3 a n m k -> has_shape3 (inplace3 f a) n m k.
Proof.
  intros [Hn Hall]. split.
  - now rewrite length_inplace3.
  - unfold inplace3. eapply Forall_imap; [ | exact Hall ].
    intros i s Hs. now apply has_shape2_inplace2.
Qed.

Lemma has_shape2_repeat {A} (x : A) n m :
  has_shape2 (repeat (repeat x m) n) n m.
Proof.
  split; [ apply repeat_length | ].
  apply List.Forall_forall. intros row Hrow. apply repeat_spec in Hrow.
  subst row. apply repeat_length.
Qed.

Lemma has_shape3_repeat {A} (s : matrix A) n m k :
  has_shape2 s m k -> has_shape3 (repeat s n) n m k.
Proof.
  intros Hs. split; [ apply repeat_length | ].
  apply List.Forall_forall. intros s' Hs'. apply repeat_spec in Hs'. now subst s'.
Qed.

Lemma has_shape2_tabulate2 {A} n m (f : nat -> nat -> A) :
  has_shape2 (tabulate2 n m f) n m.
Proof.
  split; [ apply length_tabulate | ].
  unfold tabulate2, tabulate. apply List.Forall_forall. intros row Hrow.
  apply in_map_iff in Hrow. destruct Hrow as (i & <- & _).
  now rewrite length_map, length_seq.
Qed.

End ArrayFacts.

(** ** The store after a write *)

Section StoreFacts.

Context {S : Scalar} {L : Libraries}.

Lemma array3_lt h l v : array3 h l = Some v -> l < length (complex_arrays h).
Proof. apply lookup_lt_Some. Qed.

Lemma array2_lt h l v : array2 h l = Some v -> l < length (real_arrays h).
Proof. apply lookup_lt_Some. Qed.

Lemma store3_run l v h :
  store3 l v h
  = (Ok tt, Heap (<[l := v]> (complex_arrays h)) (real_arrays h)
                 (np_random h) (stdout h) (callback_log h)).
Proof. reflexivity. Qed.

Lemma array3_store3_eq h l v v0 :
  array3 h l = Some v0 -> array3 (snd (store3 l v h)) l = Some v.
Proof.
  intros H. unfold array3. simpl. apply list_lookup_insert_eq.
  eapply lookup_lt_Some, H.
Qed.

Lemma array3_store3_ne h l l' v :
  l <> l' -> array3 (snd (store3 l v h)) l' = array3 h l'.
Proof. intros H. unfold array3. simpl. now apply list_lookup_insert_ne. Qed.

Lemma array2_store3 h l l' v : array2 (snd (store3 l v h)) l' = array2 h l'.
Proof. reflexivity. Qed.

Lemma array2_store2_eq h l v v0 :
  array2 h l = Some v0 -> array2 (snd (store2 l v h)) l = Some v.
Proof.
  intros H. unfold array2. simpl. apply list_lookup_insert_eq.
  eapply lookup_lt_Some, H.
Qed.

Lemma array2_store2_ne h l l' v :
  l <> l' -> array2 (snd (store2 l v h)) l' = array2 h l'.
Proof. intros H. unfold array2. simpl. now apply list_lookup_insert_ne. Qed.

Lemma array3_store2 h l l' v : array3 (snd (store2 l v h)) l' = array3 h l'.
Proof. reflexivity. Qed.

End StoreFacts.

(** ** The demixer *)

Section Demixer.

Context {S : Scalar} {L : Libraries}.

Lemma shape3_of {A} (X : tensor3 A) nf nq nc :
  has_shape3 X nf nq nc -> 0 < nf -> 0 < nq ->
  length X = nf /\ length (hd [] X) = nq /\ length (hd [] (hd [] X)) = nc.
Proof.
  intros [Hn Hall] Hf Hq. destruct X as [| s X]; simpl in *; [ lia | ].
  inversion Hall as [| ? ? [Hm Hrow] _]; subst.
  destruct s as [| row s]; simpl in *; [ lia | ].
  inversion Hrow; subst. auto.
Qed.

Lemma shape2_of {A} (U : matrix A) n m :
  has_shape2 U n m -> 0 < n -> length U = n /\ length (hd [] U) = m.
Proof.
  intros [Hn Hall] Hpos. destruct U as [| row U]; simpl in *; [ lia | ].
  inversion Hall; subst. auto.
Qed.

Lemma has_shape3_lengths {A} (a : tensor3 A) n m k i j :
  has_shape3 a n m k -> i < n -> j < m ->
  i < length a /\ j < length (nth i a []) /\
  length (nth j (nth i a []) []) = k.
Proof.
  intros Ha Hi Hj. pose proof (has_shape3_nth a n m k i Ha Hi) as Hs.
  destruct Ha as [Hn _]. destruct Hs as [Hm Hrow]. repeat split; try lia.
  rewrite List.Forall_forall in Hrow. apply Hrow, nth_In. lia.
Qed.

Lemma has_shape2_lengths {A} (a : matrix A) n m i :
  has_shape2 a n m -> i < n -> i < length a /\ length (nth i a []) = m.
Proof.
  intros Ha Hi. pose proof (has_shape2_nth a n m i Ha Hi).
  destruct Ha as [Hn _]. split; lia.
Qed.

Lemma demix_Y_S n_freq n_chan X W Y :
  demix_Y (Datatypes.S n_freq) n_chan X W Y
  = inplace3 (fun n f' c y =>
      if f' =? n_freq then demix_entry n_chan X W n n_freq c else y)
      (demix_Y n_freq n_chan X W Y).
Proof. unfold demix_Y. rewrite seq_S, fold_left_app. reflexivity. Qed.

Lemma has_shape3_demix_Y n_freq n_chan X W Y n m k :
  has_shape3 Y n m k -> has_shape3 (demix_Y n_freq n_chan X W Y) n m k.
Proof.
  intros HY. induction n_freq as [| q IH]; [ exact HY | ].
  rewrite demix_Y_S. now apply has_shape3_inplace3.
Qed.

Lemma cat3_demix_Y n_freq n_chan X W Y nf mf kf n f c :
  has_shape3 Y nf mf kf -> n < nf -> f < mf -> c < kf ->
  cat3 (demix_Y n_freq n_chan X W Y) n f c
  = if f <? n_freq then demix_entry n_chan X W n f c else cat3 Y n f c.
Proof.
  intros HY Hn Hf Hc. induction n_freq as [| q IH].
  - reflexivity.
  - rewrite demix_Y_S.
    pose proof (has_shape3_demix_Y q n_chan X W Y nf mf kf HY) as Hq.
    destruct (has_shape3_lengths _ nf mf kf n f Hq Hn Hf) as (H1 & H2 & H3).
    rewrite cat3_inplace3 by (try assumption; lia). rewrite IH.
    destruct (Nat.eqb_spec f q) as [-> | Hne].
    + rewrite (proj2 (Nat.ltb_lt q (Datatypes.S q))) by lia. reflexivity.
    + destruct (Nat.ltb_spec f q), (Nat.ltb_spec f (Datatypes.S q));
        try reflexivity; lia.
Qed.

Lemma bind_run {A B} (m : M A) (k : A -> M B) h a h1 :
  m h = (Ok a, h1) -> bind m k h = k a h1.
Proof. intros H. unfold bind. now rewrite H. Qed.

Lemma load3_run l h v : array3 h l = Some v -> load3 l h = (Ok v, h).
Proof. intros H. unfold load3. now rewrite H. Qed.

Lemma load2_run l h v : array2 h l = Some v -> load2 l h = (Ok v, h).
Proof. intros H. unfold load2. now rewrite H. Qed.

Lemma store3_ok l v h : store3 l v h = (Ok tt, snd (store3 l v h)).
Proof. reflexivity. Qed.

Lemma store2_ok l v h : store2 l v h = (Ok tt, snd (store2 l v h)).
Proof. reflexivity. Qed.

(** C7.  A call of the demixer, on arrays of the shapes the routine gives
    them ([X] and [Y] of shape [(n_frames, n_freq, n_chan)], [W] of shape
    [(n_freq, n_chan, n_chan)], [P] and [R_all] of shape
    [(n_frames, n_chan)], [Y] and [W] two arrays), returns and leaves
    [Y[n,f,c]] equal to the sum over the channels [k] of
    [X[n,f,k] * conj(W[f,k,c])], that is [Y[:,f,:] = X[:,f,:] . conj(W[f])],
    for every frequency; every entry [P[n,c]] (so each of the first [n_src]
    columns of [P]) equal to [r * r / n_freq], where [r] is the square root
    of the sum over the frequencies of the squared moduli of the new
    [Y[n,:,c]]; the columns of [R_all] from [n_src] on equal to those of the
    new [P], and the first [n_src] columns of [R_all] as they were.  This
    holds in every arithmetic, float64 included. *)
Theorem demix_postcondition (n_frames n_freq n_chan n_src : nat)
    (lY lX lW lP lR_all : loc) (h : heap)
    (X W Y : tensor3 complex) (P R_all : matrix real) :
  array3 h lX = Some X -> array3 h lW = Some W -> array3 h lY = Some Y ->
  array2 h lP = Some P -> array2 h lR_all = Some R_all ->
  lP <> lR_all -> lY <> lW ->
  has_shape3 X n_frames n_freq n_chan ->
  has_shape3 W n_freq n_chan n_chan ->
  has_shape3 Y n_frames n_freq n_chan ->
  has_shape2 P n_frames n_chan ->
  has_shape2 R_all n_frames n_chan ->
  exists (Y' : tensor3 complex) (P' R_all' : matrix real) (h' : heap),
    demix n_freq n_chan n_src lY lX lW lP lR_all h = (Ok tt, h') /\
    array3 h' lY = Some Y' /\ array2 h' lP = Some P' /\
    array2 h' lR_all = Some R_all' /\
    (forall n f c, n < n_frames -> f < n_freq -> c < n_chan ->
       cat3 Y' n f c
       = csum (tabulate n_chan (fun k =>
                 cmul (cat3 X n f k) (conj (cat3 W f k c))))) /\
    (forall n c, n < n_frames -> c < n_chan ->
       let r := rsqrt (rsum (tabulate n_freq (fun f =>
                              re (cmul (conj (cat3 Y' n f c))
                                       (cat3 Y' n f c))))) in
       rat2 P' n c = (r * r / of_nat n_freq)%sc) /\
    (forall n c, n < n_frames -> c < n_chan ->
       rat2 R_all' n c = if c <? n_src then rat2 R_all n c else rat2 P' n c).
Proof.
  intros HX HW HY HP HR Hne HneW SX SW SY SP SR.
  exists (demix_Y n_freq n_chan X W Y).
  exists (demix_P n_freq (demix_Y n_freq n_chan X W Y) P).
  exists (demix_R_all n_src (demix_P n_freq (demix_Y n_freq n_chan X W Y) P)
            R_all).
  unfold demix.
  erewrite bind_run by (apply load3_run; eassumption).
  erewrite bind_run by (apply load3_run; eassumption).
  erewrite bind_run by (apply load3_run; eassumption).
  erewrite bind_run by apply store3_ok.
  set (h1 := snd (store3 lY (demix_Y n_freq n_chan X W Y) h)).
  assert (HY1 : array3 h1 lY = Some (demix_Y n_freq n_chan X W Y))
    by (eapply array3_store3_eq; exact HY).
  assert (HP1 : array2 h1 lP = Some P) by exact HP.
  assert (HR1 : array2 h1 lR_all = Some R_all) by exact HR.
  erewrite bind_run by (apply load3_run; exact HY1).
  erewrite bind_run by (apply load2_run; exact HP1).
  erewrite bind_run by apply store2_ok.
  set (Y' := demix_Y n_freq n_chan X W Y) in *.
  set (h2 := snd (store2 lP (demix_P n_freq Y' P) h1)).
  assert (HP2 : array2 h2 lP = Some (demix_P n_freq Y' P))
    by (eapply array2_store2_eq; exact HP1).
  assert (HR2 : array2 h2 lR_all = Some R_all)
    by (unfold h2; rewrite array2_store2_ne by exact Hne; exact HR1).
  assert (HY2 : array3 h2 lY = Some Y') by exact HY1.
  erewrite bind_run by (apply load2_run; exact HP2).
  erewrite bind_run by (apply load2_run; exact HR2).
  set (P' := demix_P n_freq Y' P) in *.
  exists (snd (store2 lR_all (demix_R_all n_src P' R_all) h2)).
  assert (SY' : has_shape3 Y' n_frames n_freq n_chan)
    by (apply has_shape3_demix_Y; exact SY).
  assert (SP' : has_shape2 P' n_frames n_chan)
    by (apply has_shape2_inplace2; exact SP).
  split; [ apply store2_ok | ].
  split; [ exact HY2 | ].
  split; [ rewrite array2_store2_ne by (intros E; apply Hne; now symmetry);
           exact HP2 | ].
  split; [ eapply array2_store2_eq; exact HR2 | ].
  split; [ | split ].
  - intros n f c Hn Hf Hc. unfold Y'.
    rewrite (cat3_demix_Y n_freq n_chan X W Y n_frames n_freq n_chan)
      by assumption.
    rewrite (proj2 (Nat.ltb_lt f n_freq)) by exact Hf. reflexivity.
  - intros n c Hn Hc. unfold P', demix_P.
    destruct (has_shape2_lengths P n_frames n_chan n SP Hn) as [H1 H2].
    rewrite rat2_inplace2 by (try assumption; lia). reflexivity.
  - intros n c Hn Hc. unfold demix_R_all.
    destruct (has_shape2_lengths R_all n_frames n_chan n SR Hn) as [H1 H2].
    rewrite rat2_inplace2 by (try assumption; lia). reflexivity.
Qed.

End Demixer.

Section DemixerRun.

#[local] Existing Instance binary64.
#[local] Existing Instance float_libraries.

Lemma demix_postcondition_witness :
  exists (Y' : tensor3 fcomplex) (P' R_all' : matrix float) (h' : fheap),
    demix (L := float_libraries) 1 2 1 2 0 1 1 2 heap_demix = (Ok tt, h') /\
    array3 h' 2 = Some Y' /\ array2 h' 1 = Some P' /\
    array2 h' 2 = Some R_all' /\
    (forall n f c, n < 2 -> f < 1 -> c < 2 ->
       cat3 Y' n f c
       = csum (tabulate 2 (fun k =>
                 cmul (cat3 X_2_1_2 n f k) (conj (cat3 W0_1_2_2 f k c))))) /\
    (forall n c, n < 2 -> c < 2 ->
       let r := rsqrt (rsum (tabulate 1 (fun f =>
                              re (cmul (conj (cat3 Y' n f c))
                                       (cat3 Y' n f c))))) in
       rat2 P' n c = (r * r / of_nat 1)%sc) /\
    (forall n c, n < 2 -> c < 2 ->
       rat2 R_all' n c
       = if c <? 1 then rat2 [ [1; 1]; [1; 1] ]%float n c else rat2 P' n c).
Proof.
  apply (demix_postcondition (L := float_libraries) 2 1 2 1 2 0 1 1 2
           heap_demix X_2_1_2 W0_1_2_2 Y_zeros_2_1_2
           [ [0; 0]; [0; 0] ]%float [ [1; 1]; [1; 1] ]%float).
  - reflexivity.
  - reflexivity.
  - reflexivity.
  - reflexivity.
  - reflexivity.
  - discriminate.
  - discriminate.
  - split; [ reflexivity | repeat constructor ].
  - split; [ reflexivity | repeat constructor ].
  - split; [ reflexivity | repeat constructor ].
  - split; [ reflexivity | repeat constructor ].
  - split; [ reflexivity | repeat constructor ].
Defined.

End DemixerRun.

(** ** Sums and means of real numbers *)

Section ExactSums.

#[local] Existing Instance exact.

(** Unfolds the operations of [exact] to those of [R]. *)
Ltac to_R :=
  cbn [real of_nat radd rsub rmul rdiv ropp rsqrt lit_0_1 lit_0_9 lit_1e_15
       finfo_eps exact r0 r1 r2 sq re im] in *.

Lemma fold_left_Rplus (l : list R) (a : R) :
  fold_left Rplus l a = (a + fold_left Rplus l 0)%R.
Proof.
  revert a. induction l as [| x l IH]; intros a; simpl.
  - ring.
  - rewrite IH, (IH (0 + x)%R). ring.
Qed.

Lemma rsum_nil : rsum (@nil real) = 0%R.
Proof. reflexivity. Qed.

Lemma rsum_cons (x : real) (l : list real) : rsum (x :: l) = (x + rsum l)%R.
Proof.
  unfold rsum. to_R. simpl. rewrite fold_left_Rplus. simpl. ring.
Qed.

Lemma rsum_scale (k : real) (l : list real) :
  rsum (map (fun x => x * k)%sc l) = (rsum l * k)%R.
Proof.
  induction l as [| x l IH].
  - unfold rsum. simpl. ring.
  - cbn [map]. rewrite !rsum_cons, IH. to_R. ring.
Qed.

Lemma rmean_scale (k : real) (l : list real) :
  rmean (map (fun x => x * k)%sc l) = (rmean l * k)%R.
Proof.
  unfold rmean. rewrite rsum_scale, length_map. to_R. unfold Rdiv. ring.
Qed.

Lemma rsum_nonneg (l : list real) :
  Forall (fun x => 0 <= x)%R l -> (0 <= rsum l)%R.
Proof.
  induction 1 as [| x l Hx Hl IH].
  - unfold rsum. simpl. lra.
  - pose proof (rsum_cons x l) as E. to_R. lra.
Qed.

End ExactSums.

(** ** Rescaling *)

Ltac to_R :=
  cbn [real of_nat radd rsub rmul rdiv ropp rsqrt lit_0_1 lit_0_9 lit_1e_15
       finfo_eps exact r0 r1 r2 sq re im INR] in *.

Section RescaleFacts.

Context {S : Scalar} {L : Libraries}.

Lemma length_hd_shape2 {A} (a : matrix A) n m :
  has_shape2 a n m -> 0 < n -> length (hd [] a) = m.
Proof.
  intros [Hn Hall] Hpos. destruct a as [| row a]; simpl in *; [ lia | ].
  now inversion Hall.
Qed.

Lemma rat1_lmb_of (R_all : matrix real) n m c :
  has_shape2 R_all n m -> 0 < n -> c < m ->
  rat1 (lmb_of R_all) c = (r1 / rmean (column R_all c))%sc.
Proof.
  intros HR Hn Hc. unfold rat1, lmb_of.
  rewrite (length_hd_shape2 R_all n m HR Hn).
  exact (nth_tabulate m (fun c => (r1 / rmean (column R_all c))%sc) c r0 Hc).
Qed.

Lemma imap_ignore {A B} (f : A -> B) (l : list A) :
  imap (fun _ => f) l = map f l.
Proof.
  induction l as [| x l IH]; [ reflexivity | ].
  simpl. f_equal. exact IH.
Qed.

Lemma column_inplace2 (g : nat -> real -> real) (a : matrix real) n m c :
  has_shape2 a n m -> c < m ->
  column (inplace2 (fun _ => g) a) c = map (g c) (column a c).
Proof.
  intros [Hn Hall] Hc. unfold column, inplace2.
  change (imap (fun i row => imap ((fun _ => g) i) row) a)
    with (imap (fun _ : nat => imap g) a).
  rewrite imap_ignore, !map_map.
  apply map_ext_in. intros row Hin.
  rewrite List.Forall_forall in Hall. specialize (Hall row Hin).
  apply (nth_imap g row c r0 r0). lia.
Qed.

End RescaleFacts.


Section RescaleSilentChannel.

#[local] Existing Instance binary64.
#[local] Existing Instance float_libraries.

(** C8 fails on binary64 for a signal with a silent channel that is not
    tied to the factorization.  A call with [n_src = 1] and seed 0 on a
    signal whose channel 1 is zero in every frame: the first sub-iteration
    returns, and after its rescale the mean over the frames of column 1 of
    [R_all] is not within 1e-6 of one.  The column holds the powers of the
    silent channel, all zero; its mean is zero, [lmb = 1. / 0] is infinite,
    and [R_all *= lmb] makes the column [0 * inf], a NaN: the division by
    the mean has no guard. *)
Theorem silent_channel_defeats_rescale :
  match first_sub_iteration args_one_source heap_silent_channel with
  | (Ok w, h') =>
      match array2 h' (var_R_all w) with
      | Some R_all =>
          PrimFloat.leb
            (PrimFloat.abs (rmean (column R_all 1) - 1)%float) 1e-6%float
          = false
      | None => False
      end
  | (Raise _, _) => False
  end.
Proof. vm_compute. reflexivity. Qed.

End RescaleSilentChannel.

(** ** Sums and means of positive numbers *)

Section ExactPositive.

#[local] Existing Instance exact.
Context {L : Libraries}.

Lemma rsum_positive (l : list real) :
  l <> [] -> Forall (fun x => 0 < x)%R l -> (0 < rsum l)%R.
Proof.
  intros Hne Hall. destruct l as [| x l]; [ congruence | ].
  inversion Hall as [| ? ? Hx Hl]; subst.
  pose proof (rsum_cons x l) as E. to_R.
  assert (0 <= rsum l)%R.
  { apply rsum_nonneg. eapply Forall_impl; [ exact Hl | ].
    intros y Hy. simpl in Hy. lra. }
  lra.
Qed.

Lemma rmean_positive (l : list real) :
  l <> [] -> Forall (fun x => 0 < x)%R l -> (0 < rmean l)%R.
Proof.
  intros Hne Hall. unfold rmean. to_R.
  apply Rdiv_lt_0_compat; [ now apply rsum_positive | ].
  apply lt_0_INR. destruct l; [ congruence | simpl; lia ].
Qed.

Lemma column_positive (A : matrix real) n_frames n_chan c :
  has_shape2 A n_frames n_chan -> 0 < n_frames ->
  (forall n, n < n_frames -> (0 < rat2 A n c)%R) ->
  column A c <> [] /\ Forall (fun x => 0 < x)%R (column A c).
Proof.
  intros [Hn Hall] Hpos Hent. split.
  - unfold column. destruct A; simpl in *; [ lia | congruence ].
  - unfold column. apply List.Forall_forall. intros x Hx.
    apply in_map_iff in Hx. destruct Hx as (row & <- & Hin).
    apply (In_nth _ _ []) in Hin. destruct Hin as (n & Hlt & <-).
    apply (Hent n). lia.
Qed.

End ExactPositive.


(** ** The floors of the factorization *)

Section FloorsDeadSensor.

#[local] Existing Instance binary64.
#[local] Existing Instance float_libraries.

(** C3 fails on binary64 for a sensor that reads zero in every frame.  A
    call on a signal of two frames, one frequency and two channels, with the
    sensor matrix [[1, 0], [2, 0]], seed 0 and [return_filters], returns;
    and no entry [x] of the returned [G] and [R_all] satisfies [eps <= x]:
    the dead column makes [U_hat] zero there, [U_hat_I] infinite and the
    update [0 * inf], a NaN, which the floors [G[G < eps] = eps] and
    [R[R < eps] = eps] leave in place, and which spreads to every entry. *)
Theorem dead_sensor_defeats_floors :
  match blinkiva_gauss args_all_sources heap_dead_sensor with
  | (Ok (ReturnFilters lY lW lG lR_all), h') =>
      match array2 h' lG, array2 h' lR_all with
      | Some G, Some R_all =>
          shape2 G = (2, 2) /\ shape2 R_all = (2, 2) /\
          forallb (forallb (fun x => negb (PrimFloat.leb finfo_eps x))) G
          = true /\
          forallb (forallb (fun x => negb (PrimFloat.leb finfo_eps x))) R_all
          = true
      | _, _ => False
      end
  | _ => False
  end.
Proof. vm_compute. repeat split; reflexivity. Qed.

End FloorsDeadSensor.


(** ** The demixing-matrix update *)

Section Solver.

Context {S : Scalar} {L : Libraries}.

Lemma tabulate_ext {A} n (f g : nat -> A) :
  (forall i, i < n -> f i = g i) -> tabulate n f = tabulate n g.
Proof.
  intros H. unfold tabulate. apply map_ext_in. intros i Hi.
  apply H. apply in_seq in Hi. lia.
Qed.

Lemma quadratic_form_ext n Vfs (w w' : nat -> complex) :
  (forall i, i < n -> w i = w' i) ->
  quadratic_form n Vfs w = quadratic_form n Vfs w'.
Proof.
  intros H. unfold quadratic_form. f_equal. apply tabulate_ext.
  intros i Hi. rewrite (H i Hi). f_equal. f_equal. apply tabulate_ext.
  intros j Hj. now rewrite (H j Hj).
Qed.

Lemma solve_each_Some n_chan V W s fs :
  (forall f, In f fs -> active V s f = true ->
     linalg_solve (WV_of n_chan V W s f) (basis n_chan s) <> None) ->
  solve_each n_chan V W s fs = Some (map (solution n_chan V W s) fs).
Proof.
  induction fs as [| f fs IH]; intros H; [ reflexivity | ].
  simpl. unfold solution at 1.
  rewrite IH by (intros f' Hf'; apply H; now right).
  destruct (active V s f) eqn:Ha; [ | reflexivity ].
  destruct (linalg_solve _ _) eqn:Hs; [ reflexivity | ].
  exfalso. apply (H f); [ now left | exact Ha | exact Hs ].
Qed.

Lemma nth_solutions n_chan V W s n_freq f :
  f < n_freq ->
  nth f (map (solution n_chan V W s) (seq 0 n_freq)) None
  = solution n_chan V W s f.
Proof.
  intros Hf.
  rewrite (nth_indep _ None (solution n_chan V W s 0))
    by (now rewrite length_map, length_seq).
  rewrite (map_nth (solution n_chan V W s) (seq 0 n_freq) 0 f), seq_nth
    by exact Hf.
  reflexivity.
Qed.

Lemma system_matrix_routine n W V f s :
  system_matrix n W V f s
  = matmul n (hermitian n (nth f W [])) (nth s (nth f V []) []).
Proof.
  unfold system_matrix, matmul, tabulate2. apply tabulate_ext. intros i Hi.
  apply tabulate_ext. intros j Hj. f_equal. apply tabulate_ext. intros k Hk.
  f_equal. unfold hermitian, tabulate2, cat2 at 1.
  rewrite (nth_tabulate n _ i []) by exact Hi. now rewrite nth_tabulate.
Qed.

Lemma update_column_effect (n_freq n_chan : nat)
    (V : tensor4 complex) (lW : loc) (s : nat) (h : heap)
    (W : tensor3 complex) :
  array3 h lW = Some W ->
  has_shape3 W n_freq n_chan n_chan ->
  s < n_chan ->
  (forall f, f < n_freq -> active V s f = true ->
     linalg_solve (system_matrix n_chan W V f s) (unit_vector n_chan s)
     <> None) ->
  exists (W' : tensor3 complex) (h' : heap),
    update_column n_freq n_chan V lW s h = (Ok tt, h') /\
    array3 h' lW = Some W' /\
    has_shape3 W' n_freq n_chan n_chan /\
    (forall f, f < n_freq -> active V s f = true ->
       exists w : vector complex,
         linalg_solve (system_matrix n_chan W V f s) (unit_vector n_chan s)
         = Some w /\
         forall i, i < n_chan ->
           cat3 W' f i s
           = cdiv (cat1 w i)
                  (csqrt (hermitian_form n_chan (cat4 V f s) (cat1 w)))) /\
    (forall f i, f < n_freq -> i < n_chan -> active V s f = false ->
       cat3 W' f i s = cat3 W f i s) /\
    (forall f i j, f < n_freq -> i < n_chan -> j < n_chan -> j <> s ->
       cat3 W' f i j = cat3 W f i j).
Proof.
  intros HW SW Hs Hsolv.
  assert (Hsolv' : forall f, f < n_freq -> active V s f = true ->
            linalg_solve (WV_of n_chan V W s f) (basis n_chan s) <> None).
  { intros f Hf Ha. unfold WV_of. rewrite <- system_matrix_routine.
    exact (Hsolv f Hf Ha). }
  set (sols := map (solution n_chan V W s) (seq 0 n_freq)).
  set (W1 := assign_column s sols W).
  assert (SW1 : has_shape3 W1 n_freq n_chan n_chan)
    by (apply has_shape3_inplace3; exact SW).
  exists (normalise_column n_chan V s W1).
  unfold update_column.
  erewrite bind_run by (apply load3_run; exact HW).
  rewrite (solve_each_Some n_chan V W s (seq 0 n_freq)).
  2:{ intros f Hf Ha. apply Hsolv'; [ | exact Ha ]. apply in_seq in Hf. lia. }
  fold sols.
  erewrite bind_run by apply store3_ok. fold W1.
  set (h1 := snd (store3 lW W1 h)).
  assert (HW1 : array3 h1 lW = Some W1)
    by (eapply array3_store3_eq; exact HW).
  erewrite bind_run by (apply load3_run; exact HW1).
  exists (snd (store3 lW (normalise_column n_chan V s W1) h1)).
  split; [ apply store3_ok | ].
  split; [ eapply array3_store3_eq; exact HW1 | ].
  split; [ apply has_shape3_inplace3; exact SW1 | ].
  assert (E1 : forall f i j, f < n_freq -> i < n_chan -> j < n_chan ->
            cat3 W1 f i j
            = if j =? s then
                match solution n_chan V W s f with
                | Some v => cat1 v i
                | None => cat3 W f i j
                end
              else cat3 W f i j).
  { intros f i j Hf Hi Hj. unfold W1, assign_column.
    destruct (has_shape3_lengths W n_freq n_chan n_chan f i SW Hf Hi)
      as (H1 & H2 & H3).
    rewrite cat3_inplace3 by (try assumption; lia).
    unfold sols. rewrite nth_solutions by exact Hf. reflexivity. }
  assert (E2 : forall f i j, f < n_freq -> i < n_chan -> j < n_chan ->
            cat3 (normalise_column n_chan V s W1) f i j
            = if (j =? s) && active V s f then
                cdiv (cat3 W1 f i j)
                  (csqrt (quadratic_form n_chan (nth s (nth f V []) [])
                            (fun k => cat3 W1 f k s)))
              else cat3 W1 f i j).
  { intros f i j Hf Hi Hj. unfold normalise_column.
    destruct (has_shape3_lengths W1 n_freq n_chan n_chan f i SW1 Hf Hi)
      as (H1 & H2 & H3).
    rewrite cat3_inplace3 by (try assumption; lia). reflexivity. }
  split; [ | split ].
  - intros f Hf Ha.
    destruct (linalg_solve (system_matrix n_chan W V f s)
                (unit_vector n_chan s))
      as [w |] eqn:Hw; [ | exfalso; now apply (Hsolv f Hf Ha) ].
    exists w. split; [ reflexivity | ].
    assert (Esol : solution n_chan V W s f = Some w).
    { unfold solution, WV_of. rewrite Ha, <- system_matrix_routine.
      exact Hw. }
    intros i Hi. rewrite (E2 f i s Hf Hi Hs), Nat.eqb_refl, Ha. simpl.
    rewrite (E1 f i s Hf Hi Hs), Nat.eqb_refl, Esol. f_equal. f_equal.
    change (hermitian_form n_chan (cat4 V f s) (cat1 w))
      with (quadratic_form n_chan (nth s (nth f V []) []) (cat1 w)).
    apply quadratic_form_ext. intros k Hk.
    now rewrite (E1 f k s Hf Hk Hs), Nat.eqb_refl, Esol.
  - intros f i Hf Hi Ha.
    rewrite (E2 f i s Hf Hi Hs), Ha, andb_false_r.
    rewrite (E1 f i s Hf Hi Hs), Nat.eqb_refl.
    unfold solution. now rewrite Ha.
  - intros f i j Hf Hi Hj Hne.
    rewrite (E2 f i j Hf Hi Hj), (E1 f i j Hf Hi Hj).
    destruct (Nat.eqb_spec j s) as [-> | _]; [ congruence | reflexivity ].
Qed.

(** C5, as amended.  The update of column [s] of a demixing matrix [W] of
    shape (n_freq, n_chan, n_chan), with an auxiliary variable [V] of shape
    (n_freq, n_chan, n_chan, n_chan): when [np.linalg.solve] returns for the
    system of every active frequency, the update returns; at every active
    frequency [f] it hands the solver the matrix [W[f]^H V[f,s]] and the
    right-hand side [e_s], and with the solver's answer [w] the new column is
    [W[f,:,s] = w / sqrt(w^H V[f,s] w)], without conjugation; at the other
    frequencies, and in the other columns, [W] is unchanged.  Nothing is
    assumed of the solver's answer. *)
Theorem update_column_postcondition (n_freq n_chan : nat)
    (V : tensor4 complex) (lW : loc) (s : nat) (h : heap)
    (W : tensor3 complex) :
  array3 h lW = Some W ->
  has_shape3 W n_freq n_chan n_chan ->
  has_shape4 V n_freq n_chan n_chan n_chan ->
  s < n_chan ->
  (forall f, f < n_freq -> active V s f = true ->
     linalg_solve (system_matrix n_chan W V f s) (unit_vector n_chan s)
     <> None) ->
  exists (W' : tensor3 complex) (h' : heap),
    update_column n_freq n_chan V lW s h = (Ok tt, h') /\
    array3 h' lW = Some W' /\
    has_shape3 W' n_freq n_chan n_chan /\
    (forall f, f < n_freq -> active V s f = true ->
       exists w : vector complex,
         linalg_solve (system_matrix n_chan W V f s) (unit_vector n_chan s)
         = Some w /\
         forall i, i < n_chan ->
           cat3 W' f i s
           = cdiv (cat1 w i)
                  (csqrt (hermitian_form n_chan (cat4 V f s) (cat1 w)))) /\
    (forall f i, f < n_freq -> i < n_chan -> active V s f = false ->
       cat3 W' f i s = cat3 W f i s) /\
    (forall f i j, f < n_freq -> i < n_chan -> j < n_chan -> j <> s ->
       cat3 W' f i j = cat3 W f i j).
Proof.
  intros HW SW _ Hs Hsolv.
  exact (update_column_effect n_freq n_chan V lW s h W HW SW Hs Hsolv).
Qed.

End Solver.

(** ** Complex numbers over the reals *)

Lemma Cx_eq {S : Scalar} (a b : complex) :
  re a = re b -> im a = im b -> a = b.
Proof. destruct a, b. simpl. intros -> ->. reflexivity. Qed.

Ltac eqR :=
  match goal with |- @eq _ ?x ?y => change (@eq R x y) end.

Ltac cx := apply Cx_eq; cbn [re im cadd cmul conj of_real c0 c1 cdiv];
           to_R; eqR; first [ reflexivity | ring | idtac ].

Section ExactComplex.

#[local] Existing Instance exact.

Lemma cadd_comm a b : cadd a b = cadd b a.
Proof. cx. Qed.

Lemma cadd_assoc a b c : cadd a (cadd b c) = cadd (cadd a b) c.
Proof. cx. Qed.

Lemma cadd_0_l a : cadd c0 a = a.
Proof. cx. Qed.

Lemma cadd_0_r a : cadd a c0 = a.
Proof. cx. Qed.

Lemma cmul_comm a b : cmul a b = cmul b a.
Proof. cx. Qed.

Lemma cmul_assoc a b c : cmul a (cmul b c) = cmul (cmul a b) c.
Proof. cx. Qed.

Lemma cmul_0_l a : cmul c0 a = c0.
Proof. cx. Qed.

Lemma cmul_0_r a : cmul a c0 = c0.
Proof. cx. Qed.

Lemma cmul_1_r a : cmul a c1 = a.
Proof. cx. Qed.

Lemma cmul_add_r a b c : cmul a (cadd b c) = cadd (cmul a b) (cmul a c).
Proof. cx. Qed.

Lemma cmul_add_l a b c : cmul (cadd a b) c = cadd (cmul a c) (cmul b c).
Proof. cx. Qed.

Lemma conj_add a b : conj (cadd a b) = cadd (conj a) (conj b).
Proof. cx. Qed.

Lemma conj_mul a b : conj (cmul a b) = cmul (conj a) (conj b).
Proof. cx. Qed.

Lemma conj_conj a : conj (conj a) = a.
Proof. cx. Qed.

Lemma conj_of_real x : conj (of_real x) = of_real x.
Proof. cx. Qed.

Lemma conj_0 : conj c0 = c0.
Proof. cx. Qed.

Lemma of_real_mul x y : cmul (of_real x) (of_real y) = of_real (x * y)%R.
Proof. cx. Qed.

Lemma cmul_conj_self a :
  cmul (conj a) a = of_real (re a * re a + im a * im a)%R.
Proof. cx. Qed.

(** Dividing by a real number is multiplying by its inverse (also by
    zero, whose inverse is zero in [R]). *)
Lemma cdiv_of_real a (d : real) : cdiv a (of_real d) = cmul a (of_real (/ d)%R).
Proof.
  apply Cx_eq; cbn [re im cadd cmul conj of_real c0 c1 cdiv]; to_R.
  - destruct (Req_dec d 0) as [-> | Hd].
    + unfold Rdiv. rewrite !Rmult_0_r, Rplus_0_l, Rinv_0. simpl. ring.
    + simpl. field. exact Hd.
  - destruct (Req_dec d 0) as [-> | Hd].
    + unfold Rdiv. rewrite !Rmult_0_r, Rplus_0_l, Rinv_0. simpl. ring.
    + simpl. field. exact Hd.
Qed.

(** The principal square root of a positive real number. *)
Lemma csqrt_of_real (r : real) :
  (0 < r)%R -> csqrt (of_real r) = of_real (R_sqrt.sqrt r).
Proof.
  intros Hr. unfold csqrt, of_real. cbn [re im]. to_R.
  unfold rltb. cbn [exact].
  destruct (Rlt_dec _ _) as [Hlt | _]; [ simpl in Hlt; lra | ].
  simpl.
  assert (E : R_sqrt.sqrt (r * r + 0 * 0) = r).
  { replace (r * r + 0 * 0)%R with (r * r)%R by ring.
    apply sqrt_square. lra. }
  rewrite E. f_equal.
  - f_equal. field.
  - replace ((r - r) / (1 + 1))%R with 0%R by field. apply sqrt_0.
Qed.

End ExactComplex.

(** ** Finite sums of complex numbers *)

Section Sums.

Context {S : Scalar}.

Lemma tabulate_S {A} n (f : nat -> A) :
  tabulate (Datatypes.S n) f = tabulate n f ++ [f n].
Proof. unfold tabulate. rewrite seq_S, map_app. reflexivity. Qed.

Lemma csum_tabulate_0 (f : nat -> complex) : csum (tabulate 0 f) = c0.
Proof. reflexivity. Qed.

Lemma rsum_tabulate_0 (f : nat -> real) : rsum (tabulate 0 f) = r0.
Proof. reflexivity. Qed.

Lemma csum_tabulate_S n (f : nat -> complex) :
  csum (tabulate (Datatypes.S n) f) = cadd (csum (tabulate n f)) (f n).
Proof. unfold csum. rewrite tabulate_S, fold_left_app. reflexivity. Qed.

Lemma rsum_tabulate_S n (f : nat -> real) :
  rsum (tabulate (Datatypes.S n) f) = (rsum (tabulate n f) + f n)%sc.
Proof. unfold rsum. rewrite tabulate_S, fold_left_app. reflexivity. Qed.

Lemma csum_ext n (f g : nat -> complex) :
  (forall i, i < n -> f i = g i) ->
  csum (tabulate n f) = csum (tabulate n g).
Proof. intros H. f_equal. now apply tabulate_ext. Qed.

End Sums.

Section ExactSumsComplex.

#[local] Existing Instance exact.

Lemma csum_add n (f g : nat -> complex) :
  csum (tabulate n (fun i => cadd (f i) (g i)))
  = cadd (csum (tabulate n f)) (csum (tabulate n g)).
Proof.
  induction n as [| n IH].
  - rewrite ?csum_tabulate_0, ?rsum_tabulate_0. cx.
  - rewrite !csum_tabulate_S, IH. cx.
Qed.

Lemma csum_mul_l n c (f : nat -> complex) :
  csum (tabulate n (fun i => cmul c (f i))) = cmul c (csum (tabulate n f)).
Proof.
  induction n as [| n IH].
  - rewrite ?csum_tabulate_0, ?rsum_tabulate_0. cx.
  - rewrite !csum_tabulate_S, IH. cx.
Qed.

Lemma csum_mul_r n c (f : nat -> complex) :
  csum (tabulate n (fun i => cmul (f i) c)) = cmul (csum (tabulate n f)) c.
Proof.
  induction n as [| n IH].
  - rewrite ?csum_tabulate_0, ?rsum_tabulate_0. cx.
  - rewrite !csum_tabulate_S, IH. cx.
Qed.

Lemma csum_zero n : csum (tabulate n (fun _ => c0)) = c0.
Proof.
  induction n as [| n IH].
  - reflexivity.
  - rewrite csum_tabulate_S, IH. cx.
Qed.

Lemma csum_conj n (f : nat -> complex) :
  conj (csum (tabulate n f)) = csum (tabulate n (fun i => conj (f i))).
Proof.
  induction n as [| n IH].
  - rewrite ?csum_tabulate_0, ?rsum_tabulate_0. cx.
  - rewrite !csum_tabulate_S, conj_add, IH. reflexivity.
Qed.

Lemma csum_exchange n m (f : nat -> nat -> complex) :
  csum (tabulate n (fun i => csum (tabulate m (fun j => f i j))))
  = csum (tabulate m (fun j => csum (tabulate n (fun i => f i j)))).
Proof.
  induction n as [| n IH].
  - rewrite csum_tabulate_0. symmetry.
    rewrite (csum_ext m _ (fun _ => c0)) by (intros; apply csum_tabulate_0).
    apply csum_zero.
  - rewrite csum_tabulate_S, IH.
    rewrite <- csum_add. apply csum_ext. intros j Hj.
    now rewrite csum_tabulate_S.
Qed.

Lemma csum_of_real n (g : nat -> real) :
  csum (tabulate n (fun i => of_real (g i))) = of_real (rsum (tabulate n g)).
Proof.
  induction n as [| n IH].
  - rewrite ?csum_tabulate_0, ?rsum_tabulate_0. cx.
  - rewrite csum_tabulate_S, rsum_tabulate_S, IH. cx.
Qed.

Lemma rsum_tabulate_nonneg n (g : nat -> real) :
  (forall i, i < n -> (0 <= g i)%R) -> (0 <= rsum (tabulate n g))%R.
Proof.
  intros H. induction n as [| n IH].
  - unfold rsum. simpl. lra.
  - rewrite rsum_tabulate_S. to_R.
    assert (0 <= rsum (tabulate n g))%R by (apply IH; intros; apply H; lia).
    pose proof (H n (Nat.lt_succ_diag_r n)). lra.
Qed.

(** A sum of non-negative terms that is zero has all its terms zero. *)
Lemma rsum_tabulate_zero n (g : nat -> real) :
  (forall i, i < n -> (0 <= g i)%R) -> rsum (tabulate n g) = 0%R ->
  forall i, i < n -> g i = 0%R.
Proof.
  intros H. induction n as [| n IH]; intros Hz i Hi; [ lia | ].
  rewrite rsum_tabulate_S in Hz. to_R.
  assert (H1 : (0 <= rsum (tabulate n g))%R)
    by (apply rsum_tabulate_nonneg; intros; apply H; lia).
  pose proof (H n (Nat.lt_succ_diag_r n)) as H2.
  destruct (Nat.eq_dec i n) as [-> | Hne].
  - lra.
  - apply IH; [ intros; apply H; lia | lra | lia ].
Qed.

End ExactSumsComplex.

(** ** The quadratic form of the auxiliary covariance *)

Section ExactQuadratic.

#[local] Existing Instance exact.

Lemma covariance_times_vector N n_chan x t w i :
  csum (tabulate n_chan (fun j => cmul (covariance_entry N x t i j) (w j)))
  = cmul (of_real (r1 / of_nat N)%sc)
      (csum (tabulate N (fun n =>
         cmul (cmul (x n i) (of_real (t n))) (correlation n_chan x w n)))).
Proof.
  unfold covariance_entry, correlation.
  rewrite (csum_ext n_chan _ (fun j =>
     csum (tabulate N (fun n =>
       cmul (cmul (of_real (r1 / of_nat N)%sc)
                  (cmul (x n i) (of_real (t n))))
            (cmul (conj (x n j)) (w j)))))).
  2:{ intros j Hj. rewrite <- csum_mul_r.
      rewrite <- (csum_mul_r N (w j)). apply csum_ext. intros n Hn. cx. }
  rewrite csum_exchange. rewrite <- csum_mul_l. apply csum_ext.
  intros n Hn. rewrite csum_mul_l. cx.
Qed.

Lemma abs2_value (a : complex) : abs2 a = (re a * re a + im a * im a)%R.
Proof. unfold abs2. cbn [re im cmul conj]. to_R. eqR. ring. Qed.

Lemma abs2_nonneg (a : complex) : (0 <= abs2 a)%R.
Proof. rewrite abs2_value. nra. Qed.

Lemma abs2_zero (a : complex) : abs2 a = 0%R -> a = c0.
Proof.
  rewrite abs2_value. intros H. apply Cx_eq; cbn [re im c0 of_real]; to_R;
    eqR; nra.
Qed.

Lemma cmul_conj_abs2 (a : complex) : cmul (conj a) a = of_real (abs2 a).
Proof. rewrite abs2_value. apply cmul_conj_self. Qed.

Lemma conj_correlation n_chan x w n :
  conj (correlation n_chan x w n)
  = csum (tabulate n_chan (fun i => cmul (conj (w i)) (x n i))).
Proof.
  unfold correlation. rewrite csum_conj. apply csum_ext. intros i Hi. cx.
Qed.

(** The quadratic form of a weighted covariance is real: it is the mean of
    the weighted squared correlations. *)
Lemma quadratic_form_covariance N n_chan Vfs x t w :
  (forall i j, i < n_chan -> j < n_chan ->
     cat2 Vfs i j = covariance_entry N x t i j) ->
  quadratic_form n_chan Vfs w
  = of_real (rsum (tabulate N (fun n =>
               (r1 / of_nat N * (t n * abs2 (correlation n_chan x w n)))%sc))).
Proof.
  intros HV. unfold quadratic_form.
  rewrite (csum_ext n_chan _ (fun i =>
     csum (tabulate N (fun n =>
       cmul (cmul (of_real (r1 / of_nat N)%sc)
                  (cmul (of_real (t n)) (correlation n_chan x w n)))
            (cmul (conj (w i)) (x n i)))))).
  2:{ intros i Hi.
      rewrite (csum_ext n_chan _
                 (fun j => cmul (covariance_entry N x t i j) (w j)))
        by (intros j Hj; now rewrite HV).
      rewrite covariance_times_vector.
      rewrite <- csum_mul_l. rewrite <- csum_mul_l.
      apply csum_ext. intros n Hn. cx. }
  rewrite csum_exchange. rewrite <- csum_of_real. apply csum_ext.
  intros n Hn. rewrite csum_mul_l, <- conj_correlation.
  to_R. rewrite <- !of_real_mul, <- cmul_conj_abs2. cx.
Qed.

Lemma covariance_times_vector_zero N n_chan x t w i :
  (forall n, n < N -> correlation n_chan x w n = c0) ->
  csum (tabulate n_chan (fun j => cmul (covariance_entry N x t i j) (w j)))
  = c0.
Proof.
  intros Hz. rewrite covariance_times_vector.
  rewrite (csum_ext N _ (fun _ => c0)).
  - rewrite csum_zero. apply cmul_0_r.
  - intros n Hn. rewrite (Hz n Hn). apply cmul_0_r.
Qed.

Lemma cat2_matmul n (A B : matrix complex) i j :
  i < n -> j < n ->
  cat2 (matmul n A B) i j
  = csum (tabulate n (fun k => cmul (cat2 A i k) (cat2 B k j))).
Proof.
  intros Hi Hj. unfold cat2, matmul, tabulate2.
  rewrite (nth_tabulate n _ i []) by exact Hi.
  now rewrite (nth_tabulate n _ j c0) by exact Hj.
Qed.

Lemma cat1_mat_vec n (A : matrix complex) (w : vector complex) i :
  i < n ->
  cat1 (mat_vec n A w) i
  = csum (tabulate n (fun k => cmul (cat2 A i k) (cat1 w k))).
Proof. intros Hi. unfold cat1 at 1, mat_vec. now rewrite nth_tabulate. Qed.

Lemma cat1_basis n s i :
  i < n -> cat1 (basis n s) i = if i =? s then c1 else c0.
Proof. intros Hi. unfold cat1, basis. now rewrite nth_tabulate. Qed.

Lemma c1_neq_c0 : c1 <> c0.
Proof.
  intros H. apply (f_equal re) in H. cbn [re c1 c0 of_real] in H. to_R. lra.
Qed.

(** If [(A V) w = e_s] then [V w] is not zero, so that some frame
    correlates with [w]. *)
Lemma system_excludes_zero N n_chan (A Vfs : matrix complex)
    (x : nat -> nat -> complex) (t : nat -> real)
    (wv : vector complex) s :
  (forall i j, i < n_chan -> j < n_chan ->
     cat2 Vfs i j = covariance_entry N x t i j) ->
  s < n_chan ->
  mat_vec n_chan (matmul n_chan A Vfs) wv = basis n_chan s ->
  ~ (forall n, n < N -> correlation n_chan x (cat1 wv) n = c0).
Proof.
  intros HV Hs Hsys Hz.
  assert (E : cat1 (mat_vec n_chan (matmul n_chan A Vfs) wv) s = c1).
  { rewrite Hsys, cat1_basis by exact Hs. now rewrite Nat.eqb_refl. }
  rewrite cat1_mat_vec in E by exact Hs.
  rewrite (csum_ext n_chan _ (fun k =>
     csum (tabulate n_chan (fun m =>
       cmul (cat2 A s m) (cmul (covariance_entry N x t m k) (cat1 wv k))))))
    in E.
  2:{ intros k Hk. rewrite cat2_matmul by assumption.
      rewrite <- csum_mul_r. apply csum_ext. intros m Hm.
      rewrite HV by assumption. cx. }
  rewrite csum_exchange in E.
  rewrite (csum_ext n_chan _ (fun _ => c0)) in E.
  2:{ intros m Hm. rewrite csum_mul_l.
      rewrite (covariance_times_vector_zero N n_chan x t (cat1 wv) m Hz).
      apply cmul_0_r. }
  rewrite csum_zero in E. symmetry in E. exact (c1_neq_c0 E).
Qed.

(** The normalisation: a solution [w] of [(A V) w = e_s], divided by
    [sqrt(w^H V w)], has the quadratic form one. *)
Lemma normalised_solution N n_chan (A Vfs : matrix complex)
    (x : nat -> nat -> complex) (t : nat -> real)
    (wv : vector complex) s :
  0 < N ->
  (forall n, n < N -> (0 < t n)%R) ->
  (forall i j, i < n_chan -> j < n_chan ->
     cat2 Vfs i j = covariance_entry N x t i j) ->
  s < n_chan ->
  mat_vec n_chan (matmul n_chan A Vfs) wv = basis n_chan s ->
  quadratic_form n_chan Vfs
    (fun i => cdiv (cat1 wv i)
                   (csqrt (quadratic_form n_chan Vfs (cat1 wv))))
  = c1.
Proof.
  intros HN Ht HV Hs Hsys.
  set (w := cat1 wv).
  set (g := fun n => (r1 / of_nat N * (t n * abs2 (correlation n_chan x w n)))%sc).
  set (r := rsum (tabulate N g)).
  assert (Hq : quadratic_form n_chan Vfs w = of_real r)
    by (apply quadratic_form_covariance; exact HV).
  assert (HcN : (0 < 1 / INR N)%R).
  { apply Rdiv_lt_0_compat; [ lra | apply lt_0_INR; exact HN ]. }
  assert (Hg : forall n, n < N -> (0 <= g n)%R).
  { intros n Hn. unfold g. to_R. pose proof (Ht n Hn).
    pose proof (abs2_nonneg (correlation n_chan x w n)).
    apply Rmult_le_pos; [ lra | apply Rmult_le_pos; lra ]. }
  assert (Hr : (0 < r)%R).
  { assert (H0 : (0 <= r)%R) by (apply rsum_tabulate_nonneg; exact Hg).
    destruct (Req_dec r 0) as [Hz | Hnz]; [ | lra ].
    exfalso. apply (system_excludes_zero N n_chan A Vfs x t wv s HV Hs Hsys).
    intros n Hn. apply abs2_zero.
    pose proof (rsum_tabulate_zero N g Hg Hz n Hn) as E. unfold g in E.
    to_R. pose proof (Ht n Hn) as Htn.
    pose proof (abs2_nonneg (correlation n_chan x w n)) as Ha.
    fold w.
    apply Rmult_integral in E. destruct E as [E | E]; [ lra | ].
    apply Rmult_integral in E. destruct E as [E | E]; [ lra | exact E ]. }
  rewrite Hq, csqrt_of_real by exact Hr.
  assert (Hs0 : (0 < R_sqrt.sqrt r)%R) by (apply sqrt_lt_R0; exact Hr).
  rewrite (quadratic_form_ext n_chan Vfs _
             (fun i => cmul (w i) (@of_real exact (/ R_sqrt.sqrt r)%R)))
    by (intros i Hi; apply cdiv_of_real).
  unfold quadratic_form.
  rewrite (csum_ext n_chan _ (fun i =>
     cmul (@of_real exact (/ R_sqrt.sqrt r * / R_sqrt.sqrt r)%R)
       (cmul (conj (w i))
          (csum (tabulate n_chan (fun j => cmul (cat2 Vfs i j) (w j))))))).
  2:{ intros i Hi.
      rewrite (csum_ext n_chan _ (fun j =>
         cmul (cmul (cat2 Vfs i j) (w j))
              (@of_real exact (/ R_sqrt.sqrt r)%R)))
        by (intros j Hj; cx).
      rewrite csum_mul_r. cx. }
  rewrite csum_mul_l. fold (quadratic_form n_chan Vfs w). rewrite Hq.
  rewrite of_real_mul. unfold c1. f_equal. to_R. eqR.
  rewrite <- (sqrt_sqrt r) at 3 by lra. field. lra.
Qed.

End ExactQuadratic.

(** ** The normalisation of the updated column *)

Section ExactNormalisation.

#[local] Existing Instance exact.
Context {L : Libraries}.

Lemma rat2_map2d (g : real -> real) (A : matrix real) n_frames n_chan n c :
  has_shape2 A n_frames n_chan -> n < n_frames -> c < n_chan ->
  rat2 (map2d g A) n c = g (rat2 A n c).
Proof.
  intros SA Hn Hc. unfold rat2, map2d.
  destruct (has_shape2_lengths A n_frames n_chan n SA Hn) as [H1 H2].
  rewrite (nth_indep _ [] (map g [])) by (rewrite length_map; lia).
  rewrite (map_nth (map g) A [] n).
  rewrite (nth_indep _ r0 (g r0)) by (rewrite length_map; lia).
  apply (map_nth g).
Qed.

(** The weight of frame [n] in the covariance of source [s]. *)
Lemma cat2_auxiliary n_frames n_freq n_chan (X : tensor3 complex)
    (R_all : matrix real) f s i j :
  has_shape2 R_all n_frames n_chan ->
  f < n_freq -> s < n_chan -> i < n_chan -> j < n_chan ->
  cat2 (nth s (nth f (auxiliary n_frames n_freq n_chan X R_all) []) []) i j
  = covariance_entry n_frames (fun n k => cat3 X n f k)
      (fun n => (/ (lit_1e_15 + r2 * rat2 R_all n s))%R) i j.
Proof.
  intros SR Hf Hs Hi Hj. unfold auxiliary, cat2, tabulate2. cbv zeta.
  rewrite (nth_tabulate n_freq _ f) by exact Hf. cbv beta.
  rewrite (nth_tabulate n_chan _ s) by exact Hs. cbv beta.
  rewrite (nth_tabulate n_chan _ i) by exact Hi. cbv beta.
  rewrite (nth_tabulate n_chan _ j) by exact Hj. cbv beta.
  unfold cmean, covariance_entry. rewrite length_tabulate, cdiv_of_real.
  f_equal.
  - apply csum_ext. intros n Hn. rewrite cdiv_of_real.
    rewrite (rat2_map2d _ R_all n_frames n_chan n s SR Hn Hs). reflexivity.
  - f_equal. to_R. eqR. unfold Rdiv. ring.
Qed.

Lemma weight_positive (R_all : matrix real) n s :
  (0 <= rat2 R_all n s)%R -> (0 < / (lit_1e_15 + r2 * rat2 R_all n s))%R.
Proof.
  intros H. apply Rinv_0_lt_compat. to_R.
  assert (0 < 1 / 10 ^ 15)%R.
  { apply Rdiv_lt_0_compat; [ lra | apply pow_lt; lra ]. }
  lra.
Qed.

(** X15. In exact arithmetic (the real numbers in place of binary64): when,
    at every active frequency, [np.linalg.solve] returns a vector [w] that
    solves [(W[f]^H V[f,s]) w = e_s], the update of column [s] against the
    auxiliary variable [V] built from [X] and a non-negative [R_all] returns,
    and at every active frequency [f] the quadratic form
    [W[f,:,s]^H V[f,s] W[f,:,s]] of the new column is exactly one. *)
Theorem update_normalises_in_exact_arithmetic (n_frames n_freq n_chan : nat)
    (X : tensor3 complex) (R_all : matrix real)
    (lW : loc) (s : nat) (h : heap) (W : tensor3 complex) :
  array3 h lW = Some W ->
  has_shape3 W n_freq n_chan n_chan ->
  has_shape3 X n_frames n_freq n_chan ->
  has_shape2 R_all n_frames n_chan ->
  (forall n c, n < n_frames -> c < n_chan -> (0 <= rat2 R_all n c)%R) ->
  0 < n_frames -> s < n_chan ->
  let V := auxiliary n_frames n_freq n_chan X R_all in
  (forall f, f < n_freq -> active V s f = true ->
     exists w : vector complex,
       linalg_solve (system_matrix n_chan W V f s) (unit_vector n_chan s)
       = Some w /\
       mat_vec n_chan (system_matrix n_chan W V f s) w
       = unit_vector n_chan s) ->
  exists (W' : tensor3 complex) (h' : heap),
    update_column n_freq n_chan V lW s h = (Ok tt, h') /\
    array3 h' lW = Some W' /\
    (forall f, f < n_freq -> active V s f = true ->
       hermitian_form n_chan (cat4 V f s) (fun i => cat3 W' f i s) = c1).
Proof.
  intros HW SW _ SR Hpos HN Hs V Hsolv.
  assert (Hsome : forall f, f < n_freq -> active V s f = true ->
            linalg_solve (system_matrix n_chan W V f s) (unit_vector n_chan s)
            <> None).
  { intros f Hf Ha. destruct (Hsolv f Hf Ha) as (w & -> & _). discriminate. }
  destruct (update_column_effect n_freq n_chan V lW s h W HW SW Hs Hsome)
    as (W' & h' & Hrun & HW' & _ & Hact & _ & _).
  exists W', h'. split; [ exact Hrun | ]. split; [ exact HW' | ].
  intros f Hf Ha. destruct (Hact f Hf Ha) as (w & Hw & Hcol).
  destruct (Hsolv f Hf Ha) as (w' & Hw' & Hsys).
  rewrite Hw in Hw'. inversion Hw'; subst w'. clear Hw'.
  change (hermitian_form n_chan (cat4 V f s) (fun i => cat3 W' f i s))
    with (quadratic_form n_chan (nth s (nth f V []) [])
            (fun i => cat3 W' f i s)).
  rewrite (quadratic_form_ext n_chan _ _
             (fun i => cdiv (cat1 w i)
                (csqrt (quadratic_form n_chan (nth s (nth f V []) [])
                          (cat1 w)))))
    by exact Hcol.
  rewrite system_matrix_routine in Hsys.
  apply (normalised_solution n_frames n_chan
           (hermitian n_chan (nth f W [])) (nth s (nth f V []) [])
           (fun n k => cat3 X n f k)
           (fun n => Rinv (Rplus (@lit_1e_15 exact)
                                 (Rmult (@r2 exact) (rat2 R_all n s)))) w s).
  - exact HN.
  - intros n Hn. apply weight_positive. now apply Hpos.
  - intros i j Hi Hj. unfold V. now apply cat2_auxiliary.
  - exact Hs.
  - exact Hsys.
Qed.

End ExactNormalisation.

(** ** Cramer's rule, and runs of the solver *)

Section SolverRun.

#[local] Existing Instance exact.
#[local] Existing Instance real_libraries.

Lemma is_zero_false (a : complex) :
  is_zero a = false -> (re a * re a + im a * im a <> 0)%R.
Proof.
  unfold is_zero, reqb. cbn [exact]. to_R.
  destruct (Req_dec_T (re a) 0) as [E1 | N1];
    destruct (Req_dec_T (im a) 0) as [E2 | N2]; simpl; intros H;
    try discriminate; nra.
Qed.

Lemma is_zero_true (a : complex) :
  is_zero a = true -> re a = 0%R /\ im a = 0%R.
Proof.
  unfold is_zero, reqb. cbn [exact]. to_R.
  destruct (Req_dec_T (re a) 0) as [E1 | N1];
    destruct (Req_dec_T (im a) 0) as [E2 | N2]; simpl; intros H;
    try discriminate; auto.
Qed.

(** On the real numbers, what Cramer's rule returns for a system of order
    two solves the system. *)
Lemma cramer_solves_2 (A : matrix complex) (b w : vector complex) :
  has_shape2 A 2 2 -> length b = 2 ->
  cramer_solve A b = Some w -> mat_vec 2 A w = b.
Proof.
  intros [HA Hrows] Hb Hsol.
  destruct A as [| r1 [| r2 [| ? ?]]]; try discriminate HA.
  inversion Hrows as [| ? ? Hr1 Hrows']; subst.
  inversion Hrows' as [| ? ? Hr2 _]; subst.
  destruct r1 as [| a11 [| a12 [| ? ?]]]; try discriminate Hr1.
  destruct r2 as [| a21 [| a22 [| ? ?]]]; try discriminate Hr2.
  destruct b as [| b1 [| b2 [| ? ?]]]; try discriminate Hb.
  cbn [cramer_solve] in Hsol.
  destruct (is_zero (det_small [[a11; a12]; [a21; a22]])) eqn:Hz;
    [ discriminate Hsol | ].
  apply is_zero_false in Hz. inversion Hsol; subst w. clear Hsol.
  destruct a11, a12, a21, a22, b1, b2.
  cbn [det_small csub cmul re im] in Hz. to_R.
  unfold mat_vec, tabulate, cat2, cat1, csum. simpl.
  f_equal; [ | f_equal ]; apply Cx_eq;
    cbn [re im cadd cmul cdiv csub c0 of_real]; to_R; eqR; field; exact Hz.
Qed.

End SolverRun.

Section SolverRunFloat.

#[local] Existing Instance binary64.
#[local] Existing Instance float_libraries.

Lemma update_column_postcondition_witness :
  exists (W' : tensor3 fcomplex) (h' : fheap),
    update_column 1 2 V_float_1_2_2_2 1 0 heap_2_1_2 = (Ok tt, h') /\
    array3 h' 1 = Some W' /\
    has_shape3 W' 1 2 2 /\
    (forall f, f < 1 -> active V_float_1_2_2_2 0 f = true ->
       exists w : vector fcomplex,
         linalg_solve (system_matrix 2 W0_1_2_2 V_float_1_2_2_2 f 0)
           (unit_vector 2 0)
         = Some w /\
         forall i, i < 2 ->
           cat3 W' f i 0
           = cdiv (cat1 w i)
                  (csqrt (hermitian_form 2 (cat4 V_float_1_2_2_2 f 0)
                            (cat1 w)))) /\
    (forall f i, f < 1 -> i < 2 -> active V_float_1_2_2_2 0 f = false ->
       cat3 W' f i 0 = cat3 W0_1_2_2 f i 0) /\
    (forall f i j, f < 1 -> i < 2 -> j < 2 -> j <> 0 ->
       cat3 W' f i j = cat3 W0_1_2_2 f i j).
Proof.
  apply (update_column_postcondition (L := float_libraries) 1 2
           V_float_1_2_2_2 1 0 heap_2_1_2 W0_1_2_2).
  - reflexivity.
  - split; [ reflexivity | repeat constructor ].
  - split; [ reflexivity | repeat constructor ].
  - lia.
  - intros f Hf _. destruct f as [| f]; [ | lia ].
    vm_compute. discriminate.
Defined.

(** C5 as stated fails where the solution is not real.  With [W = [[[i]]]]
    and [V = [[[[1]]]]] the system is [-i w = 1], its solution is [w = i],
    and the update leaves [W[0,0,0] = i]: the solution divided by
    [sqrt(w^H V w) = 1], and not its conjugate [-i]. *)
Lemma update_column_conjugate_counterexample :
  match update_column 1 1 V_float_one 0 0 heap_solver_float with
  | (Ok _, h') =>
      match array3 h' 0,
            linalg_solve (system_matrix 1 W_float_i V_float_one 0 0)
              (unit_vector 1 0) with
      | Some W', Some w =>
          let d := csqrt (hermitian_form 1 (cat4 V_float_one 0 0) (cat1 w)) in
          PrimFloat.eqb (im (cat3 W' 0 0 0)) (im (cdiv (conj (cat1 w 0)) d))
          = false /\
          PrimFloat.eqb (im (cat3 W' 0 0 0)) (im (cdiv (cat1 w 0) d)) = true
      | _, _ => False
      end
  | _ => False
  end.
Proof. vm_compute. split; reflexivity. Qed.


End SolverRunFloat.

Section NormalisationRun.

#[local] Existing Instance exact.
#[local] Existing Instance real_libraries.

Lemma normalisation_run_solvable :
  let V := auxiliary 2 1 2 X_real_2_1_2 R_all_real_2_2 in
  linalg_solve (system_matrix 2 W_real_1_2_2 V 0 0) (unit_vector 2 0) <> None.
Proof.
  intros V.
  assert (SR : has_shape2 R_all_real_2_2 2 2)
    by (split; [ reflexivity | repeat constructor ]).
  assert (EV : forall i j, i < 2 -> j < 2 ->
            cat4 V 0 0 i j
            = covariance_entry 2 (fun n k => cat3 X_real_2_1_2 n 0 k)
                (fun n => (/ (lit_1e_15 + r2 * rat2 R_all_real_2_2 n 0))%R)
                i j).
  { intros i j Hi Hj.
    apply (cat2_auxiliary 2 1 2 X_real_2_1_2 R_all_real_2_2 0 0 i j SR);
      lia. }
  assert (Ht0 : (0 < / (lit_1e_15 + r2 * rat2 R_all_real_2_2 0 0))%R).
  { apply weight_positive. unfold rat2. simpl. lra. }
  assert (Ht1 : (0 < / (lit_1e_15 + r2 * rat2 R_all_real_2_2 1 0))%R).
  { apply weight_positive. unfold rat2. simpl. lra. }
  cbn [linalg_solve real_libraries small_libraries].
  unfold system_matrix, unit_vector.
  cbn [tabulate2 tabulate seq map Nat.eqb].
  rewrite !EV by lia. clear EV.
  unfold cramer_solve.
  match goal with |- context [is_zero ?a] => destruct (is_zero a) eqn:Hz end;
    [ | discriminate ].
  exfalso. apply is_zero_true in Hz. destruct Hz as [Hre _].
  unfold covariance_entry in Hre.
  cbn [det_small csub tabulate seq map csum fold_left cat3 nth
       W_real_1_2_2 X_real_2_1_2 cadd cmul conj of_real c0 re im] in Hre.
  match type of Ht0 with (0 < ?e)%R => remember e as t0 eqn:Et0 end.
  match type of Ht1 with (0 < ?e)%R => remember e as t1 eqn:Et1 end.
  clear Et0 Et1. to_R.
  assert (0 < t0 * t1)%R by (apply Rmult_lt_0_compat; assumption).
  nra.
Qed.

Lemma update_normalises_in_exact_arithmetic_witness :
  let V := auxiliary 2 1 2 X_real_2_1_2 R_all_real_2_2 in
  exists (W' : tensor3 complex) (h' : rheap),
    update_column 1 2 V 0 0 heap_identity_real = (Ok tt, h') /\
    array3 h' 0 = Some W' /\
    (forall f, f < 1 -> active V 0 f = true ->
       hermitian_form 2 (cat4 V f 0) (fun i => cat3 W' f i 0) = c1).
Proof.
  apply (update_normalises_in_exact_arithmetic (L := real_libraries) 2 1 2
           X_real_2_1_2 R_all_real_2_2 0 0 heap_identity_real W_real_1_2_2).
  - reflexivity.
  - split; [ reflexivity | repeat constructor ].
  - split; [ reflexivity | repeat constructor ].
  - split; [ reflexivity | repeat constructor ].
  - intros n c Hn Hc.
    destruct n as [| [| n]]; [ | | lia ];
      (destruct c as [| [| c]]; [ | | lia ]); unfold rat2; simpl; lra.
  - lia.
  - lia.
  - intros f Hf _. destruct f as [| f]; [ | lia ].
    destruct (linalg_solve
                (system_matrix 2 W_real_1_2_2
                   (auxiliary 2 1 2 X_real_2_1_2 R_all_real_2_2) 0 0)
                (unit_vector 2 0)) as [w |] eqn:Hw.
    + exists w. split; [ reflexivity | ].
      apply cramer_solves_2.
      * apply has_shape2_tabulate2.
      * apply length_tabulate.
      * exact Hw.
    + exfalso. exact (normalisation_run_solvable Hw).
Defined.

End NormalisationRun.

(** ** The shapes of what a call returns *)

Section ShapesRun.

#[local] Existing Instance binary64.
#[local] Existing Instance float_libraries.

(** C1, at a call that separates the two-channel signal [X_2_1_2] (two
    frames, one frequency) into one source: the demixing matrix, the gains
    and the activations returned have the shapes (1, 2, 2), (1, 1) and
    (2, 2), and the separated signal has shape (2, 1, 2), with
    [n_chan = 2] and not [n_src = 1] as its last extent. *)
Theorem returned_shapes_one_source :
  match blinkiva_gauss args_one_source heap_2_1_2 with
  | (Ok (ReturnFilters lY lW lG lR), h') =>
      match array3 h' lY, array3 h' lW, array2 h' lG, array2 h' lR with
      | Some Y, Some W, Some G, Some R_all =>
          shape3 Y = (2, 1, 2) /\ shape3 W = (1, 2, 2) /\
          shape2 G = (1, 1) /\ shape2 R_all = (2, 2)
      | _, _, _, _ => False
      end
  | _ => False
  end.
Proof. vm_compute. repeat split. Qed.

End ShapesRun.

(** * Further properties of the routine *)

(** ** The caller's arrays, and the random generator *)

Section CallerExtras.

Context {S : Scalar} {L : Libraries}.

(** X1. A call never writes to an array that existed before it: the signal
    [X], the sensor matrix [U] and every other array of the caller hold after
    the call what they held before, whether the call returns or raises. *)
Theorem caller_arrays_unchanged (a : arguments) (h : heap) :
  (forall l v, array3 h l = Some v ->
     array3 (snd (blinkiva_gauss a h)) l = Some v) /\
  (forall l v, array2 h l = Some v ->
     array2 (snd (blinkiva_gauss a h)) l = Some v).
Proof.
  pose proof (blinkiva_gauss_frame h a h (frame_refl h)) as H.
  assert (F : frame h (snd (blinkiva_gauss a h))).
  { destruct (blinkiva_gauss a h) as [[r | e] h']; simpl.
    - exact (proj1 H).
    - exact H. }
  destruct F as (_ & _ & F3 & F2). split.
  - intros l v Hl. rewrite F3; [ exact Hl | ].
    eapply lookup_lt_Some. exact Hl.
  - intros l v Hl. rewrite F2; [ exact Hl | ].
    eapply lookup_lt_Some. exact Hl.
Qed.

Lemma bind_raise {A B} (m : M A) (k : A -> M B) h e h1 :
  m h = (Raise e, h1) -> bind m k h = (Raise e, h1).
Proof. intros H. unfold bind. now rewrite H. Qed.

Lemma alloc3_ok v h :
  alloc3 v h = (Ok (length (complex_arrays h)), snd (alloc3 v h)).
Proof. reflexivity. Qed.

Lemma alloc2_ok v h :
  alloc2 v h = (Ok (length (real_arrays h)), snd (alloc2 v h)).
Proof. reflexivity. Qed.

(** The initialiser raises [ValueError] when more sources are asked for
    than there are channels. *)
Lemma initialise_too_many n_frames n_chan n_src n_blink seed U_mean lR_all h :
  n_chan < n_src ->
  fst (initialise n_frames n_chan n_src n_blink seed U_mean lR_all h)
  = Raise ValueError.
Proof.
  intros Hlt. unfold initialise.
  assert (Hb : (n_chan <? n_src) = true) by (apply Nat.ltb_lt; exact Hlt).
  destruct seed as [s |].
  - unfold bind at 1. unfold bind at 1. unfold get_state at 1.
    cbv beta iota. unfold bind at 1. unfold seed_random.
    destruct (random_seed s) as [g |]; [ | reflexivity ].
    cbv beta iota delta [set_state ret].
    unfold bind at 1. unfold rand at 1. destruct (draw _ _) as [xs g'].
    cbv beta iota. unfold bind at 1. rewrite Hb. reflexivity.
  - unfold bind at 1. cbv beta iota delta [ret].
    unfold bind at 1. unfold rand at 1. destruct (draw _ _) as [xs g'].
    cbv beta iota. unfold bind at 1. rewrite Hb. reflexivity.
Qed.

Lemma too_many_sources (a : arguments) (h : heap)
    (X : tensor3 complex) (U : matrix real) (n : nat) :
  array3 h (arg_X a) = Some X ->
  array2 h (arg_U a) = Some U ->
  arg_n_src a = Some n ->
  snd (shape3 X) < n ->
  fst (blinkiva_gauss a h) = Raise ValueError.
Proof.
  intros HX HU Hn Hlt.
  unfold blinkiva_gauss.
  assert (Hs : fst (setup a h) = Raise ValueError).
  { unfold setup.
    erewrite bind_run by (apply load3_run; exact HX).
    cbv beta iota delta [shape3].
    erewrite bind_run by (apply load2_run; exact HU).
    cbv beta iota delta [shape2].
    destruct (negb _); [ reflexivity | ].
    rewrite Hn. cbn [default from_option Datatypes.id shape3 snd] in *.
    set (lWm := match arg_W0 a with
                | Some lW0 => W0 <- load3 lW0 ;; alloc3 W0
                | None => alloc3 (repeat (eye (length (hd [] (hd [] X))))
                                         (length (hd [] X)))
                end).
    assert (HlW : exists lW h1, lWm h = (Ok lW, h1)).
    { unfold lWm. destruct (arg_W0 a); unfold bind, load3, alloc3; eauto. }
    destruct HlW as (lW & h1 & HlW).
    erewrite bind_run by exact HlW.
    erewrite bind_run by apply alloc3_ok.
    erewrite bind_run by apply alloc2_ok.
    erewrite bind_run by apply alloc2_ok.
    match goal with
    | |- fst (bind (initialise ?a1 ?a2 ?a3 ?a4 ?a5 ?a6 ?a7) ?k ?hh) = _ =>
        pose proof (initialise_too_many a1 a2 a3 a4 a5 a6 a7 hh Hlt) as Hi;
        unfold bind;
        destruct (initialise a1 a2 a3 a4 a5 a6 a7 hh) as [[lG | e] h2]
    end; simpl in *; [ discriminate Hi | ].
    injection Hi as ->. reflexivity. }
  unfold bind at 1. destruct (setup a h) as [[w | e] h1]; simpl in *;
    [ discriminate Hs | ].
  injection Hs as ->. reflexivity.
Qed.

(** X3. On a signal [X] of shape (n_frames, n_freq, n_chan) with at least
    one frame, one frequency and one channel and a sensor matrix [U] of two
    axes, a call that asks for [n_src] sources, a natural number greater
    than [n_chan], raises [ValueError] (when the frames match, from the
    assignment to the view [R = R_all[:,:n_src]], which has only [n_chan]
    columns). *)
Theorem too_many_sources_rejected (a : arguments) (h : heap)
    (X : tensor3 complex) (U : matrix real) (nf nq nc nu nb n : nat) :
  array3 h (arg_X a) = Some X ->
  array2 h (arg_U a) = Some U ->
  has_shape3 X nf nq nc -> 0 < nf -> 0 < nq -> 0 < nc ->
  has_shape2 U nu nb ->
  arg_n_src a = Some n ->
  nc < n ->
  fst (blinkiva_gauss a h) = Raise ValueError.
Proof.
  intros HX HU SX Hnf Hnq _ _ Hn Hlt.
  destruct (shape3_of X nf nq nc SX Hnf Hnq) as (_ & _ & L3).
  apply (too_many_sources a h X U n HX HU Hn).
  unfold shape3. cbn [snd]. rewrite L3. exact Hlt.
Qed.

(** X2. On a signal [X] of shape (n_frames, n_freq, n_chan) with at least
    one frame and one frequency and a sensor matrix [U] of two axes, a call
    with a seed, whose [n_src] is [None] or a natural number (not negative)
    no greater than [n_chan], and whose callback draws nothing, leaves the
    state of [np.random] as it found it, whether it returns or raises. *)
Theorem seeded_call_restores_random_state (a : arguments) (h : heap) (s : Z)
    (X : tensor3 complex) (U : matrix real) (nf nq nc nu nb : nat) :
  arg_seed a = Some s ->
  array3 h (arg_X a) = Some X ->
  array2 h (arg_U a) = Some U ->
  has_shape3 X nf nq nc -> 0 < nf -> 0 < nq ->
  has_shape2 U nu nb ->
  default nc (arg_n_src a) <= nc ->
  np_random (snd (blinkiva_gauss a h)) = np_random h.
Proof.
  intros Hs HX _ SX Hnf Hnq _ Hle.
  destruct (shape3_of X nf nq nc SX Hnf Hnq) as (_ & _ & L3).
  apply (call_restores a s h Hs).
  unfold channels_at. rewrite HX.
  cbn [default from_option Datatypes.id]. unfold shape3. cbn [snd].
  rewrite L3. exact Hle.
Qed.

End CallerExtras.

Section CallerExtrasRun.

#[local] Existing Instance binary64.
#[local] Existing Instance float_libraries.

Lemma too_many_sources_rejected_witness :
  fst (blinkiva_gauss args_three_sources heap_2_1_2) = Raise ValueError.
Proof.
  apply (too_many_sources_rejected (L := float_libraries) args_three_sources
           heap_2_1_2 X_2_1_2 U_2_1 2 1 2 2 1 3).
  - reflexivity.
  - reflexivity.
  - split; [ reflexivity | repeat constructor ].
  - lia.
  - lia.
  - lia.
  - split; [ reflexivity | repeat constructor ].
  - reflexivity.
  - lia.
Defined.

Lemma seeded_call_restores_random_state_witness :
  np_random (snd (blinkiva_gauss (with_seed 0 default_args) heap_2_1_2))
  = np_random heap_2_1_2.
Proof.
  apply (seeded_call_restores_random_state (L := float_libraries)
           (with_seed 0 default_args) heap_2_1_2 0%Z X_2_1_2 U_2_1
           2 1 2 2 1).
  - reflexivity.
  - reflexivity.
  - reflexivity.
  - split; [ reflexivity | repeat constructor ].
  - lia.
  - lia.
  - split; [ reflexivity | repeat constructor ].
  - simpl. lia.
Defined.

End CallerExtrasRun.

(** ** A singular system *)

Section SingularExtras.

Context {S : Scalar} {L : Libraries}.

Lemma solve_each_None n_chan V W s fs f :
  In f fs -> active V s f = true ->
  linalg_solve (WV_of n_chan V W s f) (basis n_chan s) = None ->
  solve_each n_chan V W s fs = None.
Proof.
  intros Hin Ha Hs. induction fs as [| f' fs IH]; [ contradiction | ].
  simpl. destruct Hin as [-> | Hin].
  - now rewrite Ha, Hs.
  - rewrite (IH Hin).
    destruct (active V s f'); [ | reflexivity ].
    destruct (linalg_solve (WV_of n_chan V W s f') (basis n_chan s));
      reflexivity.
Qed.

(** X13. When [np.linalg.solve] refuses the system of one active frequency,
    the update of the column raises [LinAlgError] and nothing is written: the
    demixing matrix is as it was, also at the frequencies whose systems have
    solutions. *)
Theorem update_column_singular (n_freq n_chan : nat) (V : tensor4 complex)
    (lW : loc) (s : nat) (h : heap) (f : nat) :
  f < n_freq ->
  active V s f = true ->
  linalg_solve
    (matmul n_chan
       (hermitian n_chan (nth f (default [] (array3 h lW)) []))
       (nth s (nth f V []) []))
    (basis n_chan s) = None ->
  update_column n_freq n_chan V lW s h = (Raise LinAlgError, h).
Proof.
  intros Hf Ha Hs. unfold update_column, bind, load3.
  rewrite (solve_each_None n_chan V _ s (seq 0 n_freq) f).
  - reflexivity.
  - apply in_seq. lia.
  - exact Ha.
  - exact Hs.
Qed.

End SingularExtras.

Section SingularRun.

#[local] Existing Instance binary64.
#[local] Existing Instance float_libraries.

Lemma update_column_singular_witness :
  update_column 1 2
    [ [ [ [fc 1 0; fc 0 0]; [fc 0 0; fc 0 0] ];
        [ [fc 1 0; fc 0 0]; [fc 0 0; fc 0 0] ] ] ]%float
    1 0 heap_2_1_2
  = (Raise LinAlgError, heap_2_1_2).
Proof.
  apply (update_column_singular (L := float_libraries) 1 2 _ 1 0
           heap_2_1_2 0).
  - lia.
  - vm_compute. reflexivity.
  - vm_compute. reflexivity.
Defined.

End SingularRun.

(** ** The samples a call without a seed consumes *)

Section DrawExtras.

Context {S : Scalar} {L : Libraries}.

Lemma draw_add n m g :
  snd (draw (n + m) g) = snd (draw m (snd (draw n g))).
Proof.
  revert g. induction n as [| n IH]; intros g; [ reflexivity | ].
  cbn [Nat.add draw]. destruct (random_sample g) as [x g1].
  specialize (IH g1).
  destruct (draw (n + m) g1) as [xs g2].
  destruct (draw n g1) as [ys g3]. exact IH.
Qed.

Lemma initialise_draws n_frames n_chan n_src n_blink U_mean lR_all g :
  n_src <= n_chan ->
  hoare (rng_is g)
        (initialise n_frames n_chan n_src n_blink None U_mean lR_all)
        (fun _ => rng_is (snd (draw (n_src * n_blink)
                                (snd (draw (n_frames * n_src) g)))))
        (fun _ => False).
Proof.
  intros Hle h Hh. unfold rng_is in *. subst g.
  unfold initialise, bind.
  cbv beta iota delta [ret].
  unfold rand at 1.
  destruct (draw (n_frames * n_src) (np_random h)) as [xs g2].
  destruct (Nat.ltb_spec n_chan n_src) as [Hlt | _]; [ lia | ].
  cbv beta iota delta [ret load2 store2].
  unfold rand at 1. cbn [np_random snd].
  destruct (draw (n_src * n_blink) g2) as [ys g3].
  cbv beta iota delta [alloc2 load2 store2 set_state ret].
  cbn [np_random snd]. reflexivity.
Qed.

Lemma setup_draws a h X U :
  arg_seed a = None ->
  array3 h (arg_X a) = Some X -> array2 h (arg_U a) = Some U ->
  length U = length X ->
  default (snd (shape3 X)) (arg_n_src a) <= snd (shape3 X) ->
  exists w h1,
    setup a h = (Ok w, h1) /\
    np_random h1
    = snd (draw (default (snd (shape3 X)) (arg_n_src a)
                 * (length X + snd (shape2 U))) (np_random h)).
Proof.
  intros Hs HX HU Hfr Hle.
  unfold shape3, shape2 in *. cbn [snd] in *.
  remember (default (length (hd [] (hd [] X))) (arg_n_src a)) as n_src.
  set (g := np_random h).
  set (g' := snd (draw (n_src * length (hd [] U))
                   (snd (draw (length X * n_src) g)))).
  assert (Hg : snd (draw (n_src * (length X + length (hd [] U))) g) = g').
  { unfold g'. rewrite <- draw_add. f_equal. f_equal. lia. }
  rewrite Hg. clear Hg.
  unfold setup.
  erewrite bind_run by (apply load3_run; exact HX).
  cbv beta iota delta [shape3].
  erewrite bind_run by (apply load2_run; exact HU).
  cbv beta iota delta [shape2].
  rewrite Hfr, Nat.eqb_refl. cbn [negb].
  rewrite <- Heqn_src.
  assert (HW : hoare (rng_is g)
            (match arg_W0 a with
             | Some lW0 => W0 <- load3 lW0 ;; alloc3 W0
             | None => alloc3 (repeat (eye (length (hd [] (hd [] X))))
                                      (length (hd [] X)))
             end) (fun _ => rng_is g) (fun _ => False)).
  { destruct (arg_W0 a); intros h1 Hh1; exact Hh1. }
  assert (Hrest : forall lW, hoare (rng_is g)
    (lY <- alloc3 (repeat (repeat (repeat c0 (length (hd [] (hd [] X))))
                     (length (hd [] X))) (length X)) ;;
     lP <- alloc2 (repeat (repeat r0 (length (hd [] (hd [] X)))) (length X)) ;;
     lR_all <- alloc2 (repeat (repeat r1 (length (hd [] (hd [] X))))
                              (length X)) ;;
     lG <- initialise (length X) (length (hd [] (hd [] X))) n_src
             (length (hd [] U)) (arg_seed a)
             (U_mean_of (length (hd [] X)) U) lR_all ;;
     demix (length (hd [] X)) (length (hd [] (hd [] X))) n_src lY
           (arg_X a) lW lP lR_all ;;;
     ret (Workspace (length X) (length (hd [] X)) (length (hd [] (hd [] X)))
            n_src (U_mean_of (length (hd [] X)) U) lW lY lP lR_all lG))
    (fun _ => rng_is g') (fun _ => False)).
  { intros lW.
    eapply hoare_bind with (Q' := fun _ => rng_is g);
      [ intros h1 Hh1; exact Hh1 | intros lY ].
    eapply hoare_bind with (Q' := fun _ => rng_is g);
      [ intros h1 Hh1; exact Hh1 | intros lP ].
    eapply hoare_bind with (Q' := fun _ => rng_is g);
      [ intros h1 Hh1; exact Hh1 | intros lR_all ].
    eapply hoare_bind with (Q' := fun _ => rng_is g');
      [ rewrite Hs; apply initialise_draws; exact Hle | intros lG ].
    eapply hoare_bind with (Q' := fun _ => rng_is g').
    - intros h1 Hh1. unfold demix, bind, load3, load2, store3, store2.
      cbn. exact Hh1.
    - intros u. apply hoare_ret. auto. }
  pose proof (hoare_bind _ _ _ _ _ _ HW Hrest h eq_refl) as H.
  match goal with
  | H : match ?m h with _ => _ end |- exists w h1, ?m' h = _ /\ _ =>
      change m' with m; destruct (m h) as [[w | e] h']
  end; [ | contradiction ].
  exists w, h'. split; [ reflexivity | exact H ].
Qed.

Lemma call_draws (a : arguments) (h : heap)
    (X : tensor3 complex) (U : matrix real) :
  arg_seed a = None ->
  array3 h (arg_X a) = Some X -> array2 h (arg_U a) = Some U ->
  length U = length X ->
  default (snd (shape3 X)) (arg_n_src a) <= snd (shape3 X) ->
  np_random (snd (blinkiva_gauss a h))
  = snd (draw (default (snd (shape3 X)) (arg_n_src a)
               * (length X + snd (shape2 U))) (np_random h)).
Proof.
  intros Hs HX HU Hfr Hle.
  destruct (setup_draws a h X U Hs HX HU Hfr Hle) as (w & h1 & Hrun & Hg).
  unfold blinkiva_gauss. unfold bind at 1. rewrite Hrun.
  rewrite <- Hg.
  apply (quiet_snd (for_range (arg_n_iter a) (epoch a w) ;;; finish a w)).
  apply quiet_bind.
  - apply quiet_for_range. intros e. apply quiet_epoch.
  - intros u. apply quiet_finish.
Qed.

(** X4. On a signal [X] of shape (n_frames, n_freq, n_chan) with at least
    one frame and one frequency and a sensor matrix [U] of shape
    (n_frames, n_blink), a call without a seed, whose [n_src] is [None] (then
    [n_chan]) or a natural number (not negative) no greater than [n_chan],
    and whose callback draws nothing, advances [np.random] by
    [n_src * (n_frames + n_blink)] samples, whatever the number of epochs and
    whether it returns or raises later: the draws of lines 87 and 89 are the
    only ones. *)
Theorem unseeded_call_draws (a : arguments) (h : heap)
    (X : tensor3 complex) (U : matrix real) (nf nq nc nb : nat) :
  arg_seed a = None ->
  array3 h (arg_X a) = Some X -> array2 h (arg_U a) = Some U ->
  has_shape3 X nf nq nc -> 0 < nf -> 0 < nq ->
  has_shape2 U nf nb ->
  default nc (arg_n_src a) <= nc ->
  np_random (snd (blinkiva_gauss a h))
  = snd (draw (default nc (arg_n_src a) * (nf + nb)) (np_random h)).
Proof.
  intros Hs HX HU SX Hnf Hnq SU Hle.
  destruct (shape3_of X nf nq nc SX Hnf Hnq) as (L1 & _ & L3).
  destruct (shape2_of U nf nb SU Hnf) as (M1 & M2).
  pose proof (call_draws a h X U Hs HX HU) as H.
  unfold shape3, shape2 in H. cbn [snd] in H.
  rewrite L1, L3, M1, M2 in H. apply H; [ reflexivity | exact Hle ].
Qed.

End DrawExtras.

Section DrawRun.

#[local] Existing Instance binary64.
#[local] Existing Instance float_libraries.

Lemma unseeded_call_draws_witness :
  np_random (snd (blinkiva_gauss default_args heap_2_1_2))
  = snd (draw (2 * (2 + 1)) (np_random heap_2_1_2)).
Proof.
  apply (unseeded_call_draws (L := float_libraries) default_args heap_2_1_2
           X_2_1_2 U_2_1 2 1 2 1).
  - reflexivity.
  - reflexivity.
  - reflexivity.
  - split; [ reflexivity | repeat constructor ].
  - lia.
  - lia.
  - split; [ reflexivity | repeat constructor ].
  - simpl. lia.
Defined.

End DrawRun.

(** ** What the rescaling leaves as it was *)

Section RescaleRunFacts.

Context {S : Scalar} {L : Libraries}.

Lemma rescale_run (n_src : nat) (lW lP lR_all lG : loc) (h : heap)
    (W : tensor3 complex) (P R_all G : matrix real) :
  array3 h lW = Some W -> array2 h lP = Some P ->
  array2 h lR_all = Some R_all -> array2 h lG = Some G ->
  lP <> lR_all -> lG <> lR_all -> lG <> lP ->
  exists h' : heap,
    rescale n_src lW lP lR_all lG h = (Ok tt, h') /\
    array3 h' lW = Some (scale_W (lmb_of R_all) W) /\
    array2 h' lP = Some (scale_columns (lmb_of R_all) P) /\
    array2 h' lR_all = Some (scale_columns (lmb_of R_all) R_all) /\
    array2 h' lG = Some (unscale_G n_src (lmb_of R_all) G).
Proof.
  intros HW HP HR HG N1 N2 N3.
  set (lmb := lmb_of R_all).
  unfold rescale.
  erewrite bind_run by (apply load2_run; exact HR).
  fold lmb. cbv zeta.
  erewrite bind_run by apply store2_ok.
  set (h1 := snd (store2 lR_all (scale_columns lmb R_all) h)).
  assert (HR1 : array2 h1 lR_all = Some (scale_columns lmb R_all))
    by (eapply array2_store2_eq; exact HR).
  assert (HP1 : array2 h1 lP = Some P)
    by (unfold h1; rewrite array2_store2_ne by congruence; exact HP).
  assert (HG1 : array2 h1 lG = Some G)
    by (unfold h1; rewrite array2_store2_ne by congruence; exact HG).
  assert (HW1 : array3 h1 lW = Some W) by exact HW.
  erewrite bind_run by (apply load2_run; exact HP1).
  erewrite bind_run by apply store2_ok.
  set (h2 := snd (store2 lP (scale_columns lmb P) h1)).
  assert (HR2 : array2 h2 lR_all = Some (scale_columns lmb R_all))
    by (unfold h2; rewrite array2_store2_ne by congruence; exact HR1).
  assert (HP2 : array2 h2 lP = Some (scale_columns lmb P))
    by (eapply array2_store2_eq; exact HP1).
  assert (HG2 : array2 h2 lG = Some G)
    by (unfold h2; rewrite array2_store2_ne by congruence; exact HG1).
  assert (HW2 : array3 h2 lW = Some W) by exact HW1.
  erewrite bind_run by (apply load3_run; exact HW2).
  erewrite bind_run by apply store3_ok.
  set (h3 := snd (store3 lW (scale_W lmb W) h2)).
  assert (HW3 : array3 h3 lW = Some (scale_W lmb W))
    by (eapply array3_store3_eq; exact HW2).
  assert (HR3 : array2 h3 lR_all = Some (scale_columns lmb R_all))
    by exact HR2.
  assert (HP3 : array2 h3 lP = Some (scale_columns lmb P)) by exact HP2.
  assert (HG3 : array2 h3 lG = Some G) by exact HG2.
  erewrite bind_run by (apply load2_run; exact HG3).
  exists (snd (store2 lG (unscale_G n_src lmb G) h3)).
  split; [ apply store2_ok | ].
  split; [ exact HW3 | ].
  split; [ rewrite array2_store2_ne by congruence; exact HP3 | ].
  split; [ rewrite array2_store2_ne by congruence; exact HR3 | ].
  eapply array2_store2_eq; exact HG3.
Qed.

Lemma row_view_R n_src (R_all : matrix real) n :
  nth n (view_R n_src R_all) [] = take n_src (nth n R_all []).
Proof.
  unfold view_R.
  rewrite <- (map_nth (take n_src) R_all [] n).
  now rewrite take_nil.
Qed.

Lemma nth_view_R n_src (R_all : matrix real) n l :
  l < n_src -> nth l (nth n (view_R n_src R_all) []) r0 = rat2 R_all n l.
Proof.
  intros Hl. rewrite row_view_R. unfold rat2.
  rewrite !nth_lookup, lookup_take_lt by exact Hl. reflexivity.
Qed.

Lemma length_view_R n_src (R_all : matrix real) :
  length (view_R n_src R_all) = length R_all.
Proof. unfold view_R. apply length_map. Qed.

Lemma rat2_dot (a b : matrix real) n j :
  n < length a -> j < length (hd [] b) ->
  rat2 (dot a b) n j
  = rsum (tabulate (length b)
            (fun l => (nth l (nth n a []) r0 * rat2 b l j)%sc)).
Proof.
  intros Hn Hj. unfold rat2 at 1.
  pose (row_of := fun row : list real =>
         tabulate (length (hd [] b)) (fun j =>
           rsum (tabulate (length b)
                   (fun l => (nth l row r0 * rat2 b l j)%sc)))).
  change (dot a b) with (map row_of a).
  rewrite (nth_indep (map row_of a) [] (row_of []))
    by (rewrite length_map; exact Hn).
  rewrite (map_nth row_of a [] n). unfold row_of.
  exact (nth_tabulate (length (hd [] b))
           (fun j => rsum (tabulate (length b)
              (fun l => (nth l (nth n a []) r0 * rat2 b l j)%sc)))
           j r0 Hj).
Qed.

Lemma hd_inplace2 {A} (f : nat -> nat -> A -> A) (a : matrix A) :
  length (hd [] (inplace2 f a)) = length (hd [] a).
Proof. destruct a as [| row a]; [ reflexivity | ]. apply length_imap. Qed.

End RescaleRunFacts.

Section ExactProduct.

#[local] Existing Instance exact.
Context {L : Libraries}.

(** X11. [np.dot(R, G)], the model of the sensor signal, is not changed by a
    rescale step in exact arithmetic: on arrays of the shapes the routine
    gives them, and when no column of [R] has mean zero, the step returns and
    the product of the rescaled [R] and [G] is, entry by entry, the product
    before the step. *)
Theorem rescale_keeps_product (n_frames n_chan n_src n_blink : nat)
    (lW lP lR_all lG : loc) (h : heap)
    (W : tensor3 complex) (P R_all G : matrix real) :
  array3 h lW = Some W -> array2 h lP = Some P ->
  array2 h lR_all = Some R_all -> array2 h lG = Some G ->
  lP <> lR_all -> lG <> lR_all -> lG <> lP ->
  0 < n_frames -> 0 < n_src -> n_src <= n_chan ->
  has_shape2 R_all n_frames n_chan ->
  has_shape2 G n_src n_blink ->
  (forall s, s < n_src -> rmean (column R_all s) <> 0%R) ->
  exists (R_all' G' : matrix real) (h' : heap),
    rescale n_src lW lP lR_all lG h = (Ok tt, h') /\
    array2 h' lR_all = Some R_all' /\ array2 h' lG = Some G' /\
    forall n b, n < n_frames -> b < n_blink ->
      rat2 (dot (view_R n_src R_all') G') n b
      = rat2 (dot (view_R n_src R_all) G) n b.
Proof.
  intros HW HP HR HG N1 N2 N3 Hpos Hsrc Hle SR SG Hmean.
  destruct (rescale_run n_src lW lP lR_all lG h W P R_all G
              HW HP HR HG N1 N2 N3) as (h' & Hrun & _ & _ & HR' & HG').
  exists (scale_columns (lmb_of R_all) R_all),
         (unscale_G n_src (lmb_of R_all) G), h'.
  split; [ exact Hrun | ]. split; [ exact HR' | ]. split; [ exact HG' | ].
  intros n b Hn Hb.
  set (lmb := lmb_of R_all).
  assert (Hlmb : forall c, c < n_chan ->
            rat1 lmb c = (1 / rmean (column R_all c))%R).
  { intros c Hc. unfold lmb.
    rewrite (rat1_lmb_of R_all n_frames n_chan c SR Hpos Hc). reflexivity. }
  pose proof SR as [LR _]. pose proof SG as [LG _].
  pose proof (length_hd_shape2 G n_src n_blink SG Hsrc) as LhG.
  rewrite !rat2_dot;
    try (rewrite length_view_R; try (unfold scale_columns;
                                     rewrite length_inplace2); lia);
    try (unfold unscale_G; rewrite hd_inplace2; lia); try lia.
  unfold unscale_G at 1. rewrite length_inplace2. rewrite LG.
  f_equal. apply tabulate_ext. intros l Hl.
  rewrite !nth_view_R by exact Hl.
  destruct (has_shape2_lengths R_all n_frames n_chan n SR Hn) as [H1 H2].
  destruct (has_shape2_lengths G n_src n_blink l SG Hl) as [H3 H4].
  unfold scale_columns, unscale_G.
  rewrite !rat2_inplace2 by (try assumption; lia).
  assert (E : rat1 (take n_src lmb) l = rat1 lmb l).
  { unfold rat1. rewrite !nth_lookup, lookup_take_lt by exact Hl.
    reflexivity. }
  rewrite E, Hlmb by lia.
  specialize (Hmean l Hl). to_R.
  field; repeat split; first [ exact Hmean | lra ].
Qed.

End ExactProduct.

Section ExactProductRun.

#[local] Existing Instance exact.
#[local] Existing Instance real_libraries.

Lemma rescale_keeps_product_witness :
  exists (R_all' G' : matrix real) (h' : rheap),
    rescale 2 0 0 1 2 heap_rescale = (Ok tt, h') /\
    array2 h' 1 = Some R_all' /\ array2 h' 2 = Some G' /\
    forall n b, n < 2 -> b < 1 ->
      rat2 (dot (view_R 2 R_all') G') n b
      = rat2 (dot (view_R 2 R_all_real_2_2) G_real_2_1) n b.
Proof.
  apply (rescale_keeps_product (L := real_libraries) 2 2 2 1 0 0 1 2
           heap_rescale W_real_1_2_2 P_real_2_2 R_all_real_2_2 G_real_2_1).
  - reflexivity.
  - reflexivity.
  - reflexivity.
  - reflexivity.
  - discriminate.
  - discriminate.
  - discriminate.
  - lia.
  - lia.
  - lia.
  - split; [ reflexivity | repeat constructor ].
  - split; [ reflexivity | repeat constructor ].
  - intros s Hs. unfold rmean, rsum, column, R_all_real_2_2.
    destruct s as [| [| s]]; [ | | lia ]; simpl; lra.
Defined.

End ExactProductRun.

(** ** Shapes *)

Section Shapes.

Context {S : Scalar} {L : Libraries}.

Lemma same_shapes_refl h : same_shapes h h.
Proof. split; intros; eauto. Qed.

Lemma same_shapes_trans h1 h2 h3 :
  same_shapes h1 h2 -> same_shapes h2 h3 -> same_shapes h1 h3.
Proof.
  intros [A3 A2] [B3 B2]. split.
  - intros l v n m k Hv Hs. destruct (A3 l v n m k Hv Hs) as (v' & Hv' & Hs').
    exact (B3 l v' n m k Hv' Hs').
  - intros l v n m Hv Hs. destruct (A2 l v n m Hv Hs) as (v' & Hv' & Hs').
    exact (B2 l v' n m Hv' Hs').
Qed.

Lemma same_shapes_arrays h h' :
  complex_arrays h' = complex_arrays h -> real_arrays h' = real_arrays h ->
  same_shapes h h'.
Proof.
  intros E3 E2. split; intros; unfold array3, array2 in *.
  - rewrite E3. eauto.
  - rewrite E2. eauto.
Qed.

Lemma shaping_ret {A} (a : A) : shaping (ret a).
Proof. intros h. apply same_shapes_refl. Qed.

Lemma shaping_raise {A} e : shaping (raise e : M A).
Proof. intros h. apply same_shapes_refl. Qed.

Lemma shaping_print c : shaping (print c).
Proof. intros h. now apply same_shapes_arrays. Qed.

Lemma shaping_call_callback c : shaping (call_callback c).
Proof. intros h. now apply same_shapes_arrays. Qed.

Lemma shaping_bind {A B} (m : M A) (k : A -> M B) :
  shaping m -> (forall a, shaping (k a)) -> shaping (bind m k).
Proof.
  intros Hm Hk h. unfold bind. specialize (Hm h).
  destruct (m h) as [[a | e] h1]; [ | exact Hm ].
  eapply same_shapes_trans; [ exact Hm | apply Hk ].
Qed.

Lemma shaping_when b m : shaping m -> shaping (when b m).
Proof. intros Hm. destruct b; [ exact Hm | apply shaping_ret ]. Qed.

Lemma shaping_for_each l body :
  (forall i, shaping (body i)) -> shaping (for_each l body).
Proof.
  intros Hb. induction l as [| i l IH]; [ apply shaping_ret | ].
  simpl. apply shaping_bind; [ apply Hb | intros _; exact IH ].
Qed.

Lemma shaping_for_range n body :
  (forall i, shaping (body i)) -> shaping (for_range n body).
Proof. apply shaping_for_each. Qed.

(** A load hands on the array of the location; a store of an array of the
    shape of the one it replaces keeps the shapes. *)
Lemma shapes_load3 {B} l (k : tensor3 complex -> M B) h :
  same_shapes h (snd (k (default [] (array3 h l)) h)) ->
  same_shapes h (snd (bind (load3 l) k h)).
Proof. intros H. exact H. Qed.

Lemma shapes_load2 {B} l (k : matrix real -> M B) h :
  same_shapes h (snd (k (default [] (array2 h l)) h)) ->
  same_shapes h (snd (bind (load2 l) k h)).
Proof. intros H. exact H. Qed.

Lemma shapes_store3_last l v h :
  (forall v0 n m k, array3 h l = Some v0 -> has_shape3 v0 n m k ->
     has_shape3 v n m k) ->
  same_shapes h (snd (store3 l v h)).
Proof.
  intros Hv. split.
  - intros l' v0 n m k H0 Hs. destruct (Nat.eq_dec l l') as [<- | Hne].
    + exists v. split; [ eapply array3_store3_eq; exact H0 | eauto ].
    + exists v0. rewrite array3_store3_ne by exact Hne. auto.
  - intros l' v0 n m H0 Hs. exists v0. rewrite array2_store3. auto.
Qed.

Lemma shapes_store2_last l v h :
  (forall v0 n m, array2 h l = Some v0 -> has_shape2 v0 n m ->
     has_shape2 v n m) ->
  same_shapes h (snd (store2 l v h)).
Proof.
  intros Hv. split.
  - intros l' v0 n m k H0 Hs. exists v0. rewrite array3_store2. auto.
  - intros l' v0 n m H0 Hs. destruct (Nat.eq_dec l l') as [<- | Hne].
    + exists v. split; [ eapply array2_store2_eq; exact H0 | eauto ].
    + exists v0. rewrite array2_store2_ne by exact Hne. auto.
Qed.

Lemma shapes_store3 {B} l v (k : unit -> M B) h :
  (forall v0 n m q, array3 h l = Some v0 -> has_shape3 v0 n m q ->
     has_shape3 v n m q) ->
  (forall h1, same_shapes h1 (snd (k tt h1))) ->
  same_shapes h (snd (bind (store3 l v) k h)).
Proof.
  intros Hv Hk.
  eapply same_shapes_trans; [ apply (shapes_store3_last l v h Hv) | ].
  apply Hk.
Qed.

Lemma shapes_store2 {B} l v (k : unit -> M B) h :
  (forall v0 n m, array2 h l = Some v0 -> has_shape2 v0 n m ->
     has_shape2 v n m) ->
  (forall h1, same_shapes h1 (snd (k tt h1))) ->
  same_shapes h (snd (bind (store2 l v) k h)).
Proof.
  intros Hv Hk.
  eapply same_shapes_trans; [ apply (shapes_store2_last l v h Hv) | ].
  apply Hk.
Qed.

Ltac shape_ok3 :=
  let v0 := fresh "v0" in
  let H0 := fresh "H0" in
  let Hs := fresh "Hs" in
  intros v0 ? ? ? H0 Hs; rewrite H0 in *;
  cbn [default from_option Datatypes.id] in *; subst;
  repeat first [ apply has_shape3_inplace3 | apply has_shape3_demix_Y ];
  exact Hs.

Ltac shape_ok2 :=
  let v0 := fresh "v0" in
  let H0 := fresh "H0" in
  let Hs := fresh "Hs" in
  intros v0 ? ? H0 Hs; rewrite H0 in *;
  cbn [default from_option Datatypes.id] in *; subst;
  repeat apply has_shape2_inplace2;
  exact Hs.

Ltac shapes_step :=
  lazymatch goal with
  | |- shaping _ => intros ?h
  | |- same_shapes ?h (snd (bind (load3 ?l) ?k ?h)) =>
      apply shapes_load3;
      let v := fresh "v" in
      remember (default [] (array3 h l)) as v; cbv beta
  | |- same_shapes ?h (snd (bind (load2 ?l) ?k ?h)) =>
      apply shapes_load2;
      let v := fresh "v" in
      remember (default [] (array2 h l)) as v; cbv beta
  | |- same_shapes ?h (snd (bind (store3 ?l ?v) ?k ?h)) =>
      apply shapes_store3; [ | intros ?h; cbv beta ]
  | |- same_shapes ?h (snd (bind (store2 ?l ?v) ?k ?h)) =>
      apply shapes_store2; [ | intros ?h; cbv beta ]
  | |- same_shapes ?h (snd (store3 ?l ?v ?h)) => apply shapes_store3_last
  | |- same_shapes ?h (snd (store2 ?l ?v ?h)) => apply shapes_store2_last
  end.

Lemma shaping_demix n_freq n_chan n_src lY lX lW lP lR_all :
  shaping (demix n_freq n_chan n_src lY lX lW lP lR_all).
Proof.
  unfold demix. do 4 shapes_step.
  shapes_step; [ shape_ok3 | ].
  do 2 shapes_step.
  shapes_step; [ unfold demix_P; shape_ok2 | ].
  do 2 shapes_step.
  shapes_step. unfold demix_R_all. shape_ok2.
Qed.

Lemma shaping_rescale n_src lW lP lR_all lG :
  shaping (rescale n_src lW lP lR_all lG).
Proof.
  unfold rescale. do 2 shapes_step. cbv zeta.
  shapes_step; [ unfold scale_columns; shape_ok2 | ].
  shapes_step.
  shapes_step; [ unfold scale_columns; shape_ok2 | ].
  shapes_step.
  shapes_step; [ unfold scale_W; shape_ok3 | ].
  shapes_step.
  shapes_step. unfold unscale_G. shape_ok2.
Qed.

Lemma shaping_sub_iteration n_src sparse_reg U_mean lW lP lR_all lG :
  shaping (sub_iteration n_src sparse_reg U_mean lW lP lR_all lG).
Proof.
  unfold sub_iteration. do 4 shapes_step.
  shapes_step; [ unfold R_update, inplace_R; cbv zeta; shape_ok2 | ].
  shapes_step.
  shapes_step; [ unfold floor_R, inplace_R; shape_ok2 | ].
  do 2 shapes_step.
  shapes_step; [ unfold G_update; cbv zeta; shape_ok2 | ].
  shapes_step.
  shapes_step; [ unfold floor_G; shape_ok2 | ].
  apply shaping_rescale.
Qed.

Lemma shaping_update_column n_freq n_chan V lW s :
  shaping (update_column n_freq n_chan V lW s).
Proof.
  unfold update_column. do 2 shapes_step.
  destruct (solve_each n_chan V v s (seq 0 n_freq)) as [sols |];
    [ | apply same_shapes_refl ].
  shapes_step; [ unfold assign_column; shape_ok3 | ].
  shapes_step.
  shapes_step. unfold normalise_column. shape_ok3.
Qed.

Lemma shaping_update_W n_freq n_chan V lW :
  shaping (update_W n_freq n_chan V lW).
Proof.
  unfold update_W. apply shaping_for_range. intros s.
  apply shaping_update_column.
Qed.

Lemma shaping_report_callback n_src proj_back lX lU lW lY lR_all lG :
  shaping (report_callback n_src proj_back lX lU lW lY lR_all lG).
Proof.
  unfold report_callback. do 3 shapes_step.
  destruct proj_back.
  - cbv zeta. apply shaping_call_callback.
  - do 4 shapes_step. apply shaping_call_callback.
Qed.

Lemma shaping_report_cost n_frames n_freq n_chan n_src lU lW lY lR_all lG :
  shaping (report_cost n_frames n_freq n_chan n_src lU lW lY lR_all lG).
Proof.
  unfold report_cost. do 6 shapes_step. apply shaping_print.
Qed.

Lemma shaping_epoch_body n_frames n_freq n_chan n_src sparse_reg
    n_nmf_sub_iter proj_back print_cost callback U_mean
    lX lU lW lY lP lR_all lG e :
  shaping (epoch_body n_frames n_freq n_chan n_src sparse_reg n_nmf_sub_iter
             proj_back print_cost callback U_mean lX lU lW lY lP lR_all lG e).
Proof.
  unfold epoch_body.
  apply shaping_bind;
    [ apply shaping_when, shaping_report_callback | intros _ ].
  apply shaping_bind;
    [ apply shaping_when, shaping_report_cost | intros _ ].
  apply shaping_bind;
    [ apply shaping_for_range; intros i; apply shaping_sub_iteration
    | intros _ ].
  do 3 shapes_step. cbv zeta.
  refine (shaping_bind _ _ _ _ h); [ apply shaping_update_W | intros _ ].
  apply shaping_bind; [ apply shaping_demix | intros _ ].
  apply shaping_rescale.
Qed.

(** X6. One pass of the loop over [epoch] keeps the shape of every array of
    the store, whether it returns or the solver raises: all it writes, it
    writes in place. *)
Theorem epoch_keeps_shapes (a : arguments) (w : workspace) (e : nat)
    (h : heap) :
  same_shapes h (snd (epoch a w e h)).
Proof. unfold epoch. apply shaping_epoch_body. Qed.


End Shapes.

(** ** The shapes of what a call returns, in general *)

Section ReturnedShapes.

Context {S : Scalar} {L : Libraries}.




Lemma load3_inv l h v h' :
  load3 l h = (Ok v, h') -> v = default [] (array3 h l) /\ h' = h.
Proof. unfold load3. intros H. injection H as <- <-. auto. Qed.





Lemma has_shape2_map2d (f : real -> real) (a : matrix real) n m :
  has_shape2 a n m -> has_shape2 (map2d f a) n m.
Proof.
  intros [Hn Hall]. split.
  - unfold map2d. now rewrite length_map.
  - unfold map2d. apply List.Forall_forall. intros row Hrow.
    apply in_map_iff in Hrow. destruct Hrow as (row0 & <- & Hin).
    rewrite length_map. rewrite List.Forall_forall in Hall. now apply Hall.
Qed.

Tactic Notation "run_in" hyp(H) "as" ident(x) ident(hx) ident(E) :=
  match type of H with
  | bind ?m ?k ?h = _ =>
      destruct (m h) as [[x | ?] hx] eqn:E;
      [ rewrite (bind_run _ _ _ _ _ E) in H; cbv beta in H
      | rewrite (bind_raise _ _ _ _ _ E) in H; discriminate H ]
  end.





End ReturnedShapes.

Section ReturnedShapesRun.

#[local] Existing Instance binary64.
#[local] Existing Instance float_libraries.


End ReturnedShapesRun.

(** ** The auxiliary covariance *)

Section ExactHermitian.

#[local] Existing Instance exact.

(** X12. In exact arithmetic every matrix [V[f,s,:,:]] of the auxiliary
    variable is Hermitian: [V[f,s,i,j]] is the conjugate of [V[f,s,j,i]]. *)
Theorem auxiliary_hermitian (n_frames n_freq n_chan : nat)
    (X : tensor3 complex) (R_all : matrix real) (f s i j : nat) :
  has_shape2 R_all n_frames n_chan ->
  f < n_freq -> s < n_chan -> i < n_chan -> j < n_chan ->
  cat4 (auxiliary n_frames n_freq n_chan X R_all) f s i j
  = conj (cat4 (auxiliary n_frames n_freq n_chan X R_all) f s j i).
Proof.
  intros SR Hf Hs Hi Hj.
  change (cat2 (nth s (nth f (auxiliary n_frames n_freq n_chan X R_all)
                         []) []) i j
          = conj (cat2 (nth s (nth f (auxiliary n_frames n_freq n_chan X
                                        R_all) []) []) j i)).
  rewrite !(cat2_auxiliary n_frames n_freq n_chan X R_all f s)
    by assumption.
  unfold covariance_entry.
  rewrite conj_mul, conj_of_real, csum_conj. f_equal.
  apply csum_ext. intros n Hn.
  rewrite !conj_mul, conj_conj, conj_of_real. cx.
Qed.

End ExactHermitian.

Section ExactHermitianRun.

#[local] Existing Instance exact.
#[local] Existing Instance real_libraries.

Lemma auxiliary_hermitian_witness :
  cat4 (auxiliary 2 1 2 X_real_2_1_2 R_all_real_2_2) 0 1 0 1
  = conj (cat4 (auxiliary 2 1 2 X_real_2_1_2 R_all_real_2_2) 0 1 1 0).
Proof.
  apply (auxiliary_hermitian 2 1 2 X_real_2_1_2 R_all_real_2_2 0 1 0 1).
  - split; [ reflexivity | repeat constructor ].
  - lia.
  - lia.
  - lia.
  - lia.
Defined.

End ExactHermitianRun.

(** ** A call that makes no iteration *)

Section NoIteration.

Context {S : Scalar} {L : Libraries}.

Lemma initialise_ok n_frames n_chan n_src n_blink seed U_mean lR_all h :
  n_src <= n_chan ->
  (forall s, seed = Some s -> random_seed s <> None) ->
  exists lG h',
    initialise n_frames n_chan n_src n_blink seed U_mean lR_all h
    = (Ok lG, h') /\
    complex_arrays h' = complex_arrays h.
Proof.
  intros Hle Hseed. unfold initialise, bind.
  destruct seed as [s |].
  - unfold get_state, seed_random.
    destruct (random_seed s) as [g1 |] eqn:Eg;
      [ | exfalso; exact (Hseed s eq_refl Eg) ].
    cbv beta iota delta [set_state ret].
    unfold rand at 1. cbn [np_random].
    destruct (draw (n_frames * n_src) g1) as [xs g2].
    destruct (Nat.ltb_spec n_chan n_src) as [Hlt | _]; [ lia | ].
    cbv beta iota delta [ret load2 store2].
    unfold rand at 1. cbn [np_random].
    destruct (draw (n_src * n_blink) g2) as [ys g3].
    cbv beta iota delta [alloc2 load2 store2 set_state ret].
    eexists _, _. split; reflexivity.
  - cbv beta iota delta [ret].
    unfold rand at 1.
    destruct (draw (n_frames * n_src) (np_random h)) as [xs g2].
    destruct (Nat.ltb_spec n_chan n_src) as [Hlt | _]; [ lia | ].
    cbv beta iota delta [ret load2 store2].
    unfold rand at 1. cbn [np_random].
    destruct (draw (n_src * n_blink) g2) as [ys g3].
    cbv beta iota delta [alloc2 load2 store2 set_state ret].
    eexists _, _. split; reflexivity.
Qed.

Lemma demix_run_Y n_freq n_chan n_src lY lX lW lP lR_all h X W Y :
  array3 h lX = Some X -> array3 h lW = Some W -> array3 h lY = Some Y ->
  exists h',
    demix n_freq n_chan n_src lY lX lW lP lR_all h = (Ok tt, h') /\
    array3 h' lY = Some (demix_Y n_freq n_chan X W Y).
Proof.
  intros HX HW HY. unfold demix.
  erewrite bind_run by (apply load3_run; exact HX).
  erewrite bind_run by (apply load3_run; exact HW).
  erewrite bind_run by (apply load3_run; exact HY).
  erewrite bind_run by apply store3_ok.
  set (h1 := snd (store3 lY (demix_Y n_freq n_chan X W Y) h)).
  assert (HY1 : array3 h1 lY = Some (demix_Y n_freq n_chan X W Y))
    by (eapply array3_store3_eq; exact HY).
  erewrite bind_run by (apply load3_run; exact HY1).
  unfold bind at 1. unfold load2 at 1. cbv beta iota.
  erewrite bind_run by apply store2_ok.
  unfold bind at 1. unfold load2 at 1. cbv beta iota.
  unfold bind at 1. unfold load2 at 1. cbv beta iota.
  eexists. split; [ apply store2_ok | ].
  rewrite !array3_store2. exact HY1.
Qed.

(** The demixing matrix the loop starts from. *)
Lemma setup_first_demix a h X U nf nq nc :
  array3 h (arg_X a) = Some X -> array2 h (arg_U a) = Some U ->
  has_shape3 X nf nq nc -> 0 < nf -> 0 < nq -> length U = nf ->
  default nc (arg_n_src a) <= nc ->
  (forall s, arg_seed a = Some s -> random_seed s <> None) ->
  exists w h1,
    setup a h = (Ok w, h1) /\
    array3 h1 (var_Y w)
    = Some (demix_Y nq nc X
              (match arg_W0 a with
               | None => repeat (eye nc) nq
               | Some l0 => default [] (array3 h l0)
               end)
              (repeat (repeat (repeat c0 nc) nq) nf)).
Proof.
  intros HX HU SX Hnf Hnq HlU Hle Hseed.
  destruct (shape3_of X nf nq nc SX Hnf Hnq) as (L1 & L2 & L3).
  set (Wv := match arg_W0 a with
             | None => repeat (eye nc) nq
             | Some l0 => default [] (array3 h l0)
             end).
  unfold setup.
  erewrite bind_run by (apply load3_run; exact HX).
  cbv beta iota delta [shape3]. rewrite L3, L2, L1.
  erewrite bind_run by (apply load2_run; exact HU).
  cbv beta iota delta [shape2]. rewrite HlU, Nat.eqb_refl. cbn [negb].
  assert (EW : (match arg_W0 a with
                | Some lW0 => W0 <- load3 lW0 ;; alloc3 W0
                | None => alloc3 (repeat (eye nc) nq)
                end) h = alloc3 Wv h).
  { unfold Wv. destruct (arg_W0 a); reflexivity. }
  erewrite bind_run by (rewrite EW; apply alloc3_ok).
  erewrite bind_run by apply alloc3_ok.
  erewrite bind_run by apply alloc2_ok.
  erewrite bind_run by apply alloc2_ok.
  set (zeros := repeat (repeat (repeat c0 nc) nq) nf).
  match goal with
  | |- exists w h1, bind (initialise ?a1 ?a2 ?a3 ?a4 ?a5 ?a6 ?a7) ?k ?hh = _ /\ _ =>
      destruct (initialise_ok a1 a2 a3 a4 a5 a6 a7 hh Hle Hseed)
        as (lG & h6 & Ei & EC);
      rewrite (bind_run _ k hh lG h6 Ei); cbv beta
  end.
  assert (HX6 : array3 h6 (arg_X a) = Some X).
  { unfold array3 in *. rewrite EC. simpl.
    apply lookup_app_l_Some, lookup_app_l_Some. exact HX. }
  assert (HW6 : array3 h6 (length (complex_arrays h)) = Some Wv).
  { unfold array3. rewrite EC. simpl.
    apply lookup_app_l_Some. apply list_lookup_middle. reflexivity. }
  assert (HY6 : array3 h6 (length (complex_arrays (snd (alloc3 Wv h))))
                = Some zeros).
  { unfold array3. rewrite EC. simpl.
    apply list_lookup_middle. reflexivity. }
  match goal with
  | |- exists w h1, bind (demix ?q ?c ?s ?lY ?lX ?lW ?lP ?lR) ?k ?hh = _ /\ _ =>
      destruct (demix_run_Y q c s lY lX lW lP lR hh X Wv zeros HX6 HW6 HY6)
        as (h7 & Ed & HY7);
      rewrite (bind_run _ k hh tt h7 Ed); cbv beta
  end.
  eexists _, h7. split; [ reflexivity | exact HY7 ].
Qed.

Lemma no_iteration_run a h X U nf nq nc :
  array3 h (arg_X a) = Some X -> array2 h (arg_U a) = Some U ->
  has_shape3 X nf nq nc -> 0 < nf -> 0 < nq -> length U = nf ->
  default nc (arg_n_src a) <= nc ->
  (forall s, arg_seed a = Some s -> random_seed s <> None) ->
  arg_n_iter a = 0 -> arg_proj_back a = false ->
  exists r,
    fst (blinkiva_gauss a h) = Ok r /\
    array3 (snd (blinkiva_gauss a h)) (separated r)
    = Some (demix_Y nq nc X
              (match arg_W0 a with
               | None => repeat (eye nc) nq
               | Some l0 => default [] (array3 h l0)
               end)
              (repeat (repeat (repeat c0 nc) nq) nf)).
Proof.
  intros HX HU SX Hnf Hnq HlU Hle Hseed Hit Hpb.
  destruct (setup_first_demix a h X U nf nq nc HX HU SX Hnf Hnq HlU Hle Hseed)
    as (w & h1 & Es & HY).
  assert (E : blinkiva_gauss a h
              = (Ok (if arg_return_filters a
                     then ReturnFilters (var_Y w) (var_W w) (var_G w)
                                        (var_R_all w)
                     else ReturnY (var_Y w)), h1)).
  { unfold blinkiva_gauss. rewrite (bind_run _ _ _ _ _ Es).
    rewrite Hit. unfold finish. rewrite Hpb. reflexivity. }
  rewrite E. cbn [fst snd]. eexists. split; [ reflexivity | ].
  destruct (arg_return_filters a); exact HY.
Qed.

Lemma cat3_zeros_shape nf nq nc :
  has_shape3 (repeat (repeat (repeat c0 nc) nq) nf) nf nq nc.
Proof. apply has_shape3_repeat, has_shape2_repeat. Qed.

(** X7. With no iteration and no projection back, a call on a signal [X]
    of shape (n_frames, n_freq, n_chan) with an initial matrix [W0] of shape
    (n_freq, n_chan, n_chan) returns the signal demixed by that matrix:
    [Y[n,f,c]] is the sum over the channels [k] of
    [X[n,f,k] * conj(W0[f,k,c])]. *)
Theorem no_iteration_demixes_with_W0 (a : arguments) (h : heap)
    (X W0 : tensor3 complex) (U : matrix real) (nf nq nc : nat) (l0 : loc) :
  array3 h (arg_X a) = Some X -> array2 h (arg_U a) = Some U ->
  has_shape3 X nf nq nc -> 0 < nf -> 0 < nq -> length U = nf ->
  default nc (arg_n_src a) <= nc ->
  (forall s, arg_seed a = Some s -> random_seed s <> None) ->
  arg_n_iter a = 0 -> arg_proj_back a = false ->
  arg_W0 a = Some l0 -> array3 h l0 = Some W0 ->
  has_shape3 W0 nq nc nc ->
  exists r Y,
    fst (blinkiva_gauss a h) = Ok r /\
    array3 (snd (blinkiva_gauss a h)) (separated r) = Some Y /\
    has_shape3 Y nf nq nc /\
    forall n f c, n < nf -> f < nq -> c < nc ->
      cat3 Y n f c
      = csum (tabulate nc (fun k =>
                cmul (cat3 X n f k) (conj (cat3 W0 f k c)))).
Proof.
  intros HX HU SX Hnf Hnq HlU Hle Hseed Hit Hpb HW0 H0 _.
  destruct (no_iteration_run a h X U nf nq nc HX HU SX Hnf Hnq HlU Hle Hseed
              Hit Hpb) as (r & Hr & HY).
  rewrite HW0, H0 in HY. cbn [default from_option Datatypes.id] in HY.
  exists r. eexists. split; [ exact Hr | ]. split; [ exact HY | ].
  split; [ apply has_shape3_demix_Y, cat3_zeros_shape | ].
  intros n f c Hn Hf Hc.
  rewrite (cat3_demix_Y nq nc X W0 _ nf nq nc n f c
             (cat3_zeros_shape nf nq nc) Hn Hf Hc).
  rewrite (proj2 (Nat.ltb_lt f nq) Hf). reflexivity.
Qed.

Lemma cat3_eyes nq nc f k c :
  f < nq -> k < nc -> c < nc ->
  cat3 (repeat (eye nc) nq) f k c = if k =? c then c1 else c0.
Proof.
  intros Hf Hk Hc. unfold cat3.
  rewrite (nth_indep _ [] (eye nc)) by (rewrite repeat_length; exact Hf).
  rewrite nth_repeat. unfold eye, tabulate2.
  rewrite (nth_tabulate nc _ k) by exact Hk.
  exact (nth_tabulate nc (fun j => if k =? j then c1 else c0) c c0 Hc).
Qed.

End NoIteration.

Section ExactNoIteration.

#[local] Existing Instance exact.
Context {L : Libraries}.

Lemma csum_delta n c (x : nat -> complex) :
  c < n ->
  csum (tabulate n (fun k =>
          cmul (x k) (conj (if k =? c then c1 else c0)))) = x c.
Proof.
  induction n as [| n IH]; intros Hc; [ lia | ].
  rewrite csum_tabulate_S.
  destruct (Nat.eq_dec c n) as [-> | Hne].
  - rewrite (csum_ext n _ (fun _ => c0)).
    + rewrite csum_zero, Nat.eqb_refl. cx.
    + intros i Hi. rewrite (proj2 (Nat.eqb_neq i n)) by lia. cx.
  - rewrite IH by lia. rewrite (proj2 (Nat.eqb_neq n c)) by lia. cx.
Qed.

(** X8. In exact arithmetic a call without an initial matrix, with no
    iteration and no projection back, returns the signal it was given: the
    demixing starts from the identity. *)
Theorem no_iteration_returns_input (a : arguments) (h : heap)
    (X : tensor3 complex) (U : matrix real) (nf nq nc : nat) :
  array3 h (arg_X a) = Some X -> array2 h (arg_U a) = Some U ->
  has_shape3 X nf nq nc -> 0 < nf -> 0 < nq -> length U = nf ->
  default nc (arg_n_src a) <= nc ->
  (forall s, arg_seed a = Some s -> random_seed s <> None) ->
  arg_n_iter a = 0 -> arg_proj_back a = false ->
  arg_W0 a = None ->
  exists r Y,
    fst (blinkiva_gauss a h) = Ok r /\
    array3 (snd (blinkiva_gauss a h)) (separated r) = Some Y /\
    has_shape3 Y nf nq nc /\
    forall n f c, n < nf -> f < nq -> c < nc ->
      cat3 Y n f c = cat3 X n f c.
Proof.
  intros HX HU SX Hnf Hnq HlU Hle Hseed Hit Hpb HW0.
  destruct (no_iteration_run a h X U nf nq nc HX HU SX Hnf Hnq HlU Hle Hseed
              Hit Hpb) as (r & Hr & HY).
  rewrite HW0 in HY.
  exists r. eexists. split; [ exact Hr | ]. split; [ exact HY | ].
  split; [ apply has_shape3_demix_Y, cat3_zeros_shape | ].
  intros n f c Hn Hf Hc.
  rewrite (cat3_demix_Y nq nc X _ _ nf nq nc n f c
             (cat3_zeros_shape nf nq nc) Hn Hf Hc).
  rewrite (proj2 (Nat.ltb_lt f nq) Hf). unfold demix_entry.
  rewrite (csum_ext nc _ (fun k =>
             cmul (cat3 X n f k) (conj (if k =? c then c1 else c0)))).
  - apply csum_delta. exact Hc.
  - intros k Hk. rewrite cat3_eyes by assumption. reflexivity.
Qed.

End ExactNoIteration.

Section NoIterationRun.

#[local] Existing Instance exact.
#[local] Existing Instance real_libraries.

Lemma no_iteration_returns_input_witness :
  exists r Y,
    fst (blinkiva_gauss args_no_iteration heap_real_2_1_2) = Ok r /\
    array3 (snd (blinkiva_gauss args_no_iteration heap_real_2_1_2))
      (separated r) = Some Y /\
    has_shape3 Y 2 1 2 /\
    forall n f c, n < 2 -> f < 1 -> c < 2 ->
      cat3 Y n f c = cat3 X_real_2_1_2 n f c.
Proof.
  apply (no_iteration_returns_input (L := real_libraries) args_no_iteration
           heap_real_2_1_2 X_real_2_1_2 U_real_2_1 2 1 2).
  - reflexivity.
  - reflexivity.
  - split; [ reflexivity | repeat constructor ].
  - lia.
  - lia.
  - reflexivity.
  - simpl. lia.
  - intros s Hs. discriminate Hs.
  - reflexivity.
  - reflexivity.
  - reflexivity.
Defined.

End NoIterationRun.

Section NoIterationRunFloat.

#[local] Existing Instance binary64.
#[local] Existing Instance float_libraries.

Lemma no_iteration_demixes_with_W0_witness :
  exists r Y,
    fst (blinkiva_gauss args_W0_no_iteration heap_2_1_2) = Ok r /\
    array3 (snd (blinkiva_gauss args_W0_no_iteration heap_2_1_2))
      (separated r) = Some Y /\
    has_shape3 Y 2 1 2 /\
    forall n f c, n < 2 -> f < 1 -> c < 2 ->
      cat3 Y n f c
      = csum (tabulate 2 (fun k =>
                cmul (cat3 X_2_1_2 n f k) (conj (cat3 W0_1_2_2 f k c)))).
Proof.
  apply (no_iteration_demixes_with_W0 (L := float_libraries)
           args_W0_no_iteration heap_2_1_2 X_2_1_2 W0_1_2_2 U_2_1 2 1 2 1).
  - reflexivity.
  - reflexivity.
  - split; [ reflexivity | repeat constructor ].
  - lia.
  - lia.
  - reflexivity.
  - simpl. lia.
  - intros s Hs. discriminate Hs.
  - reflexivity.
  - reflexivity.
  - reflexivity.
  - reflexivity.
  - split; [ reflexivity | repeat constructor ].
Defined.

End NoIterationRunFloat.

(** ** What a call reports *)

Section Reports.

Context {S : Scalar} {L : Libraries}.

Lemma same_output_refl h : same_output h h.
Proof. split; reflexivity. Qed.

Lemma same_output_trans h1 h2 h3 :
  same_output h1 h2 -> same_output h2 h3 -> same_output h1 h3.
Proof. intros [A1 A2] [B1 B2]. split; congruence. Qed.

Lemma silent_ret {A} (a : A) : silent (ret a).
Proof. intros h. apply same_output_refl. Qed.

Lemma silent_raise {A} e : silent (raise e : M A).
Proof. intros h. apply same_output_refl. Qed.

Lemma silent_load3 l : silent (load3 l).
Proof. intros h. apply same_output_refl. Qed.

Lemma silent_load2 l : silent (load2 l).
Proof. intros h. apply same_output_refl. Qed.

Lemma silent_store3 l v : silent (store3 l v).
Proof. intros h. split; reflexivity. Qed.

Lemma silent_store2 l v : silent (store2 l v).
Proof. intros h. split; reflexivity. Qed.

Lemma silent_alloc3 v : silent (alloc3 v).
Proof. intros h. split; reflexivity. Qed.

Lemma silent_alloc2 v : silent (alloc2 v).
Proof. intros h. split; reflexivity. Qed.

Lemma silent_get_state : silent get_state.
Proof. intros h. apply same_output_refl. Qed.

Lemma silent_set_state g : silent (set_state g).
Proof. intros h. split; reflexivity. Qed.

Lemma silent_seed_random s : silent (seed_random s).
Proof.
  unfold seed_random. destruct (random_seed s);
    [ apply silent_set_state | apply silent_raise ].
Qed.

Lemma silent_rand rows cols : silent (rand rows cols).
Proof.
  intros h. unfold rand. destruct (draw _ _). split; reflexivity.
Qed.

Lemma silent_bind {A B} (m : M A) (k : A -> M B) :
  silent m -> (forall a, silent (k a)) -> silent (bind m k).
Proof.
  intros Hm Hk h. unfold bind. specialize (Hm h).
  destruct (m h) as [[a | e] h1]; [ | exact Hm ].
  eapply same_output_trans; [ exact Hm | apply Hk ].
Qed.

Lemma silent_for_each l body :
  (forall i, silent (body i)) -> silent (for_each l body).
Proof.
  intros Hb. induction l as [| i l IH]; [ apply silent_ret | ].
  simpl. apply silent_bind; [ apply Hb | intros _; exact IH ].
Qed.

Lemma silent_for_range n body :
  (forall i, silent (body i)) -> silent (for_range n body).
Proof. apply silent_for_each. Qed.

Ltac silent_step :=
  lazymatch goal with
  | |- silent (ret _) => apply silent_ret
  | |- silent (raise _) => apply silent_raise
  | |- silent (load3 _) => apply silent_load3
  | |- silent (load2 _) => apply silent_load2
  | |- silent (store3 _ _) => apply silent_store3
  | |- silent (store2 _ _) => apply silent_store2
  | |- silent (alloc3 _) => apply silent_alloc3
  | |- silent (alloc2 _) => apply silent_alloc2
  | |- silent get_state => apply silent_get_state
  | |- silent (set_state _) => apply silent_set_state
  | |- silent (seed_random _) => apply silent_seed_random
  | |- silent (rand _ _) => apply silent_rand
  | |- silent (for_range _ _) => apply silent_for_range; intros ?
  | |- silent (bind _ _) => apply silent_bind; [ | intros ? ]
  | |- silent (let _ := _ in _) => cbv zeta
  end.

Ltac silent_tac := repeat silent_step.

Lemma silent_demix n_freq n_chan n_src lY lX lW lP lR_all :
  silent (demix n_freq n_chan n_src lY lX lW lP lR_all).
Proof. unfold demix. silent_tac. Qed.

Lemma silent_rescale n_src lW lP lR_all lG :
  silent (rescale n_src lW lP lR_all lG).
Proof. unfold rescale. silent_tac. Qed.

Lemma silent_sub_iteration n_src sparse_reg U_mean lW lP lR_all lG :
  silent (sub_iteration n_src sparse_reg U_mean lW lP lR_all lG).
Proof. unfold sub_iteration. silent_tac. apply silent_rescale. Qed.

Lemma silent_update_column n_freq n_chan V lW s :
  silent (update_column n_freq n_chan V lW s).
Proof.
  unfold update_column. silent_tac.
  destruct (solve_each _ _ _ _ _); silent_tac.
Qed.

Lemma silent_update_W n_freq n_chan V lW :
  silent (update_W n_freq n_chan V lW).
Proof. unfold update_W. silent_tac. apply silent_update_column. Qed.

Lemma silent_initialise n_frames n_chan n_src n_blink seed U_mean lR_all :
  silent (initialise n_frames n_chan n_src n_blink seed U_mean lR_all).
Proof.
  unfold initialise. silent_step.
  - destruct seed; silent_tac.
  - silent_step; [ silent_tac | ].
    silent_step; [ destruct (n_chan <? n_src); silent_tac | ].
    silent_tac. destruct a; silent_tac.
Qed.

Lemma silent_setup a : silent (setup a).
Proof.
  unfold setup. silent_step; [ silent_tac | ].
  cbv beta iota delta [shape3].
  silent_step; [ silent_tac | ].
  cbv beta iota delta [shape2].
  destruct (negb _); [ silent_tac | ].
  silent_step; [ destruct (arg_W0 a); silent_tac | ].
  silent_step; [ silent_tac | ].
  silent_step; [ silent_tac | ].
  silent_step; [ silent_tac | ].
  silent_step; [ apply silent_initialise | ].
  silent_step; [ apply silent_demix | silent_tac ].
Qed.

Lemma silent_finish a w : silent (finish a w).
Proof.
  unfold finish. silent_step; [ | silent_tac ].
  destruct (arg_proj_back a); unfold when; silent_tac.
Qed.

Lemma silent_run {A} (m : M A) h r h' :
  silent m -> m h = (r, h') -> same_output h h'.
Proof. intros Hm E. specialize (Hm h). now rewrite E in Hm. Qed.

Tactic Notation "step_in" hyp(H) "as" ident(x) ident(hx) ident(E) :=
  match type of H with
  | bind ?m ?k ?h = _ =>
      destruct (m h) as [[x | ?] hx] eqn:E;
      [ rewrite (bind_run _ _ _ _ _ E) in H; cbv beta in H
      | rewrite (bind_raise _ _ _ _ _ E) in H; discriminate H ]
  end.

(** The reports of one epoch that returns. *)
Lemma epoch_reports a w e h u h' :
  epoch a w e h = (Ok u, h') ->
  length (stdout h')
  = length (stdout h)
    + (if arg_print_cost a && (e mod 10 =? 0) then 1 else 0) /\
  length (callback_log h')
  = length (callback_log h)
    + (if arg_callback a && (e mod 10 =? 0) then 1 else 0).
Proof.
  intros H. unfold epoch, epoch_body in H.
  step_in H as u1 h1 E1.
  step_in H as u2 h2 E2.
  assert (S2 : same_output h2 h').
  { match type of H with
    | ?m h2 = _ => apply (silent_run m h2 (Ok u) h'); [ | exact H ]
    end.
    silent_step;
      [ apply silent_for_range; intros i; apply silent_sub_iteration | ].
    silent_step; [ silent_tac | ].
    silent_step; [ silent_tac | ].
    cbv zeta.
    silent_step; [ apply silent_update_W | ].
    silent_step; [ apply silent_demix | apply silent_rescale ]. }
  destruct S2 as [S2o S2c]. rewrite S2o, S2c. clear H S2o S2c.
  assert (A1 : stdout h1 = stdout h /\
               length (callback_log h1)
               = length (callback_log h)
                 + (if arg_callback a && (e mod 10 =? 0) then 1 else 0)).
  { destruct (arg_callback a && (e mod 10 =? 0)).
    - unfold when, report_callback, bind, load3, load2 in E1.
      destruct (arg_proj_back a); unfold call_callback in E1;
        injection E1 as _ <-; simpl; rewrite length_app; simpl; auto.
    - unfold when, ret in E1. injection E1 as _ <-.
      split; [ reflexivity | simpl; lia ]. }
  assert (A2 : callback_log h2 = callback_log h1 /\
               length (stdout h2)
               = length (stdout h1)
                 + (if arg_print_cost a && (e mod 10 =? 0) then 1 else 0)).
  { destruct (arg_print_cost a && (e mod 10 =? 0)).
    - unfold when, report_cost, bind, load3, load2, print in E2.
      injection E2 as _ <-. simpl. rewrite length_app. simpl. auto.
    - unfold when, ret in E2. injection E2 as _ <-.
      split; [ reflexivity | simpl; lia ]. }
  destruct A1 as [A1o A1c]. destruct A2 as [A2c A2o].
  rewrite A2o, A2c, A1o, A1c. split; reflexivity.
Qed.

Lemma for_each_reports a w l h u h' :
  for_each l (epoch a w) h = (Ok u, h') ->
  length (stdout h')
  = length (stdout h)
    + (if arg_print_cost a
       then length (List.filter (fun e => e mod 10 =? 0) l) else 0) /\
  length (callback_log h')
  = length (callback_log h)
    + (if arg_callback a
       then length (List.filter (fun e => e mod 10 =? 0) l) else 0).
Proof.
  revert h. induction l as [| e l IH]; intros h H.
  - unfold for_each, ret in H. injection H as _ <-.
    destruct (arg_print_cost a), (arg_callback a); split; simpl; lia.
  - cbn [for_each] in H. step_in H as u1 h1 E1.
    destruct (epoch_reports a w e h u1 h1 E1) as [Ao Ac].
    destruct (IH h1 H) as [Bo Bc]. rewrite Bo, Bc, Ao, Ac.
    cbn [List.filter].
    destruct (arg_print_cost a), (arg_callback a), (e mod 10 =? 0);
      cbn [andb length]; split; lia.
Qed.

Lemma tenth_epochs n :
  length (List.filter (fun e => e mod 10 =? 0) (seq 0 n)) = (n + 9) / 10.
Proof.
  induction n as [| n IH]; [ reflexivity | ].
  rewrite seq_S, List.filter_app, length_app, IH.
  cbn [Nat.add List.filter].
  pose proof (Nat.div_mod_eq n 10) as D.
  pose proof (Nat.mod_upper_bound n 10 ltac:(lia)) as B.
  set (q := n / 10) in *. set (r := n mod 10) in *.
  assert (E1 : (n + 9) / 10 = q + (if r =? 0 then 0 else 1)).
  { destruct (Nat.eqb_spec r 0) as [Hr | Hr].
    - symmetry. apply (Nat.div_unique _ _ _ 9). lia. lia.
    - symmetry. apply (Nat.div_unique _ _ _ (r - 1)). lia. lia. }
  assert (E2 : Datatypes.S (n + 9) / 10 = q + 1).
  { symmetry. apply (Nat.div_unique _ _ _ r). lia. lia. }
  rewrite E1, E2. destruct (r =? 0); simpl; lia.
Qed.

(** X9. A call that returns has printed the cost once for every tenth epoch,
    that is [ceil(n_iter / 10)] times, when [print_cost] is set and never
    otherwise; and it has called the callback as many times when one is given,
    and never otherwise. *)
Theorem reports_every_tenth_epoch (a : arguments) (h : heap) (r : returned) :
  fst (blinkiva_gauss a h) = Ok r ->
  length (stdout (snd (blinkiva_gauss a h)))
  = length (stdout h)
    + (if arg_print_cost a then (arg_n_iter a + 9) / 10 else 0) /\
  length (callback_log (snd (blinkiva_gauss a h)))
  = length (callback_log h)
    + (if arg_callback a then (arg_n_iter a + 9) / 10 else 0).
Proof.
  intros Hr. destruct (blinkiva_gauss a h) as [r0 h'] eqn:H.
  cbn [fst snd] in *. subst r0. unfold blinkiva_gauss in H.
  step_in H as w h1 E1.
  step_in H as u2 h2 E2.
  destruct (silent_run _ _ _ _ (silent_setup a) E1) as [A1o A1c].
  destruct (silent_run _ _ _ _ (silent_finish a w) H) as [A3o A3c].
  unfold for_range in E2.
  destruct (for_each_reports a w _ h1 u2 h2 E2) as [A2o A2c].
  rewrite tenth_epochs in A2o, A2c.
  rewrite A3o, A3c, A2o, A2c, A1o, A1c. split; reflexivity.
Qed.

End Reports.

Section ReportsRun.

#[local] Existing Instance binary64.
#[local] Existing Instance float_libraries.

Lemma reports_every_tenth_epoch_witness :
  length (stdout (snd (blinkiva_gauss args_reporting heap_2_1_2)))
  = length (stdout heap_2_1_2) + 3 /\
  length (callback_log (snd (blinkiva_gauss args_reporting heap_2_1_2)))
  = length (callback_log heap_2_1_2) + 3.
Proof.
  apply (reports_every_tenth_epoch (L := float_libraries) args_reporting
           heap_2_1_2 (ReturnY 3)).
  vm_compute. reflexivity.
Defined.

End ReportsRun.

(** ** The random initialisation *)

Section InitialiseValues.

Context {S : Scalar} {L : Libraries}.

Lemma rand_ok rows cols h :
  rand rows cols h
  = (Ok (tabulate2 rows cols (fun i j =>
           nth (i * cols + j) (fst (draw (rows * cols) (np_random h))) r0)),
     snd (rand rows cols h)).
Proof.
  unfold rand. destruct (draw (rows * cols) (np_random h)). reflexivity.
Qed.

Lemma array2_rand rows cols h l :
  array2 (snd (rand rows cols h)) l = array2 h l.
Proof.
  unfold rand. destruct (draw (rows * cols) (np_random h)). reflexivity.
Qed.

Lemma seed_part_ok (seed : option Z) h :
  (forall s, seed = Some s -> random_seed s <> None) ->
  exists rs hs,
    (match seed with
     | Some s => g <- get_state ;; seed_random s ;;; ret (Some g)
     | None => ret None
     end) h = (Ok rs, hs) /\
    real_arrays hs = real_arrays h.
Proof.
  intros Hseed. destruct seed as [s |].
  - unfold bind, get_state, seed_random.
    destruct (random_seed s) as [g |] eqn:Eg;
      [ | exfalso; exact (Hseed s eq_refl Eg) ].
    eexists _, _. split; reflexivity.
  - eexists _, _. split; reflexivity.
Qed.

Lemma restore_part_ok (rs : option random_state) h :
  exists h',
    (match rs with Some g => set_state g | None => ret tt end) h
    = (Ok tt, h') /\
    real_arrays h' = real_arrays h.
Proof. destruct rs; eexists; split; reflexivity. Qed.

(** What the initialiser leaves in [R_all] and in [G], from the two
    matrices it draws. *)
Lemma initialise_values n_frames n_chan n_src n_blink seed U_mean lR_all h
    (R0 : matrix real) :
  array2 h lR_all = Some R0 ->
  n_src <= n_chan ->
  (forall s, seed = Some s -> random_seed s <> None) ->
  exists (g1 g2 : random_state) lG h',
    let D := tabulate2 n_frames n_src (fun i j =>
               nth (i * n_src + j) (fst (draw (n_frames * n_src) g1)) r0) in
    let D2 := tabulate2 n_src n_blink (fun i j =>
                nth (i * n_blink + j) (fst (draw (n_src * n_blink) g2)) r0) in
    let R := normalise_R n_src (init_R n_src D R0) in
    initialise n_frames n_chan n_src n_blink seed U_mean lR_all h
    = (Ok lG, h') /\
    array2 h' lR_all = Some R /\
    array2 h' lG
    = Some (scale_G U_mean (dot (view_R n_src R) (init_G D2)) (init_G D2)).
Proof.
  intros HR Hle Hseed. unfold initialise.
  destruct (seed_part_ok seed h Hseed) as (rs & hs & Es & As).
  rewrite (bind_run _ _ _ _ _ Es). cbv beta.
  assert (HRs : array2 hs lR_all = Some R0)
    by (unfold array2 in *; rewrite As; exact HR).
  rewrite (bind_run _ _ _ _ _ (rand_ok n_frames n_src hs)). cbv beta.
  exists (np_random hs).
  set (D := tabulate2 n_frames n_src (fun i j =>
              nth (i * n_src + j)
                  (fst (draw (n_frames * n_src) (np_random hs))) r0)).
  set (h2 := snd (rand n_frames n_src hs)).
  assert (HR2 : array2 h2 lR_all = Some R0)
    by (unfold h2; rewrite array2_rand; exact HRs).
  rewrite (proj2 (Nat.ltb_ge n_chan n_src) Hle).
  erewrite bind_run by reflexivity.
  erewrite bind_run by (apply load2_run; exact HR2).
  erewrite bind_run by apply store2_ok.
  set (h3 := snd (store2 lR_all (init_R n_src D R0) h2)).
  assert (HR3 : array2 h3 lR_all = Some (init_R n_src D R0))
    by (eapply array2_store2_eq; exact HR2).
  erewrite bind_run by (apply load2_run; exact HR3).
  erewrite bind_run by apply store2_ok.
  set (R := normalise_R n_src (init_R n_src D R0)).
  set (h4 := snd (store2 lR_all R h3)).
  assert (HR4 : array2 h4 lR_all = Some R)
    by (eapply array2_store2_eq; exact HR3).
  rewrite (bind_run _ _ _ _ _ (rand_ok n_src n_blink h4)). cbv beta.
  exists (np_random h4).
  set (D2 := tabulate2 n_src n_blink (fun i j =>
               nth (i * n_blink + j)
                   (fst (draw (n_src * n_blink) (np_random h4))) r0)).
  set (h5 := snd (rand n_src n_blink h4)).
  assert (HR5 : array2 h5 lR_all = Some R)
    by (unfold h5; rewrite array2_rand; exact HR4).
  erewrite bind_run by apply alloc2_ok.
  set (lG := length (real_arrays h5)).
  set (h6 := snd (alloc2 (init_G D2) h5)).
  assert (HG6 : array2 h6 lG = Some (init_G D2)).
  { unfold array2, h6, lG. simpl. apply list_lookup_middle. reflexivity. }
  assert (HR6 : array2 h6 lR_all = Some R).
  { unfold array2, h6. simpl. apply lookup_app_l_Some. exact HR5. }
  assert (Hne : lG <> lR_all).
  { pose proof (array2_lt h5 lR_all R HR5). unfold lG. lia. }
  erewrite bind_run by (apply load2_run; exact HR6).
  erewrite bind_run by (apply load2_run; exact HG6).
  cbv zeta.
  erewrite bind_run by apply store2_ok.
  set (G := scale_G U_mean (dot (view_R n_src R) (init_G D2)) (init_G D2)).
  set (h7 := snd (store2 lG G h6)).
  assert (HG7 : array2 h7 lG = Some G)
    by (eapply array2_store2_eq; exact HG6).
  assert (HR7 : array2 h7 lR_all = Some R)
    by (unfold h7; rewrite array2_store2_ne by exact Hne; exact HR6).
  destruct (restore_part_ok rs h7) as (h8 & E8 & A8).
  rewrite (bind_run _ _ _ _ _ E8). cbv beta.
  exists lG, h8. split; [ reflexivity | ].
  unfold array2 in *. rewrite A8. split; assumption.
Qed.

End InitialiseValues.

Section MatrixFacts.

Context {S : Scalar} {L : Libraries}.

Lemma rat2_tabulate2 n m (f : nat -> nat -> real) i j :
  i < n -> j < m -> rat2 (tabulate2 n m f) i j = f i j.
Proof.
  intros Hi Hj. unfold rat2, tabulate2.
  rewrite (nth_tabulate n (fun i => tabulate m (f i)) i [] Hi).
  exact (nth_tabulate m (f i) j r0 Hj).
Qed.

Lemma column_view_R n_src (A : matrix real) s :
  s < n_src -> column (view_R n_src A) s = column A s.
Proof.
  intros Hs. unfold column, view_R. rewrite map_map.
  apply map_ext. intros row.
  rewrite !nth_lookup, lookup_take_lt by exact Hs. reflexivity.
Qed.

Lemma tabulate_front {A} n (f : nat -> A) :
  tabulate (Datatypes.S n) f = f 0 :: tabulate n (fun i => f (Datatypes.S i)).
Proof.
  unfold tabulate. cbn [seq map]. f_equal.
  rewrite <- seq_shift, map_map. reflexivity.
Qed.

Lemma column_tabulate (A : matrix real) j :
  column A j = tabulate (length A) (fun i => rat2 A i j).
Proof.
  induction A as [| row A IH]; [ reflexivity | ].
  cbn [length]. rewrite tabulate_front. cbn [column map].
  f_equal. exact IH.
Qed.

Lemma has_shape2_dot (a b : matrix real) :
  has_shape2 (dot a b) (length a) (length (hd [] b)).
Proof.
  unfold dot. split.
  - now rewrite length_map.
  - apply List.Forall_forall. intros row Hrow.
    apply in_map_iff in Hrow. destruct Hrow as (row0 & <- & _).
    apply length_tabulate.
Qed.

End MatrixFacts.

Section ExactInitialise.

#[local] Existing Instance exact.
Context {L : Libraries}.

Lemma draw_nonneg n g :
  (forall g, (0 <= fst (random_sample g))%R) ->
  Forall (fun x => (0 <= x)%R) (fst (draw n g)).
Proof.
  intros Hs. revert g. induction n as [| n IH]; intros g.
  - constructor.
  - cbn [draw]. pose proof (Hs g) as H0.
    destruct (random_sample g) as [x g1]. specialize (IH g1).
    destruct (draw n g1) as [xs g2]. constructor; assumption.
Qed.

Lemma sample_nonneg n g k :
  (forall g, (0 <= fst (random_sample g))%R) ->
  (0 <= nth k (fst (draw n g)) r0)%R.
Proof.
  intros Hs. pose proof (draw_nonneg n g Hs) as H.
  destruct (Nat.lt_ge_cases k (length (fst (draw n g)))) as [Hk | Hk].
  - rewrite List.Forall_forall in H. apply H. now apply nth_In.
  - rewrite nth_overflow by exact Hk. to_R. lra.
Qed.

Lemma rsum_tabulate_scale n (f : nat -> real) (k : real) :
  rsum (tabulate n (fun i => (f i * k)%sc)) = (rsum (tabulate n f) * k)%sc.
Proof.
  induction n as [| n IH].
  - rewrite !rsum_tabulate_0. to_R. eqR. ring.
  - rewrite !rsum_tabulate_S, IH. to_R. eqR. ring.
Qed.

Lemma rsum_tabulate_positive n (g : nat -> real) :
  0 < n -> (forall i, i < n -> (0 < g i)%R) -> (0 < rsum (tabulate n g))%R.
Proof.
  intros Hn H. destruct n as [| n]; [ lia | ].
  rewrite rsum_tabulate_S. to_R.
  assert (0 <= rsum (tabulate n g))%R.
  { apply rsum_tabulate_nonneg. intros i Hi.
    left. apply H. lia. }
  pose proof (H n (Nat.lt_succ_diag_r n)). lra.
Qed.

(** X10. In exact arithmetic, and with a generator whose samples are not
    negative (numpy's are in [[0, 1)]), the initialiser returns and leaves
    every column of [R] with mean one, and gains [G] for which the columns of
    the model [np.dot(R, G)] have the sums of the columns of [U_mean]. *)
Theorem initialise_matches_sensors (n_frames n_chan n_src n_blink : nat)
    (seed : option Z) (U_mean : matrix real) (lR_all : loc) (h : heap)
    (R0 : matrix real) :
  (forall g, (0 <= fst (random_sample g))%R) ->
  array2 h lR_all = Some R0 -> has_shape2 R0 n_frames n_chan ->
  0 < n_frames -> 0 < n_src -> n_src <= n_chan ->
  (forall s, seed = Some s -> random_seed s <> None) ->
  exists lG h' (R_all G : matrix real),
    initialise n_frames n_chan n_src n_blink seed U_mean lR_all h
    = (Ok lG, h') /\
    array2 h' lR_all = Some R_all /\ array2 h' lG = Some G /\
    (forall s, s < n_src -> rmean (column R_all s) = 1%R) /\
    (forall b, b < n_blink ->
       rsum (column (dot (view_R n_src R_all) G) b)
       = rsum (column U_mean b)).
Proof.
  intros Hsample HR SR0 Hnf Hsrc Hle Hseed.
  destruct (initialise_values n_frames n_chan n_src n_blink seed U_mean
              lR_all h R0 HR Hle Hseed)
    as (g1 & g2 & lG & h' & Hrun & HR' & HG').
  cbv zeta in Hrun, HR', HG'.
  set (D := tabulate2 n_frames n_src (fun i j =>
              nth (i * n_src + j) (fst (draw (n_frames * n_src) g1)) r0))
    in *.
  set (D2 := tabulate2 n_src n_blink (fun i j =>
               nth (i * n_blink + j) (fst (draw (n_src * n_blink) g2)) r0))
    in *.
  set (R1 := init_R n_src D R0) in *.
  set (R := normalise_R n_src R1) in *.
  set (G0 := init_G D2) in *.
  set (Uh := dot (view_R n_src R) G0) in *.
  exists lG, h', R, (scale_G U_mean Uh G0).
  split; [ exact Hrun | ]. split; [ exact HR' | ]. split; [ exact HG' | ].
  clear Hrun HR' HG'.
  (* the drawn matrices have no negative entry *)
  assert (HD : forall n s, n < n_frames -> s < n_src -> (0 <= rat2 D n s)%R).
  { intros n s Hn Hs. unfold D. rewrite rat2_tabulate2 by assumption.
    apply sample_nonneg. exact Hsample. }
  assert (HD2 : forall s b, s < n_src -> b < n_blink ->
                  (0 <= rat2 D2 s b)%R).
  { intros s b Hs Hb. unfold D2. rewrite rat2_tabulate2 by assumption.
    apply sample_nonneg. exact Hsample. }
  (* R after line 87 *)
  assert (SR1 : has_shape2 R1 n_frames n_chan)
    by (apply has_shape2_inplace2; exact SR0).
  assert (HR1 : forall n s, n < n_frames -> s < n_src ->
                  (0 < rat2 R1 n s)%R).
  { intros n s Hn Hs. unfold R1, init_R, inplace_R.
    destruct (has_shape2_lengths R0 n_frames n_chan n SR0 Hn) as [H1 H2].
    rewrite rat2_inplace2 by (try assumption; lia).
    rewrite (proj2 (Nat.ltb_lt s n_src) Hs).
    pose proof (HD n s Hn Hs). to_R. lra. }
  assert (Hmean : forall s, s < n_src -> (0 < rmean (column R1 s))%R).
  { intros s Hs.
    destruct (column_positive R1 n_frames n_chan s SR1 Hnf
                (fun n Hn => HR1 n s Hn Hs)) as [Hne Hall].
    now apply rmean_positive. }
  (* R after line 88 *)
  assert (SR : has_shape2 R n_frames n_chan)
    by (apply has_shape2_inplace2; exact SR1).
  assert (HRv : forall n s, n < n_frames -> s < n_src ->
                  rat2 R n s = (rat2 R1 n s / rmean (column R1 s))%R).
  { intros n s Hn Hs. unfold R, normalise_R, inplace_R.
    destruct (has_shape2_lengths R1 n_frames n_chan n SR1 Hn) as [H1 H2].
    rewrite rat2_inplace2 by (try assumption; lia).
    rewrite (proj2 (Nat.ltb_lt s n_src) Hs).
    rewrite column_view_R by exact Hs. reflexivity. }
  assert (HRpos : forall n s, n < n_frames -> s < n_src ->
                    (0 < rat2 R n s)%R).
  { intros n s Hn Hs. rewrite HRv by assumption.
    apply Rdiv_lt_0_compat; [ apply HR1 | apply Hmean ]; assumption. }
  (* G after line 89 *)
  assert (SD2 : has_shape2 D2 n_src n_blink) by apply has_shape2_tabulate2.
  assert (SG0 : has_shape2 G0 n_src n_blink)
    by (apply has_shape2_map2d; exact SD2).
  assert (HG0 : forall s b, s < n_src -> b < n_blink ->
                  (0 < rat2 G0 s b)%R).
  { intros s b Hs Hb. unfold G0, init_G.
    rewrite (rat2_map2d _ D2 n_src n_blink s b SD2 Hs Hb).
    pose proof (HD2 s b Hs Hb). to_R. lra. }
  pose proof SR as [LR _]. pose proof SG0 as [LG0 _].
  pose proof (length_hd_shape2 G0 n_src n_blink SG0 Hsrc) as LhG0.
  (* U_hat of line 90 *)
  assert (HUh : forall n b, n < n_frames -> b < n_blink ->
                  rat2 Uh n b
                  = rsum (tabulate n_src (fun l =>
                            (rat2 R n l * rat2 G0 l b)%sc))).
  { intros n b Hn Hb. unfold Uh.
    rewrite rat2_dot by (rewrite ?length_view_R; lia).
    rewrite LG0. f_equal. apply tabulate_ext. intros l Hl.
    rewrite nth_view_R by exact Hl. reflexivity. }
  assert (SUh : has_shape2 Uh n_frames n_blink).
  { pose proof (has_shape2_dot (view_R n_src R) G0) as H.
    rewrite length_view_R, LR, LhG0 in H. exact H. }
  assert (HUhpos : forall n b, n < n_frames -> b < n_blink ->
                     (0 < rat2 Uh n b)%R).
  { intros n b Hn Hb. rewrite HUh by assumption.
    apply rsum_tabulate_positive; [ exact Hsrc | ].
    intros l Hl. apply Rmult_lt_0_compat; [ apply HRpos | apply HG0 ];
      assumption. }
  assert (HSh : forall b, b < n_blink -> (0 < rsum (column Uh b))%R).
  { intros b Hb.
    destruct (column_positive Uh n_frames n_blink b SUh Hnf
                (fun n Hn => HUhpos n b Hn Hb)) as [Hne Hall].
    now apply rsum_positive. }
  split.
  - (* the columns of R have mean one *)
    intros s Hs.
    assert (Hc : s < n_chan) by lia.
    set (g := fun (c : nat) (x : real) =>
                if Nat.ltb c n_src
                then (x / rmean (column (view_R n_src R1) c))%sc else x).
    change R with (inplace2 (fun _ => g) R1).
    rewrite (column_inplace2 g R1 n_frames n_chan s SR1 Hc).
    unfold g. rewrite (proj2 (Nat.ltb_lt s n_src) Hs).
    rewrite column_view_R by exact Hs.
    change (rmean (map (fun x => (x * (/ rmean (column R1 s))%R)%sc)
                       (column R1 s)) = 1%R).
    rewrite rmean_scale. pose proof (Hmean s Hs). to_R. field. lra.
  - (* the sums of the columns of the model *)
    intros b Hb.
    set (k := (rsum (column U_mean b) / rsum (column Uh b))%R).
    assert (SG : has_shape2 (scale_G U_mean Uh G0) n_src n_blink)
      by (apply has_shape2_inplace2; exact SG0).
    pose proof SG as [LG _].
    pose proof (length_hd_shape2 _ n_src n_blink SG Hsrc) as LhG.
    rewrite column_tabulate. rewrite (proj1 (has_shape2_dot _ _)).
    rewrite length_view_R, LR.
    rewrite (tabulate_ext n_frames _ (fun n => (rat2 Uh n b * k)%sc)).
    + rewrite rsum_tabulate_scale.
      assert (E : rsum (tabulate n_frames (fun n => rat2 Uh n b))
                  = rsum (column Uh b)).
      { rewrite column_tabulate. destruct SUh as [-> _]. reflexivity. }
      rewrite E. unfold k. pose proof (HSh b Hb). to_R. eqR. field. lra.
    + intros n Hn.
      rewrite rat2_dot by (rewrite ?length_view_R; lia).
      rewrite LG, HUh by assumption.
      rewrite <- rsum_tabulate_scale. f_equal.
      apply tabulate_ext. intros l Hl.
      rewrite nth_view_R by exact Hl.
      destruct (has_shape2_lengths G0 n_src n_blink l SG0 Hl) as [H1 H2].
      unfold scale_G. rewrite rat2_inplace2 by (try assumption; lia).
      unfold k. to_R. eqR. unfold Rdiv. ring.
Qed.

End ExactInitialise.

Section ExactInitialiseRun.

#[local] Existing Instance exact.
#[local] Existing Instance real_libraries.

Lemma initialise_matches_sensors_witness :
  exists lG h' (R_all G : matrix real),
    initialise 2 2 2 1 None U_mean_real_2_1 1 heap_rescale = (Ok lG, h') /\
    array2 h' 1 = Some R_all /\ array2 h' lG = Some G /\
    (forall s, s < 2 -> rmean (column R_all s) = 1%R) /\
    (forall b, b < 1 ->
       rsum (column (dot (view_R 2 R_all) G) b)
       = rsum (column U_mean_real_2_1 b)).
Proof.
  apply (initialise_matches_sensors (L := real_libraries) 2 2 2 1 None
           U_mean_real_2_1 1 heap_rescale R_all_real_2_2).
  - intros g.
    unfold random_sample, real_libraries, small_libraries, lcg_sample.
    cbn [fst].
    change (0 <= INR (Z.to_nat (lcg_next g)) * / INR 4096)%R.
    apply Rmult_le_pos; [ apply pos_INR | ].
    left. apply Rinv_0_lt_compat. apply lt_0_INR. lia.
  - reflexivity.
  - split; [ reflexivity | repeat constructor ].
  - lia.
  - lia.
  - lia.
  - intros s Hs. discriminate Hs.
Defined.

End ExactInitialiseRun.

(** ** The projection back *)

Section Finish.

Context {S : Scalar} {L : Libraries}.

(** X14.  With [proj_back] set, the last step of a call multiplies
    [Y[n,f,c]] by the conjugate of [z[f,c]], where [z] is what
    [projection_back] answers for the separated signal and the first
    channel of [X]; it writes to [Y] only: the demixing matrix, the gains
    and the activations that [return_filters] hands out are not rescaled
    with it. *)
Theorem finish_scales_only_Y (a : arguments) (w : workspace) (h : heap)
    (X Y : tensor3 complex) (nf nq nc : nat) :
  arg_proj_back a = true ->
  array3 h (arg_X a) = Some X -> array3 h (var_Y w) = Some Y ->
  has_shape3 Y nf nq nc ->
  exists (r : returned) (Y' : tensor3 complex) (h' : heap),
    finish a w h = (Ok r, h') /\
    separated r = var_Y w /\
    array3 h' (var_Y w) = Some Y' /\
    (forall n f c, n < nf -> f < nq -> c < nc ->
       cat3 Y' n f c
       = cmul (cat3 Y n f c)
              (conj (cat2 (projection_back Y (reference X)) f c))) /\
    (forall l, l <> var_Y w -> array3 h' l = array3 h l) /\
    (forall l, array2 h' l = array2 h l).
Proof.
  intros Hpb HX HY SY. unfold finish. rewrite Hpb. unfold when.
  set (Y' := apply_scale (projection_back Y (reference X)) Y).
  assert (E : bind (load3 (var_Y w)) (fun Y0 =>
                bind (load3 (arg_X a)) (fun X0 =>
                  store3 (var_Y w)
                    (apply_scale (projection_back Y0 (reference X0)) Y0))) h
              = (Ok tt, snd (store3 (var_Y w) Y' h))).
  { rewrite (bind_run _ _ _ _ _ (load3_run _ _ _ HY)).
    rewrite (bind_run _ _ _ _ _ (load3_run _ _ _ HX)).
    apply store3_ok. }
  rewrite (bind_run _ _ _ _ _ E).
  eexists _, Y', _. split; [ reflexivity | ].
  split; [ destruct (arg_return_filters a); reflexivity | ].
  split; [ eapply array3_store3_eq; exact HY | ].
  split; [ | split ].
  - intros n f c Hn Hf Hc. unfold Y', apply_scale.
    destruct (has_shape3_lengths Y nf nq nc n f SY Hn Hf) as (H1 & H2 & H3).
    rewrite cat3_inplace3 by (try assumption; lia). reflexivity.
  - intros l Hl. apply array3_store3_ne. congruence.
  - intros l. apply array2_store3.
Qed.

End Finish.

Section FinishRun.

#[local] Existing Instance binary64.
#[local] Existing Instance float_libraries.

Lemma finish_scales_only_Y_witness :
  exists (r : returned) (Y' : tensor3 complex) (h' : fheap),
    finish default_args workspace_demix heap_finish = (Ok r, h') /\
    separated r = var_Y workspace_demix /\
    array3 h' (var_Y workspace_demix) = Some Y' /\
    (forall n f c, n < 2 -> f < 1 -> c < 2 ->
       cat3 Y' n f c
       = cmul (cat3 Y_2_1_2 n f c)
              (conj (cat2 (projection_back Y_2_1_2 (reference X_2_1_2))
                          f c))) /\
    (forall l, l <> var_Y workspace_demix ->
       array3 h' l = array3 heap_finish l) /\
    (forall l, array2 h' l = array2 heap_finish l).
Proof.
  apply (finish_scales_only_Y (L := float_libraries) default_args
           workspace_demix heap_finish X_2_1_2 Y_2_1_2 2 1 2).
  - reflexivity.
  - reflexivity.
  - reflexivity.
  - split; [ reflexivity | repeat constructor ].
Defined.

End FinishRun.

(** ** What the rescaling multiplies *)

Section RescaleEffect.

Context {S : Scalar} {L : Libraries}.

(** X16.  A rescale step (lines 157-161 and 191-195), on arrays of the
    shapes the routine gives them, returns; with
    [lmb[c] = 1 / mean(R_all[:,c])] taken from [R_all] as the step finds it,
    it multiplies column [c] of [R_all] and of [P] by [lmb[c]], multiplies
    column [c] of [W] by [sqrt(lmb[c])], and divides row [s] of [G] by
    [lmb[s]]. *)
Theorem rescale_multiplies (n_frames n_freq n_chan n_src n_blink : nat)
    (lW lP lR_all lG : loc) (h : heap)
    (W : tensor3 complex) (P R_all G : matrix real) :
  array3 h lW = Some W -> array2 h lP = Some P ->
  array2 h lR_all = Some R_all -> array2 h lG = Some G ->
  lP <> lR_all -> lG <> lR_all -> lG <> lP ->
  0 < n_frames -> n_src <= n_chan ->
  has_shape3 W n_freq n_chan n_chan ->
  has_shape2 P n_frames n_chan ->
  has_shape2 R_all n_frames n_chan ->
  has_shape2 G n_src n_blink ->
  exists (W' : tensor3 complex) (P' R_all' G' : matrix real) (h' : heap),
    rescale n_src lW lP lR_all lG h = (Ok tt, h') /\
    array3 h' lW = Some W' /\ array2 h' lP = Some P' /\
    array2 h' lR_all = Some R_all' /\ array2 h' lG = Some G' /\
    (forall n c, n < n_frames -> c < n_chan ->
       rat2 R_all' n c
       = (rat2 R_all n c * (r1 / rmean (column R_all c)))%sc) /\
    (forall n c, n < n_frames -> c < n_chan ->
       rat2 P' n c = (rat2 P n c * (r1 / rmean (column R_all c)))%sc) /\
    (forall f i c, f < n_freq -> i < n_chan -> c < n_chan ->
       cat3 W' f i c
       = cmul (cat3 W f i c)
              (of_real (rsqrt (r1 / rmean (column R_all c))%sc))) /\
    (forall s b, s < n_src -> b < n_blink ->
       rat2 G' s b = (rat2 G s b / (r1 / rmean (column R_all s)))%sc).
Proof.
  intros HW HP HR HG N1 N2 N3 Hpos Hsrc SW SP SR SG.
  set (lmb := lmb_of R_all).
  assert (Hlmb : forall c, c < n_chan ->
            rat1 lmb c = (r1 / rmean (column R_all c))%sc).
  { intros c Hc. unfold lmb.
    exact (rat1_lmb_of R_all n_frames n_chan c SR Hpos Hc). }
  destruct (rescale_run n_src lW lP lR_all lG h W P R_all G
              HW HP HR HG N1 N2 N3) as (h' & Hrun & HW' & HP' & HR' & HG').
  fold lmb in HW', HP', HR', HG'.
  exists (scale_W lmb W), (scale_columns lmb P), (scale_columns lmb R_all),
         (unscale_G n_src lmb G), h'.
  split; [ exact Hrun | ]. split; [ exact HW' | ]. split; [ exact HP' | ].
  split; [ exact HR' | ]. split; [ exact HG' | ].
  split; [ | split; [ | split ] ].
  - intros n c Hn Hc. unfold scale_columns.
    destruct (has_shape2_lengths R_all n_frames n_chan n SR Hn) as [H1 H2].
    rewrite rat2_inplace2 by (try assumption; lia).
    rewrite Hlmb by exact Hc. reflexivity.
  - intros n c Hn Hc. unfold scale_columns.
    destruct (has_shape2_lengths P n_frames n_chan n SP Hn) as [H1 H2].
    rewrite rat2_inplace2 by (try assumption; lia).
    rewrite Hlmb by exact Hc. reflexivity.
  - intros f i c Hf Hi Hc. unfold scale_W.
    destruct (has_shape3_lengths W n_freq n_chan n_chan f i SW Hf Hi)
      as (H1 & H2 & H3).
    rewrite cat3_inplace3 by (try assumption; lia).
    rewrite Hlmb by exact Hc. reflexivity.
  - intros s b Hs Hb. unfold unscale_G.
    destruct (has_shape2_lengths G n_src n_blink s SG Hs) as [H1 H2].
    rewrite rat2_inplace2 by (try assumption; lia).
    assert (E : rat1 (take n_src lmb) s = rat1 lmb s).
    { unfold rat1. rewrite !nth_lookup, lookup_take_lt by exact Hs.
      reflexivity. }
    rewrite E, Hlmb by lia. reflexivity.
Qed.

End RescaleEffect.

Section RescaleEffectRun.

#[local] Existing Instance binary64.
#[local] Existing Instance float_libraries.

Lemma rescale_multiplies_witness :
  exists (W' : tensor3 fcomplex) (P' R_all' G' : matrix float) (h' : fheap),
    rescale 2 1 1 2 0 heap_rescale_float = (Ok tt, h') /\
    array3 h' 1 = Some W' /\ array2 h' 1 = Some P' /\
    array2 h' 2 = Some R_all' /\ array2 h' 0 = Some G' /\
    (forall n c, n < 2 -> c < 2 ->
       rat2 R_all' n c
       = (rat2 R_all_2_2 n c * (r1 / rmean (column R_all_2_2 c)))%sc) /\
    (forall n c, n < 2 -> c < 2 ->
       rat2 P' n c = (rat2 P_2_2 n c * (r1 / rmean (column R_all_2_2 c)))%sc) /\
    (forall f i c, f < 1 -> i < 2 -> c < 2 ->
       cat3 W' f i c
       = cmul (cat3 W0_1_2_2 f i c)
              (of_real (rsqrt (r1 / rmean (column R_all_2_2 c))%sc))) /\
    (forall s b, s < 2 -> b < 1 ->
       rat2 G' s b = (rat2 U_2_1 s b / (r1 / rmean (column R_all_2_2 s)))%sc).
Proof.
  apply (rescale_multiplies (L := float_libraries) 2 1 2 2 1 1 1 2 0
           heap_rescale_float W0_1_2_2 P_2_2 R_all_2_2 U_2_1).
  - reflexivity.
  - reflexivity.
  - reflexivity.
  - reflexivity.
  - discriminate.
  - discriminate.
  - discriminate.
  - lia.
  - lia.
  - split; [ reflexivity | repeat constructor ].
  - split; [ reflexivity | repeat constructor ].
  - split; [ reflexivity | repeat constructor ].
  - split; [ reflexivity | repeat constructor ].
Defined.

End RescaleEffectRun.

Section ExactUnitMean.

#[local] Existing Instance exact.
Context {L : Libraries}.

(** X17.  In exact arithmetic (the real numbers in place of binary64): after
    a rescale step, the mean over the frames of every column of [R_all]
    whose mean was not zero is one. *)
Theorem rescale_unit_mean_in_exact_arithmetic
    (n_frames n_chan n_src : nat)
    (lW lP lR_all lG : loc) (h : heap)
    (W : tensor3 complex) (P R_all G : matrix real) :
  array3 h lW = Some W -> array2 h lP = Some P ->
  array2 h lR_all = Some R_all -> array2 h lG = Some G ->
  lP <> lR_all -> lG <> lR_all -> lG <> lP ->
  0 < n_frames ->
  has_shape2 R_all n_frames n_chan ->
  exists (R_all' : matrix real) (h' : heap),
    rescale n_src lW lP lR_all lG h = (Ok tt, h') /\
    array2 h' lR_all = Some R_all' /\
    (forall c, c < n_chan -> rmean (column R_all c) <> 0%R ->
       rmean (column R_all' c) = 1%R).
Proof.
  intros HW HP HR HG N1 N2 N3 Hpos SR.
  destruct (rescale_run n_src lW lP lR_all lG h W P R_all G
              HW HP HR HG N1 N2 N3) as (h' & Hrun & _ & _ & HR' & _).
  exists (scale_columns (lmb_of R_all) R_all), h'.
  split; [ exact Hrun | ]. split; [ exact HR' | ].
  intros c Hc Hmean. unfold scale_columns.
  rewrite (column_inplace2 (fun c x => (x * rat1 (lmb_of R_all) c)%sc) R_all
             n_frames n_chan c SR Hc).
  rewrite rmean_scale.
  rewrite (rat1_lmb_of R_all n_frames n_chan c SR Hpos Hc).
  to_R. eqR. field. exact Hmean.
Qed.

End ExactUnitMean.

Section ExactUnitMeanRun.

#[local] Existing Instance exact.
#[local] Existing Instance real_libraries.

Lemma rescale_unit_mean_in_exact_arithmetic_witness :
  exists (R_all' : matrix real) (h' : rheap),
    rescale 2 0 0 1 2 heap_rescale = (Ok tt, h') /\
    array2 h' 1 = Some R_all' /\
    (forall c, c < 2 -> rmean (column R_all_real_2_2 c) <> 0%R ->
       rmean (column R_all' c) = 1%R).
Proof.
  apply (rescale_unit_mean_in_exact_arithmetic (L := real_libraries) 2 2 2
           0 0 1 2 heap_rescale W_real_1_2_2 P_real_2_2 R_all_real_2_2
           G_real_2_1).
  - reflexivity.
  - reflexivity.
  - reflexivity.
  - reflexivity.
  - discriminate.
  - discriminate.
  - discriminate.
  - lia.
  - split; [ reflexivity | repeat constructor ].
Defined.

End ExactUnitMeanRun.
